(** * pr-advisor: the reviewer-suggestion engine (lib/reviewer-suggester.js)

    A shallow embedding of the reviewer ranking engine and the properties
    its specification states about it: ownership rules, the collectors of
    commit authors, review latency, load and flaky reviewers, the scoring
    of [rankCandidates], the exclusion and penalties of [analyzeReviewers]
    and the confidence label.

    Conventions.
    - A JavaScript string is a [string] of bytes; [toLowerCase] acts on the
      ASCII letters and [trim] and [\s] on the ASCII white space, which is
      all that a login or a configuration line of interest contains.
    - Scores, counts and millisecond timestamps are integers ([Z]).  Hours,
      ratios and the operands of [Math.round] are exact rationals ([Q]):
      the comparisons of the source with 0.5, 0.25 and the hour thresholds
      are the same on binary64 numbers, and a product can differ from its
      binary64 value only by the last bit, which [Math.round] sees only
      next to a half (see [load_penalty_binary64]).
    - A JavaScript [Map] iterates in insertion order, and the ranking
      depends on that order: it is an association list ([jsmap]) whose
      [mset] overwrites in place or appends.  A [Set] whose order is
      observable (the reasons of a candidate) is a duplicate-free list;
      the other sets are [gset string].
    - The answers of the hosting API are a record of functions ([Api]); a
      request that throws answers [None].  The glob matcher of the minimatch
      package is a parameter.
    - The first part of the file holds the definitions, the second the
      properties: first those of the specification, then further
      properties of the same code (the parsers, the collectors, the order
      of the ranking and the score as a sum of signals). *)

From Stdlib Require Import ZArith QArith Qround Lqa Ascii String DecimalString.
From Stdlib Require Import PrimFloat FloatOps SpecFloat Uint63.
From stdpp Require Import base option list strings gmap sorting.

Local Open Scope Z_scope.

(** ** Strings *)

Module Str.

Definition lower_ascii (c : ascii) : ascii :=
  let n := N_of_ascii c in
  if ((65 <=? n) && (n <=? 90))%N then ascii_of_N (n + 32) else c.

Fixpoint toLowerCase (s : string) : string :=
  match s with
  | EmptyString => EmptyString
  | String c r => String (lower_ascii c) (toLowerCase r)
  end.

Fixpoint startsWith (s p : string) {struct p} : bool :=
  match p, s with
  | EmptyString, _ => true
  | String _ _, EmptyString => false
  | String a p', String b s' => if decide (a = b) then startsWith s' p' else false
  end.

Fixpoint includes (s p : string) : bool :=
  startsWith s p ||
  match s with
  | EmptyString => false
  | String _ r => includes r p
  end.

Fixpoint endsWith (s p : string) : bool :=
  (if decide (s = p) then true else false) ||
  match s with
  | EmptyString => false
  | String _ r => endsWith r p
  end.

(** [s.slice(1)] *)
Definition slice1 (s : string) : string :=
  match s with
  | EmptyString => EmptyString
  | String _ r => r
  end.

(** The characters [String.prototype.trim] removes, among the bytes. *)
Definition is_space (c : ascii) : bool :=
  let n := N_of_ascii c in
  ((n =? 32) || ((9 <=? n) && (n <=? 13)))%N.

Fixpoint trimStart (s : string) : string :=
  match s with
  | EmptyString => EmptyString
  | String c r => if is_space c then trimStart r else s
  end.

Fixpoint trimEnd (s : string) : string :=
  match s with
  | EmptyString => EmptyString
  | String c r =>
      match trimEnd r with
      | EmptyString => if is_space c then EmptyString else String c EmptyString
      | r' => String c r'
      end
  end.

Definition trim (s : string) : string := trimEnd (trimStart s).

(** The pieces of [s] between the characters that satisfy [p]: never the
    empty list. *)
Fixpoint splitOn (p : ascii → bool) (s : string) : list string :=
  match s with
  | EmptyString => [EmptyString]
  | String c r =>
      if p c then EmptyString :: splitOn p r
      else match splitOn p r with
           | [] => [String c EmptyString]
           | w :: ws => String c w :: ws
           end
  end.

(** [s.split(sep)] for a one-character separator. *)
Definition split (sep : ascii) (s : string) : list string :=
  splitOn (λ c, bool_decide (c = sep)) s.

(** [s.split(/\s+/).filter(Boolean)] *)
Definition words (s : string) : list string :=
  filter (λ w, w ≠ EmptyString) (splitOn is_space s).

Definition LF : ascii := ascii_of_N 10.
Definition CR : ascii := ascii_of_N 13.
Definition dquote : ascii := ascii_of_N 34.
Definition squote : ascii := ascii_of_N 39.

(** Removes the last character of [s] when it satisfies [p]. *)
Fixpoint dropLastIf (p : ascii → bool) (s : string) : string :=
  match s with
  | EmptyString => EmptyString
  | String c EmptyString => if p c then EmptyString else s
  | String c r => String c (dropLastIf p r)
  end.

Definition dropFirstIf (p : ascii → bool) (s : string) : string :=
  match s with
  | EmptyString => EmptyString
  | String c r => if p c then r else s
  end.

Fixpoint mapButLast {A} (f : A → A) (l : list A) : list A :=
  match l with
  | [] => []
  | [x] => [x]
  | x :: r => f x :: mapButLast f r
  end.

(** [text.split(/\r?\n/)] *)
Definition lines (text : string) : list string :=
  mapButLast (dropLastIf (λ c, bool_decide (c = CR))) (split LF text).

Definition isQuote (c : ascii) : bool :=
  bool_decide (c = squote) || bool_decide (c = dquote).

(** [s.replace] of one quote character at the start and one at the end. *)
Definition stripQuotes (s : string) : string :=
  dropLastIf isQuote (dropFirstIf isQuote s).

(** The longest prefix without a character that satisfies [p], and the
    rest. *)
Fixpoint span (p : ascii → bool) (s : string) : string * string :=
  match s with
  | EmptyString => (EmptyString, EmptyString)
  | String c r =>
      if p c then (EmptyString, s)
      else let '(a, b) := span p r in (String c a, b)
  end.

Definition isDigit (c : ascii) : bool :=
  let n := N_of_ascii c in ((48 <=? n) && (n <=? 57))%N.

(** The rest of [s] after the prefix [p], when [s] starts with it. *)
Fixpoint stripPrefix (p s : string) {struct p} : option string :=
  match p, s with
  | EmptyString, _ => Some s
  | String _ _, EmptyString => None
  | String a p', String b s' => if decide (a = b) then stripPrefix p' s' else None
  end.

Fixpoint drop (n : nat) (s : string) : string :=
  match n, s with
  | O, _ => s
  | S n', String _ r => drop n' r
  | S _, EmptyString => EmptyString
  end.

(** The first result of [f] along the suffixes of [s], from the left: where
    a regular expression that [f] matches at a fixed position is found by
    [String.prototype.match]. *)
Fixpoint firstMatch {A} (f : string → option A) (s : string) : option A :=
  match f s with
  | Some a => Some a
  | None =>
      match s with
      | EmptyString => None
      | String _ r => firstMatch f r
      end
  end.

(** The value of a run of decimal digits. *)
Definition digitsValue (s : string) : Z :=
  foldl (λ acc c, 10 * acc + (Z.of_N (N_of_ascii c) - 48)) 0
        (list_ascii_of_string s).

End Str.

(** ** Utilities *)

(** [isBotLogin]: a missing or empty login counts as a bot. *)
Definition isBotLogin (login : string) : bool :=
  match login with
  | EmptyString => true
  | _ =>
      let l := Str.toLowerCase login in
      Str.endsWith login "[bot]" || Str.includes l "bot"
      || (if decide (l = "github-actions") then true else false)
  end.

Definition parseCommaSeparated (s : string) : list string :=
  filter (λ x, x ≠ EmptyString)
    (map (λ x, Str.toLowerCase (Str.trim x)) (Str.split "," s)).

Definition clamp (n a b : Z) : Z := Z.max a (Z.min b n).

(** ** Numbers *)

(** [Math.round]: the nearest integer, a half rounding up. *)
Definition Math_round (x : Q) : Z := Qfloor (x + (1 # 2)).

(** The text of an integer inside a template literal. *)
Definition showZ (z : Z) : string := NilZero.string_of_int (Z.to_int z).

(** [insertBy le x l] puts [x] in front of the first element that the
    comparator does not order strictly before it ([le x y] is
    [cmp(x, y) <= 0]).  Folded over a list, whose earlier elements are
    inserted last, it is a stable sort, as [Array.prototype.sort] is. *)
Fixpoint insertBy {A} (le : A → A → bool) (x : A) (l : list A) : list A :=
  match l with
  | [] => [x]
  | y :: r => if le x y then x :: y :: r else y :: insertBy le x r
  end.

Definition stableSort {A} (le : A → A → bool) (l : list A) : list A :=
  foldr (insertBy le) [] l.

(** [[...arr].sort((a, b) => a - b)] *)
Definition sortAsc (l : list Q) : list Q := stableSort Qle_bool l.

Definition median (arr : list Q) : option Q :=
  match arr with
  | [] => None
  | _ =>
      let s := sortAsc arr in
      let mid := Nat.div (length s) 2 in
      if negb (Nat.eqb (Nat.modulo (length s) 2) 0)
      then Some (nth mid s 0%Q)
      else Some ((nth (mid - 1) s 0%Q + nth mid s 0%Q) / 2)%Q
  end.

(** ** Insertion-ordered maps *)

Abbreviation jsmap V := (list (string * V)).

Fixpoint mget {V} (m : jsmap V) (k : string) : option V :=
  match m with
  | [] => None
  | (k', v) :: r => if decide (k' = k) then Some v else mget r k
  end.

Fixpoint mset {V} (m : jsmap V) (k : string) (v : V) : jsmap V :=
  match m with
  | [] => [(k, v)]
  | (k', v') :: r =>
      if decide (k' = k) then (k, v) :: r else (k', v') :: mset r k v
  end.

Definition mkeys {V} (m : jsmap V) : list string := m.*1.

(** [counts.set(k, (counts.get(k) || 0) + 1)] *)
Definition mincr (m : jsmap Z) (k : string) : jsmap Z :=
  mset m k (default 0 (mget m k) + 1).

(** [Set.prototype.add] on a set that is read back in insertion order. *)
Definition setAdd (s : list string) (x : string) : list string :=
  if decide (x ∈ s) then s else s ++ [x].

(** ** Data *)

Record Rule := { pattern : string; owners : list string; teams : list string }.

Record FileAuthors := { path : string; authors : list string }.

Record Weights := { commitHistory : Z; codeowners : Z; latency : Z }.

Record TimezoneData := {
  preferredOffset : option Z;
  avgHours : option (jsmap Z)
}.

Record Candidate := {
  login : string;
  score : Z;
  reasons : list string;
  openReviews : option Z
}.

Inductive Confidence := High | Medium | Low.

(** A commit of [repos.listCommits]: [author?.login] and the UTC hour of
    [commit?.author?.date]. *)
Record Commit := { c_login : option string; c_hour : option Z }.

(** A review of [pulls.listReviews]: [user?.login] and [submitted_at] in
    milliseconds. *)
Record Review := { r_login : option string; r_submitted_at : option Z }.

(** A pull request of [pulls.list]; the [login] of every entry of
    [requested_reviewers]. *)
Record Pull := {
  pr_number : Z;
  pr_created_at : Z;
  pr_merged_at : option Z;
  pr_closed_at : option Z;
  pr_requested_reviewers : list (option string)
}.

Inductive PullState := StOpen | StClosed.

(** The answers of the hosting API; [None] is a request that throws. *)
Record Api := {
  listCommits : string → string → Z → option (list Commit);
  listReviews : Z → option (list Review);
  listPulls : PullState → Z → option (list Pull);
  getContent : string → option string
}.

(** ** Collectors *)

(** [c.author?.login] when it is present and not empty. *)
Definition truthy (o : option string) : option string :=
  match o with
  | Some EmptyString => None
  | _ => o
  end.

Definition humanLogin (o : option string) : option string :=
  match truthy o with
  | Some l => if isBotLogin l then None else Some l
  | None => None
  end.

Definition topCommitAuthorsForPath (api : Api) (repo path : string)
    (perFileCommitCap : Z) : option (list string) :=
  match listCommits api repo path perFileCommitCap with
  | Some resp => Some (omap (λ c, humanLogin (c_login c)) resp)
  | None => None
  end.

(** *** CODEOWNERS *)

Definition normalizeCodeownersPattern (pattern : string) : string :=
  if Str.startsWith pattern "/" then Str.slice1 pattern
  else "**/" +:+ pattern.

Section Ownership.

(** [minimatch(filePath, pat, { dot: true, nocase: false, matchBase: true })]
    of the minimatch package. *)
Variable minimatch : string → string → bool.

Definition ruleMatches (filePath : string) (r : Rule) : bool :=
  minimatch filePath (normalizeCodeownersPattern (pattern r)).

Definition ownersForFile (codeownersRules : list Rule) (filePath : string)
    : list string :=
  match codeownersRules with
  | [] => []
  | _ =>
      foldl (λ matchedOwners r,
               if ruleMatches filePath r then owners r else matchedOwners)
            [] codeownersRules
  end.

End Ownership.

(** *** Review latency *)

Definition msPerDay : Z := 24 * 60 * 60 * 1000.
Definition msPerHour : Z := 1000 * 60 * 60.

(** The earliest submission of every human reviewer of one pull request. *)
Definition firstStep (firstByUser : jsmap Z) (r : Review) : jsmap Z :=
  match humanLogin (r_login r), r_submitted_at r with
  | Some login, Some t =>
      match mget firstByUser login with
      | None => mset firstByUser login t
      | Some existing =>
          if t <? existing then mset firstByUser login t else firstByUser
      end
  | _, _ => firstByUser
  end.

Definition hoursBetween (createdAt t : Z) : Q :=
  (inject_Z (t - createdAt) / inject_Z msPerHour)%Q.

Definition pushHours (createdAt : Z) (perReviewer : jsmap (list Q))
    (e : string * Z) : jsmap (list Q) :=
  let hours := hoursBetween createdAt e.2 in
  if Qle_bool 0%Q hours
  then mset perReviewer e.1 (default [] (mget perReviewer e.1) ++ [hours])
  else perReviewer.

Definition latencyStep (api : Api) (since : Z) (perReviewer : jsmap (list Q))
    (pr : Pull) : jsmap (list Q) :=
  if bool_decide (pr_merged_at pr = None ∧ pr_closed_at pr = None)
  then perReviewer
  else if pr_created_at pr <? since then perReviewer
  else match listReviews api (pr_number pr) with
       | None => perReviewer
       | Some reviews =>
           foldl (pushHours (pr_created_at pr)) perReviewer
                 (foldl firstStep [] reviews)
       end.

Definition perReviewerHours (api : Api) (since : Z) (pulls : list Pull)
    : jsmap (list Q) :=
  foldl (latencyStep api since) [] pulls.

Definition medianStep (out : jsmap Q) (e : string * list Q) : jsmap Q :=
  match median e.2 with
  | Some m => mset out e.1 m
  | None => out
  end.

Definition computeReviewerLatencyHours (api : Api) (now lookbackDays : Z)
    (maxClosedPRs : Z) : option (jsmap Q) :=
  let since := now - lookbackDays * msPerDay in
  match listPulls api StClosed maxClosedPRs with
  | Some pulls => Some (foldl medianStep [] (perReviewerHours api since pulls))
  | None => None
  end.

Definition latencyBonusHours (medianHours : Q) : Z :=
  if Qle_bool medianHours 4%Q then 6
  else if Qle_bool medianHours 12%Q then 4
  else if Qle_bool medianHours 24%Q then 2
  else if Qle_bool medianHours 48%Q then 1
  else 0.

(** *** Review load *)

Definition countRequested (counts : jsmap Z) (pr : Pull) : jsmap Z :=
  foldl (λ counts reviewer,
           match truthy reviewer with
           | Some login => mincr counts login
           | None => counts
           end)
        counts (pr_requested_reviewers pr).

Definition computeOpenReviewCounts (api : Api) : option (jsmap Z) :=
  match listPulls api StOpen 100 with
  | Some pulls => Some (foldl countRequested [] pulls)
  | None => None
  end.

Definition applyLoadPenalty (score : Z) (openReviews : Z) : Q :=
  (inject_Z score * (1 / (1 + inject_Z openReviews / 3)))%Q.

(** *** Cross-repository expertise *)

Definition countAuthors (expertise : jsmap Z) (resp : list Commit) : jsmap Z :=
  foldl (λ expertise c,
           match humanLogin (c_login c) with
           | Some login => mincr expertise login
           | None => expertise
           end)
        expertise resp.

Definition fetchCrossRepoExpertise (api : Api) (repos filePaths : list string)
    : jsmap Z :=
  foldl (λ expertise repoName,
           foldl (λ expertise filePath,
                    match listCommits api repoName filePath 10 with
                    | Some resp => countAuthors expertise resp
                    | None => expertise
                    end)
                 expertise (take 5 filePaths))
        [] repos.

(** *** Timezone awareness *)

Definition timezoneBonus (avgHourUTC preferredOffsetHours : Z) : Z :=
  let preferredCenterUTC := Z.rem (14 - preferredOffsetHours + 24) 24 in
  let diff := Z.abs (avgHourUTC - preferredCenterUTC) in
  let wrappedDiff := Z.min diff (24 - diff) in
  if wrappedDiff <=? 4 then 3
  else if wrappedDiff <=? 8 then 1
  else 0.

Definition pushHour (avgHours : jsmap (list Z)) (c : Commit) : jsmap (list Z) :=
  match truthy (c_login c), c_hour c with
  | Some login, Some h =>
      mset avgHours login (default [] (mget avgHours login) ++ [h])
  | _, _ => avgHours
  end.

Definition sumZ (l : list Z) : Z := foldl Z.add 0 l.

Definition averageHour (hours : list Z) : Z :=
  Math_round (inject_Z (sumZ hours) / inject_Z (Z.of_nat (length hours)))%Q.

Definition collectTimezone (api : Api) (repo : string)
    (fileAuthors : list FileAuthors) (preferredOffset : Z) : TimezoneData :=
  let avgHours :=
    foldl (λ avgHours fa,
             match listCommits api repo (path fa) 10 with
             | Some resp => foldl pushHour avgHours resp
             | None => avgHours
             end)
          [] fileAuthors in
  {| preferredOffset := Some preferredOffset;
     avgHours := Some (foldl (λ m e, mset m e.1 (averageHour e.2)) [] avgHours) |}.

(** *** Flaky reviewer detection *)

Definition reviewedSet (reviews : list Review) : list string :=
  foldl (λ reviewed r,
           match truthy (r_login r) with
           | Some login => setAdd reviewed (Str.toLowerCase login)
           | None => reviewed
           end)
        [] reviews.

Definition reviewedStep (api : Api) (since : Z) (reviewedCounts : jsmap Z)
    (pr : Pull) : jsmap Z :=
  if pr_created_at pr <? since then reviewedCounts
  else match listReviews api (pr_number pr) with
       | None => reviewedCounts
       | Some reviews => foldl mincr reviewedCounts (reviewedSet reviews)
       end.

Definition requestedStep (requestedCounts : jsmap Z) (pr : Pull) : jsmap Z :=
  foldl (λ requestedCounts reviewer,
           match Str.toLowerCase (default EmptyString reviewer) with
           | EmptyString => requestedCounts
           | login => mincr requestedCounts login
           end)
        requestedCounts (pr_requested_reviewers pr).

Definition flakyOf (requestedCounts reviewedCounts : jsmap Z) : gset string :=
  foldl (λ (flaky : gset string) e,
           let reviewed := default 0 (mget reviewedCounts e.1) in
           if (3 <=? e.2) && (reviewed <? e.2) then {[ e.1 ]} ∪ flaky
           else flaky)
        ∅ requestedCounts.

Definition detectFlakyReviewers (api : Api) (now lookbackDays : Z) (maxPRs : Z)
    : option (gset string) :=
  let since := now - lookbackDays * msPerDay in
  match listPulls api StClosed maxPRs with
  | None => None
  | Some pulls =>
      let reviewedCounts := foldl (reviewedStep api since) [] pulls in
      match listPulls api StOpen 50 with
      | None => None
      | Some openPulls =>
          let requestedCounts := foldl requestedStep [] openPulls in
          Some (flakyOf requestedCounts reviewedCounts)
      end
  end.

(** *** Reviewer exclusion *)

Definition cleanUser (u : string) : string :=
  Str.toLowerCase (Str.stripQuotes (Str.trim u)).

Definition addUser (excluded : gset string) (u : string) : gset string :=
  match cleanUser u with
  | EmptyString => excluded
  | user => {[ user ]} ∪ excluded
  end.

(** The group of the expression [exclude:], spaces, a bracketed list with at
    least one character and no closing bracket inside, matched at the start
    of [s]. *)
Definition inlineExcludeAt (s : string) : option string :=
  match Str.stripPrefix "exclude:" s with
  | None => None
  | Some r =>
      match Str.trimStart r with
      | String "[" r' =>
          match Str.span (λ c, bool_decide (c = "]"%char)) r' with
          | (String c body, String _ _) => Some (String c body)
          | _ => None
          end
      | _ => None
      end
  end.

(** What follows the list marker of the line: spaces, a dash, spaces. *)
Definition dashItem (line : string) : option string :=
  match line with
  | String c r =>
      if Str.is_space c then
        match Str.trimStart r with
        | String "-" (String d r') =>
            if Str.is_space d then Some (Str.trimStart r') else None
        | _ => None
        end
      else None
  | EmptyString => None
  end.

Definition startsNonSpace (line : string) : bool :=
  match line with
  | String c _ => negb (Str.is_space c)
  | EmptyString => false
  end.

Definition blockStep (st : bool * gset string) (line : string)
    : bool * gset string :=
  let '(inExclude, excluded) := st in
  if Str.startsWith (Str.toLowerCase (Str.trim line)) "exclude:"
  then (true, excluded)
  else match inExclude, dashItem line with
       | true, Some user => (inExclude, addUser excluded user)
       | _, _ =>
           if inExclude && startsNonSpace line then (false, excluded)
           else (inExclude, excluded)
       end.

Definition configExcludes (excluded : gset string) (text : string)
    : gset string :=
  match Str.firstMatch inlineExcludeAt text with
  | Some inner => foldl addUser excluded (Str.split "," inner)
  | None => (foldl blockStep (false, excluded) (Str.lines text)).2
  end.

(** [tryFetchFileText]: the text of a file, [None] when the request fails
    or the file has no content. *)
Definition tryFetchFileText (api : Api) (path : string) : option string :=
  match getContent api path with
  | Some EmptyString => None
  | o => o
  end.

Definition fetchExcludedReviewers (api : Api) (inputExcludes : list string)
    : gset string :=
  let excluded : gset string := list_to_set (map Str.toLowerCase inputExcludes) in
  match tryFetchFileText api ".github/reviewer-config.yml" with
  | Some text => configExcludes excluded text
  | None => excluded
  end.

(** *** CODEOWNERS text *)

Definition CODEOWNERS_CANDIDATE_PATHS : list string :=
  [".github/CODEOWNERS"; "CODEOWNERS"; "docs/CODEOWNERS"].

(** [line.split(/\s+#/)[0]]: the text before the first run of spaces that a
    hash sign follows. *)
Fixpoint cutInlineComment (s : string) : string :=
  match s with
  | EmptyString => EmptyString
  | String c r =>
      if Str.is_space c
         && match Str.trimStart r with String "#" _ => true | _ => false end
      then EmptyString
      else String c (cutInlineComment r)
  end.

Definition parseCodeownersLine (raw : string) : option Rule :=
  let line := Str.trim raw in
  if bool_decide (line = EmptyString) || Str.startsWith line "#" then None
  else
    let noInline := Str.trim (cutInlineComment line) in
    if bool_decide (noInline = EmptyString) then None
    else match Str.words noInline with
         | pattern :: o :: os =>
             let rawOwners :=
               filter (λ o, o ≠ EmptyString)
                 (map (λ o, Str.trim
                              (Str.dropFirstIf (λ c, bool_decide (c = "@"%char)) o))
                      (o :: os)) in
             let owners := filter (λ o, isBotLogin o = false) rawOwners in
             let teams := filter (λ o, Str.includes o "/" = true) rawOwners in
             match owners with
             | [] => None
             | _ => Some {| pattern := pattern; owners := owners; teams := teams |}
             end
         | _ => None
         end.

Definition parseCodeowners (text : option string) : list Rule :=
  match text with
  | None => []
  | Some text => omap parseCodeownersLine (Str.lines text)
  end.

(** The first candidate path with a text. *)
Definition fetchCodeownersText (api : Api) : option string :=
  foldl (λ codeownersText p,
           match codeownersText with
           | Some t => Some t
           | None => tryFetchFileText api p
           end)
        None CODEOWNERS_CANDIDATE_PATHS.

(** *** Preferred timezone *)

(** [UTC], an optional sign and digits, matched at the start of [s]: the
    integer that [parseInt] reads from the group. *)
Definition offsetAt (s : string) : option Z :=
  if Str.startsWith (Str.toLowerCase s) "utc" then
    let r := Str.drop 3 s in
    let '(sign, r') :=
      match r with
      | String "+" t => (1, t)
      | String "-" t => (-1, t)
      | _ => (1, r)
      end in
    match Str.span (λ c, negb (Str.isDigit c)) r' with
    | (String d ds, _) => Some (sign * Str.digitsValue (String d ds))
    | _ => None
    end
  else None.

Definition parseTimezoneOffset (tz : string) : option Z :=
  Str.firstMatch offsetAt tz.

(** ** Ranking *)

(** The two maps of [rankCandidates]. *)
Record Tally := {
  scores : jsmap Z;
  reasonsOf : jsmap (list string)
}.

Definition emptyTally : Tally := {| scores := []; reasonsOf := [] |}.

Section Ranking.

Variable minimatch : string → string → bool.
Variable prAuthor : option string.

Definition add (t : Tally) (login : string) (pts : Z) (reason : string) : Tally :=
  if isBotLogin login then t
  else if bool_decide (Some login = prAuthor) then t
  else
    let rs := default [] (mget (reasonsOf t) login) in
    {| scores := mset (scores t) login (default 0 (mget (scores t) login) + pts);
       reasonsOf :=
         mset (reasonsOf t) login
              (match reason with
               | EmptyString => rs
               | _ => setAdd rs reason
               end) |}.

Definition creditAuthors (weights : Weights) (t : Tally) (fa : FileAuthors)
    : Tally :=
  foldl (λ t ia, add t ia.2
                     (Z.max 1 (3 - Z.of_nat ia.1) * commitHistory weights)
                     "recent commits")
        t (imap (λ i a, (i, a)) (take 10 (authors fa))).

Definition creditOwner (weights : Weights) (f : string)
    (acc : Tally * gset string) (o : string) : Tally * gset string :=
  match o with
  | EmptyString => acc
  | _ =>
      let key := o +:+ "::" +:+ f in
      if bool_decide (key ∈ acc.2) then acc
      else (add acc.1 o (codeowners weights) "CODEOWNERS", {[ key ]} ∪ acc.2)
  end.

Definition creditOwners (weights : Weights) (codeownersRules : list Rule)
    (changedFiles : list string) (t : Tally) : Tally :=
  if (0 <? codeowners weights) && negb (bool_decide (codeownersRules = []))
  then (foldl (λ acc f,
                 foldl (creditOwner weights f) acc
                       (ownersForFile minimatch codeownersRules f))
              (t, ∅) changedFiles).1
  else t.

Definition fastReason (medHrs : Q) : string :=
  "fast reviewer (~" +:+ showZ (Math_round medHrs) +:+ "h median)".

Definition creditLatency (weights : Weights) (latencyMap : jsmap Q) (t : Tally)
    : Tally :=
  if 0 <? latency weights
  then foldl (λ t e,
                let bonus := latencyBonusHours e.2 * latency weights in
                if 0 <? bonus then add t e.1 bonus (fastReason e.2) else t)
             t latencyMap
  else t.

Definition creditCrossRepo (crossRepoExpertise : jsmap Z) (t : Tally) : Tally :=
  foldl (λ t e, add t e.1 (Z.min e.2 5) "cross-repo expertise")
        t crossRepoExpertise.

Definition creditTimezone (timezoneData : option TimezoneData) (t : Tally)
    : Tally :=
  match timezoneData with
  | Some tz =>
      match preferredOffset tz with
      | Some off =>
          foldl (λ t e,
                   let bonus := timezoneBonus e.2 off in
                   if 0 <? bonus then add t e.1 bonus "timezone match" else t)
                t (default [] (avgHours tz))
      | None => t
      end
  | None => t
  end.

Definition requireOne (t : Tally) (login : string) : Tally :=
  if bool_decide (Some login = prAuthor) || isBotLogin login then t
  else
    let current := default 0 (mget (scores t) login) in
    if current =? 0 then add t login 10 "required reviewer"
    else add t login 5 "required reviewer".

Definition creditRequired (requiredReviewers : list string) (t : Tally) : Tally :=
  foldl requireOne t requiredReviewers.

(** The tally after the first five signals, in the order of the source. *)
Definition tallySignals (fileAuthors : list FileAuthors)
    (codeownersRules : list Rule) (changedFiles : list string)
    (latencyMap : jsmap Q) (weights : Weights) (crossRepoExpertise : jsmap Z)
    (timezoneData : option TimezoneData) : Tally :=
  creditTimezone timezoneData
    (creditCrossRepo crossRepoExpertise
       (creditLatency weights latencyMap
          (creditOwners weights codeownersRules changedFiles
             (foldl (creditAuthors weights) emptyTally fileAuthors)))).

(** The tally after the required reviewers, the sixth signal. *)
Definition tally (fileAuthors : list FileAuthors) (codeownersRules : list Rule)
    (changedFiles : list string) (latencyMap : jsmap Q) (weights : Weights)
    (crossRepoExpertise : jsmap Z) (timezoneData : option TimezoneData)
    (requiredReviewers : list string) : Tally :=
  creditRequired requiredReviewers
    (tallySignals fileAuthors codeownersRules changedFiles latencyMap weights
       crossRepoExpertise timezoneData).

(** [(a, b) => b[1] - a[1]] is not positive. *)
Definition byScoreDesc (a b : string * Z) : bool := b.2 <=? a.2.

Definition toCandidate (t : Tally) (e : string * Z) : Candidate :=
  {| login := e.1; score := e.2;
     reasons := default [] (mget (reasonsOf t) e.1);
     openReviews := None |}.

Definition rankCandidates (fileAuthors : list FileAuthors)
    (codeownersRules : list Rule) (changedFiles : list string)
    (latencyMap : jsmap Q) (weights : Weights) (crossRepoExpertise : jsmap Z)
    (timezoneData : option TimezoneData) (requiredReviewers : list string)
    : list Candidate :=
  let t := tally fileAuthors codeownersRules changedFiles latencyMap weights
                 crossRepoExpertise timezoneData requiredReviewers in
  map (toCandidate t) (stableSort byScoreDesc (scores t)).

End Ranking.

(** ** Confidence *)

Section Confidence.

Variable minimatch : string → string → bool.

Definition topScore (ranked : list Candidate) : Z :=
  default 0 (score <$> ranked !! 0%nat).

Definition secondScore (ranked : list Candidate) : Z :=
  default 0 (score <$> ranked !! 1%nat).

(** [byFileHasSignal]: one entry for every distinct changed file. *)
Definition byFileHasSignal (changedFiles : list string)
    (codeownersRules : list Rule) : jsmap bool :=
  let init := foldl (λ m f, mset m f false) [] changedFiles in
  match codeownersRules with
  | [] => init
  | _ =>
      foldl (λ m f,
               match ownersForFile minimatch codeownersRules f with
               | [] => m
               | _ => mset m f true
               end)
            init changedFiles
  end.

Definition covered (changedFiles : list string) (codeownersRules : list Rule)
    (fileAuthors : list FileAuthors) : Z :=
  let covered0 :=
    match fileAuthors with
    | [] => 0
    | _ =>
        let approx := Z.min (Z.of_nat (length changedFiles))
                            (Z.max 1 (Z.of_nat (length fileAuthors))) in
        Z.max 0 approx
    end in
  let codeownersCovered :=
    Z.of_nat (length (filter (λ e, e.2 = true)
                             (byFileHasSignal changedFiles codeownersRules))) in
  Z.max covered0 codeownersCovered.

Definition coverageRatio (changedFiles : list string)
    (codeownersRules : list Rule) (fileAuthors : list FileAuthors) : Q :=
  match changedFiles with
  | [] => 0%Q
  | _ => (inject_Z (covered changedFiles codeownersRules fileAuthors)
          / inject_Z (Z.of_nat (length changedFiles)))%Q
  end.

Definition separation (ranked : list Candidate) : Q :=
  let top := topScore ranked in
  if 0 <? top
  then (inject_Z (top - secondScore ranked) / inject_Z top)%Q
  else 0%Q.

Definition computeConfidence (ranked : list Candidate)
    (changedFiles : list string) (codeownersRules : list Rule)
    (fileAuthors : list FileAuthors) : Confidence :=
  let top := topScore ranked in
  let coverageRatio := coverageRatio changedFiles codeownersRules fileAuthors in
  let separation := separation ranked in
  if (12 <=? top) && Qle_bool (1 # 2) coverageRatio
     && Qle_bool (1 # 4) separation
  then High
  else if (6 <=? top) && Qle_bool (1 # 4) coverageRatio then Medium
  else Low.

End Confidence.

(** ** The reviewer analysis *)

Record Config := {
  maxReviewers : Z;
  lookbackDays : Z;
  maxFiles : Z;
  useCodeowners : bool;
  useLatency : bool;
  latencyPRs : Z;
  penalizeLoad : bool;
  excludeReviewersInput : list string;
  crossRepoList : list string;
  requiredReviewers : list string;
  preferTimezone : string;
  showBreakdown : bool;
  detectFlaky : bool
}.

Record TeamCoverage := { team : string; count : Z; total : Z }.

Record Analysis := {
  suggestions : list Candidate;
  confidence : Confidence;
  teamCoverage : list TeamCoverage
}.

(** [arr.slice(0, n)] for a count that is not negative. *)
Definition slice0 {A} (n : Z) (l : list A) : list A := take (Z.to_nat n) l.

Definition byCandidateScoreDesc (a b : Candidate) : bool := score b <=? score a.

Definition loadOne (loadCounts : jsmap Z) (r : Candidate) : Candidate :=
  let n := default 0 (mget loadCounts (login r)) in
  {| login := login r;
     score := Math_round (applyLoadPenalty (score r) n);
     reasons := reasons r;
     openReviews := Some n |}.

Definition flakyOne (flakyReviewers : gset string) (r : Candidate) : Candidate :=
  if bool_decide (Str.toLowerCase (login r) ∈ flakyReviewers)
  then {| login := login r;
          score := Math_round (inject_Z (score r) * (1 # 2))%Q;
          reasons := reasons r ++ ["flaky reviewer"];
          openReviews := openReviews r |}
  else r.

Definition excludeFilter (excluded : gset string) (ranked : list Candidate)
    : list Candidate :=
  filter (λ r, Str.toLowerCase (login r) ∉ excluded) ranked.

Definition loadPenalty (loadCounts : option (jsmap Z)) (ranked : list Candidate)
    : list Candidate :=
  match loadCounts with
  | Some loadCounts =>
      stableSort byCandidateScoreDesc (map (loadOne loadCounts) ranked)
  | None => ranked
  end.

Definition flakyPenalty (flakyReviewers : gset string) (ranked : list Candidate)
    : list Candidate :=
  if bool_decide (flakyReviewers = ∅) then ranked
  else stableSort byCandidateScoreDesc (map (flakyOne flakyReviewers) ranked).

Section Analyze.

Variable minimatch : string → string → bool.
Variable api : Api.
(** The repository of the pull request and the time of the run. *)
Variable repo : string.
Variable now : Z.

Variable prAuthor : option string.
(** [files.map((f) => f.filename)] *)
Variable changedFiles : list string.
Variable config : Config.

Definition weightsOf : Weights :=
  {| commitHistory := 1;
     codeowners := if useCodeowners config then 4 else 0;
     latency := if useLatency config then 1 else 0 |}.

Definition codeownersRulesOf : list Rule :=
  if useCodeowners config then parseCodeowners (fetchCodeownersText api)
  else [].

Definition filesToCheck : list string := slice0 (maxFiles config) changedFiles.

Definition fileAuthorsOf : list FileAuthors :=
  foldl (λ fileAuthors path,
           match topCommitAuthorsForPath api repo path 30 with
           | Some (a :: authors) =>
               fileAuthors ++ [{| path := path; authors := a :: authors |}]
           | _ => fileAuthors
           end)
        [] filesToCheck.

Definition latencyMapOf : jsmap Q :=
  if useLatency config
  then default [] (computeReviewerLatencyHours api now (lookbackDays config)
                     (clamp (latencyPRs config) 5 50))
  else [].

Definition excludedOf : gset string :=
  fetchExcludedReviewers api (excludeReviewersInput config).

Definition crossRepoExpertiseOf : jsmap Z :=
  match crossRepoList config with
  | [] => []
  | repos => fetchCrossRepoExpertise api repos changedFiles
  end.

Definition timezoneDataOf : option TimezoneData :=
  match parseTimezoneOffset (preferTimezone config) with
  | Some off => Some (collectTimezone api repo fileAuthorsOf off)
  | None => None
  end.

Definition flakyReviewersOf : gset string :=
  if detectFlaky config
  then default ∅ (detectFlakyReviewers api now (lookbackDays config) 30)
  else ∅.

(** The ranking of [rankCandidates], before exclusion and penalties. *)
Definition baseRanking : list Candidate :=
  rankCandidates minimatch prAuthor fileAuthorsOf codeownersRulesOf
    filesToCheck latencyMapOf weightsOf crossRepoExpertiseOf timezoneDataOf
    (requiredReviewers config).

Definition afterExclusion : list Candidate :=
  excludeFilter excludedOf baseRanking.

Definition afterLoad : list Candidate :=
  if penalizeLoad config
  then loadPenalty (computeOpenReviewCounts api) afterExclusion
  else afterExclusion.

(** The final ranking, before it is cut to [maxReviewers]. *)
Definition finalRanking : list Candidate :=
  flakyPenalty flakyReviewersOf afterLoad.

Definition teamCoverageOf (sugg : list Candidate) : list TeamCoverage :=
  match codeownersRulesOf with
  | [] => []
  | rules =>
      let allTeams := foldl (λ s r, foldl setAdd s (teams r)) [] rules in
      let suggestionLogins := map (λ s, Str.toLowerCase (login s)) sugg in
      omap (λ tm,
              let teamMembers :=
                foldl (λ s r,
                         if bool_decide (tm ∈ teams r)
                         then foldl (λ s o, setAdd s (Str.toLowerCase o)) s (owners r)
                         else s)
                      [] rules in
              match teamMembers with
              | [] => None
              | _ =>
                  Some {| team := tm;
                          count := Z.of_nat (length (filter (λ m, m ∈ suggestionLogins)
                                                            teamMembers));
                          total := Z.of_nat (length sugg) |}
              end)
           allTeams
  end.

Definition analyzeReviewers : Analysis :=
  let sugg := slice0 (maxReviewers config) finalRanking in
  {| suggestions := sugg;
     confidence := computeConfidence minimatch finalRanking filesToCheck
                     codeownersRulesOf fileAuthorsOf;
     teamCoverage := teamCoverageOf sugg |}.

End Analyze.

(** * Specification-level definitions and example data *)

(** ** Ownership resolution *)

(** A matcher for the examples: a pattern without wildcard characters
    matches the path it spells, at the root or, behind the prefix for any
    depth, anywhere. *)
Definition literalMatch (filePath pat : string) : bool :=
  bool_decide (pat = filePath) || bool_decide (pat = "**/" +:+ filePath).

(** The wording of the specification: the owners of the last rule, in file
    order, whose normalized pattern matches the path. *)
Definition lastMatchOwners (minimatch : string → string → bool)
    (codeownersRules : list Rule) (filePath : string) : list string :=
  match last (filter (λ r, ruleMatches minimatch filePath r = true)
                     codeownersRules) with
  | Some r => owners r
  | None => []
  end.

Definition ownerStep (minimatch : string → string → bool) (f : string)
    (matchedOwners : list string) (r : Rule) : list string :=
  if ruleMatches minimatch f r then owners r else matchedOwners.

Definition ruleA : Rule :=
  {| pattern := "src/api/users.ts"; owners := ["alice"]; teams := [] |}.
Definition ruleB : Rule :=
  {| pattern := "/src/api/users.ts"; owners := ["carol"; "dave"]; teams := [] |}.
Definition ruleC : Rule :=
  {| pattern := "docs/guide.md"; owners := ["erin"]; teams := [] |}.


(** ** The calls of [add] *)

(** The login, points and reason of every call of [add] that
    [rankCandidates] makes, by signal. *)
Inductive Signal (weights : Weights) (crossRepoExpertise : jsmap Z)
    : string → Z → string → Prop :=
  | SigCommit login w :
      1 ≤ w ≤ 3 →
      Signal weights crossRepoExpertise login (w * commitHistory weights)
             "recent commits"
  | SigOwner login :
      0 < codeowners weights →
      Signal weights crossRepoExpertise login (codeowners weights) "CODEOWNERS"
  | SigLatency login medHrs :
      0 < latencyBonusHours medHrs * latency weights →
      Signal weights crossRepoExpertise login
             (latencyBonusHours medHrs * latency weights) (fastReason medHrs)
  | SigCross login count :
      (login, count) ∈ crossRepoExpertise →
      Signal weights crossRepoExpertise login (Z.min count 5)
             "cross-repo expertise"
  | SigTimezone login bonus :
      0 < bonus →
      Signal weights crossRepoExpertise login bonus "timezone match"
  | SigRequired login pts :
      pts = 10 ∨ pts = 5 →
      Signal weights crossRepoExpertise login pts "required reviewer".

(** ** Logins that can be scored *)

(** A login may be scored: it is not bot-like and not the author. *)
Definition scorable (prAuthor : option string) (l : string) : Prop :=
  isBotLogin l = false ∧ Some l ≠ prAuthor.

(** ** Example data *)

(** An API on which every request fails. *)
Definition quietApi : Api :=
  {| listCommits := λ _ _ _, None;
     listReviews := λ _, None;
     listPulls := λ _ _, None;
     getContent := λ _, None |}.

(** The defaults of the action's inputs. *)
Definition defaultConfig : Config :=
  {| maxReviewers := 3; lookbackDays := 90; maxFiles := 50;
     useCodeowners := true; useLatency := true; latencyPRs := 20;
     penalizeLoad := true; excludeReviewersInput := [];
     crossRepoList := []; requiredReviewers := [];
     preferTimezone := EmptyString; showBreakdown := false;
     detectFlaky := false |}.

Definition defaultWeights : Weights :=
  {| commitHistory := 1; codeowners := 4; latency := 1 |}.

(** The number of occurrences of a key in a list. *)
Definition countOf (k : string) (ks : list string) : Z :=
  Z.of_nat (length (filter (λ x, x = k) ks)).

(** ** Flaky detection, in the words of the specification *)

(** The lower-case logins of the review requests of the open pull
    requests, one entry for every request. *)
Definition requestedLogins (openPulls : list Pull) : list string :=
  filter (λ l, l ≠ EmptyString)
    (map (λ o, Str.toLowerCase (default EmptyString o))
         (concat (map pr_requested_reviewers openPulls))).


(** The login submitted some review on the pull request, which is sampled:
    created in the lookback window, and its reviews could be listed. *)
Definition reviewedOn (api : Api) (since : Z) (l : string) (pr : Pull) : Prop :=
  since ≤ pr_created_at pr
  ∧ ∃ reviews, listReviews api (pr_number pr) = Some reviews
      ∧ ∃ r login, r ∈ reviews ∧ truthy (r_login r) = Some login
          ∧ Str.toLowerCase login = l.

(** The same, decided from the set the code builds. *)
Definition reviewedOnb (api : Api) (since : Z) (l : string) (pr : Pull) : bool :=
  negb (pr_created_at pr <? since)
  && match listReviews api (pr_number pr) with
     | Some reviews => bool_decide (l ∈ reviewedSet reviews)
     | None => false
     end.


(** ** The reasons of the signals *)

Definition signalReason (x : string) : Prop :=
  x ∈ ["recent commits"; "CODEOWNERS"; "cross-repo expertise";
       "timezone match"; "required reviewer"]
  ∨ ∃ medHrs, x = fastReason medHrs.

(** *** Example: a flaky reviewer *)

(** A repository where alice wrote the last commit of [a.js], is requested
    on four open pull requests and reviewed none of the five closed ones. *)
Definition openPull (n : Z) (reviewers : list string) : Pull :=
  {| pr_number := n; pr_created_at := 0; pr_merged_at := None;
     pr_closed_at := None; pr_requested_reviewers := map Some reviewers |}.

Definition closedPull (n : Z) : Pull :=
  {| pr_number := n; pr_created_at := 0; pr_merged_at := Some 1;
     pr_closed_at := Some 1; pr_requested_reviewers := [] |}.

Definition flakyOpenPulls : list Pull :=
  [openPull 11 ["alice"]; openPull 12 ["Alice"]; openPull 13 ["alice"; "bob"];
   openPull 14 ["alice"]].

Definition flakyClosedPulls : list Pull :=
  [closedPull 1; closedPull 2; closedPull 3; closedPull 4; closedPull 5].

Definition flakyApi : Api :=
  {| listCommits := λ _ p _,
       if bool_decide (p = "a.js")
       then Some [{| c_login := Some "alice"; c_hour := Some 9 |}]
       else Some [];
     listReviews := λ _, Some [];
     listPulls := λ st _,
       match st with StOpen => Some flakyOpenPulls | StClosed => Some flakyClosedPulls end;
     getContent := λ _, None |}.

Definition flakyConfig : Config :=
  {| maxReviewers := 3; lookbackDays := 90; maxFiles := 50;
     useCodeowners := true; useLatency := true; latencyPRs := 20;
     penalizeLoad := true; excludeReviewersInput := [];
     crossRepoList := []; requiredReviewers := ["alice"];
     preferTimezone := EmptyString; showBreakdown := false;
     detectFlaky := true |}.

(** ** Reading a tally *)

(** [scores.get(login) || 0] *)
Definition scoreOf (t : Tally) (l : string) : Z := default 0 (mget (scores t) l).

Definition reasonsFor (t : Tally) (l : string) : list string :=
  default [] (mget (reasonsOf t) l).

(** What the required-reviewer step makes of a score that is not negative
    for a login that the list names [k] times. *)
Definition requiredTotal (before k : Z) : Z :=
  if k =? 0 then before
  else if before =? 0 then 10 + 5 * (k - 1)
  else before + 5 * k.

(** *** Example: required reviewers *)

(** bob and carol are required, and carol is excluded. *)
Definition requiredConfig : Config :=
  {| maxReviewers := 3; lookbackDays := 90; maxFiles := 50;
     useCodeowners := true; useLatency := true; latencyPRs := 20;
     penalizeLoad := true; excludeReviewersInput := ["carol"];
     crossRepoList := [];
     requiredReviewers := parseCommaSeparated "Bob, carol";
     preferTimezone := EmptyString; showBreakdown := false;
     detectFlaky := false |}.


(** ** What follows the ranking *)

(** The ranking after exclusion and the two penalties, as a function of the
    ranking of [rankCandidates]. *)
Definition afterRanking (excluded : gset string) (penalizeLoad : bool)
    (loadCounts : option (jsmap Z)) (flaky : gset string)
    (ranked : list Candidate) : list Candidate :=
  flakyPenalty flaky
    (if penalizeLoad then loadPenalty loadCounts (excludeFilter excluded ranked)
     else excludeFilter excluded ranked).

(** *** Example: an excluded author of commits *)

(** Two repositories that differ in the commits of alice only: she wrote
    the last commit of [a.js] in the first and nothing in the second. *)
Definition aliceApi : Api :=
  {| listCommits := λ _ p _,
       if bool_decide (p = "a.js")
       then Some [{| c_login := Some "alice"; c_hour := Some 9 |}]
       else Some [];
     listReviews := λ _, None;
     listPulls := λ _ _, None;
     getContent := λ _, None |}.

Definition nobodyApi : Api :=
  {| listCommits := λ _ _ _, Some [];
     listReviews := λ _, None;
     listPulls := λ _ _, None;
     getContent := λ _, None |}.

(** alice is excluded and bob is required. *)
Definition excludeAliceConfig : Config :=
  {| maxReviewers := 3; lookbackDays := 90; maxFiles := 50;
     useCodeowners := true; useLatency := true; latencyPRs := 20;
     penalizeLoad := true; excludeReviewersInput := ["Alice"];
     crossRepoList := []; requiredReviewers := ["bob"];
     preferTimezone := EmptyString; showBreakdown := false;
     detectFlaky := false |}.

(** *** Example: the exclusion file *)

(** A configuration file with an inline list, and one with a block list. *)
Definition inlineConfigText : string :=
  "reviewers:" +:+ String Str.LF
    ("exclude: [Dave, 'Erin']" +:+ String Str.LF EmptyString).

Definition blockConfigText : string :=
  "exclude:" +:+ String Str.LF
    ("  - Dave" +:+ String Str.LF
       ("  - 'Erin'" +:+ String Str.LF
          ("other:" +:+ String Str.LF
             ("  - frank" +:+ String Str.LF EmptyString)))).

Definition configApi (text : string) : Api :=
  {| listCommits := λ _ _ _, None;
     listReviews := λ _, None;
     listPulls := λ _ _, None;
     getContent := λ p,
       if bool_decide (p = ".github/reviewer-config.yml") then Some text
       else None |}.

(** A set of logins in lower case. *)
Definition lowerSet (s : gset string) : Prop :=
  ∀ l, l ∈ s → Str.toLowerCase l = l.

(** alice, who is excluded, ahead of bob. *)
Definition aliceFirst : Candidate :=
  {| login := "Alice"; score := 99; reasons := ["recent commits"];
     openReviews := None |}.

Definition bobSecond : Candidate :=
  {| login := "bob"; score := 10; reasons := ["required reviewer"];
     openReviews := None |}.

(** ** Commit attribution, position by position *)

(** [Math.max(1, 3 - i)] *)
Definition positionWeight (i : nat) : Z := Z.max 1 (3 - Z.of_nat i).

(** The weights of the positions, counted from [i], that hold the login. *)
Fixpoint creditAt (i : nat) (l : string) (authors : list string) : Z :=
  match authors with
  | [] => 0
  | a :: r => (if decide (a = l) then positionWeight i else 0) + creditAt (S i) l r
  end.

(** The weights of the positions of a login among the first ten authors of
    a path. *)
Definition commitCredit (l : string) (authors : list string) : Z :=
  creditAt 0 l (take 10 authors).

(** The wording of the specification: the distinct authors, in first-seen
    order. *)
Definition distinctAuthors (authors : list string) : list string :=
  foldl setAdd [] authors.

(** *** Example: several commits of one author *)

(** A repository where alice wrote the two last commits of [a.js] and bob
    the one before. *)
Definition twoCommitsApi : Api :=
  {| listCommits := λ _ p _,
       if bool_decide (p = "a.js")
       then Some [{| c_login := Some "alice"; c_hour := Some 9 |};
                  {| c_login := Some "alice"; c_hour := Some 10 |};
                  {| c_login := Some "dependabot[bot]"; c_hour := Some 10 |};
                  {| c_login := Some "bob"; c_hour := Some 11 |}]
       else Some [];
     listReviews := λ _, None;
     listPulls := λ _ _, None;
     getContent := λ _, None |}.

(** The loop of [creditAuthors], entered at position [k]. *)
Definition creditFrom (prAuthor : option string) (weights : Weights) (k : nat)
    (t : Tally) (authors : list string) : Tally :=
  foldl (λ t ia, add prAuthor t ia.2
                     (Z.max 1 (3 - Z.of_nat ia.1) * commitHistory weights)
                     "recent commits")
        t (imap (λ i a, (k + i, a)%nat) authors).

(** ** Review latency, in the words of the specification *)

(** The submission times of the reviews of a login on one pull request. *)
Definition timesOf (l : string) (reviews : list Review) : list Z :=
  omap (λ r, if bool_decide (humanLogin (r_login r) = Some l)
             then r_submitted_at r else None)
       reviews.

Definition minOpt (acc : option Z) (t : Z) : option Z :=
  Some (match acc with
        | None => t
        | Some e => Z.min e t
        end).

(** The earliest of them. *)
Definition earliestOf (l : string) (reviews : list Review) : option Z :=
  foldl minOpt None (timesOf l reviews).

(** The latency that one pull request contributes for a login: the hours
    from its creation to the first review of the login, when the pull
    request is sampled and the review does not precede it. *)
Definition sampleOf (api : Api) (since : Z) (l : string) (pr : Pull)
    : option Q :=
  if bool_decide (pr_merged_at pr = None ∧ pr_closed_at pr = None) then None
  else if pr_created_at pr <? since then None
  else match listReviews api (pr_number pr) with
       | None => None
       | Some reviews =>
           match earliestOf l reviews with
           | Some t =>
               if Qle_bool 0%Q (hoursBetween (pr_created_at pr) t)
               then Some (hoursBetween (pr_created_at pr) t)
               else None
           | None => None
           end
       end.

(** The accumulated hours of a login over the sampled pull requests. *)
Definition sampledHours (api : Api) (since : Z) (pulls : list Pull)
    (l : string) : list Q :=
  omap (sampleOf api since l) pulls.

(** A list in the order of a comparator. *)
Definition sortedBy {A} (le : A → A → bool) (l : list A) : Prop :=
  ∀ i j x y, (i ≤ j)%nat → l !! i = Some x → l !! j = Some y → le x y = true.

(** Ascending order of rationals. *)
Definition ascending (s : list Q) : Prop :=
  ∀ i j x y, (i ≤ j)%nat → s !! i = Some x → s !! j = Some y → (x <= y)%Q.

(** The hours that one first review contributes. *)
Definition hoursIf (createdAt t : Z) : list Q :=
  if Qle_bool 0%Q (hoursBetween createdAt t) then [hoursBetween createdAt t]
  else [].

(** No login is recorded with an empty list of hours. *)
Definition nonemptyValues (m : jsmap (list Q)) : Prop :=
  ∀ k arr, mget m k = Some arr → arr ≠ [].


(** *** Example: review latency *)

(** Two closed pull requests: carol reviewed the first after 2 hours and,
    later, again; she reviewed the second after 6 hours, and dave reviewed
    it before it was created. *)
Definition latencyPulls : list Pull :=
  [ {| pr_number := 1; pr_created_at := 0; pr_merged_at := Some 9;
       pr_closed_at := Some 9; pr_requested_reviewers := [] |};
    {| pr_number := 2; pr_created_at := 3600000; pr_merged_at := None;
       pr_closed_at := Some 9; pr_requested_reviewers := [] |} ].

Definition latencyApi : Api :=
  {| listCommits := λ _ _ _, None;
     listReviews := λ n,
       if n =? 1
       then Some [{| r_login := Some "carol"; r_submitted_at := Some 10800000 |};
                  {| r_login := Some "carol"; r_submitted_at := Some 7200000 |}]
       else Some [{| r_login := Some "carol"; r_submitted_at := Some 25200000 |};
                  {| r_login := Some "dave"; r_submitted_at := Some 0 |}];
     listPulls := λ st _,
       match st with StClosed => Some latencyPulls | StOpen => None end;
     getContent := λ _, None |}.

(** ** The load penalty in binary64 *)

(** The double of an integer; exact below [2 ^ 53]. *)
Definition ofZ (z : Z) : float :=
  match z with
  | Z0 => 0%float
  | Zpos _ => PrimFloat.of_uint63 (Uint63.of_Z z)
  | Zneg _ => PrimFloat.opp (PrimFloat.of_uint63 (Uint63.of_Z (- z)))
  end.

(** [applyLoadPenalty] with the operations of IEEE 754 binary64, which are
    those of a JavaScript number. *)
Definition applyLoadPenalty64 (score openReviews : Z) : float :=
  (ofZ score * (1 / (1 + ofZ openReviews / 3)))%float.

(** [Math.round] of a finite double, computed exactly from its mantissa
    and exponent. *)
Definition Math_round64 (x : float) : option Z :=
  match Prim2SF x with
  | S754_zero _ => Some 0
  | S754_finite s m e =>
      let n := if s then Z.neg m else Z.pos m in
      if 0 <=? e then Some (n * 2 ^ e)
      else Some ((2 * n + 2 ^ (- e)) / 2 ^ (1 - e))
  | _ => None
  end.

(** ** The latency signal *)

(** The points that [rankCandidates] adds for a median. *)
Definition latencyCredit (weights : Weights) (medHrs : Q) : Z :=
  if 0 <? latency weights
  then let bonus := latencyBonusHours medHrs * latency weights in
       if 0 <? bonus then bonus else 0
  else 0.

(** *** Example: an ownership file *)

Definition codeownersText : string :=
  "# owners" +:+ String Str.LF
    ("*.js  @alice @org/team   # scripts" +:+ String Str.CR (String Str.LF
       ("/docs/ @dependabot[bot]" +:+ String Str.LF
          (String Str.LF
             ("src/api/* bob" +:+ String Str.LF EmptyString))))).

(** *** Example: all the signals *)

(** Two changed files owned by alice; alice, bob and the author on the
    commits of the first; carol a fast reviewer; erin on another
    repository; bob required; frank excluded by the configuration file. *)
Definition fullApi : Api :=
  {| listCommits := λ r p n,
       if bool_decide (r = "repo") then
         if bool_decide (p = "src/api/users.ts") then
           Some [{| c_login := Some "alice"; c_hour := Some 9 |};
                 {| c_login := Some "author"; c_hour := Some 10 |};
                 {| c_login := Some "bob"; c_hour := Some 22 |};
                 {| c_login := Some "frank"; c_hour := Some 11 |};
                 {| c_login := None; c_hour := Some 11 |}]
         else Some []
       else if bool_decide (p = "src/api/users.ts") then
         Some [{| c_login := Some "erin"; c_hour := None |};
               {| c_login := Some "erin"; c_hour := None |}]
       else None;
     listReviews := λ _,
       Some [{| r_login := Some "carol"; r_submitted_at := Some 7200000 |}];
     listPulls := λ st _,
       match st with
       | StClosed => Some [closedPull 1]
       | StOpen => Some [openPull 11 ["alice"; "bob"]; openPull 12 ["alice"]]
       end;
     getContent := λ p,
       if bool_decide (p = "CODEOWNERS")
       then Some ("src/api/users.ts @alice" +:+ String Str.LF
                    ("src/api/billing.ts @alice @dave" +:+ String Str.LF EmptyString))
       else if bool_decide (p = ".github/reviewer-config.yml")
       then Some "exclude: [Frank]"
       else None |}.

Definition fullConfig : Config :=
  {| maxReviewers := 3; lookbackDays := 90; maxFiles := 50;
     useCodeowners := true; useLatency := true; latencyPRs := 20;
     penalizeLoad := true; excludeReviewersInput := [];
     crossRepoList := ["other"]; requiredReviewers := ["bob"];
     preferTimezone := "UTC+5"; showBreakdown := false;
     detectFlaky := true |}.

(** * Further specification-level definitions *)

(** ** Lists of logins in one string *)

(** [parts.join(sep)] for a one-character separator. *)
Fixpoint joinWith (sep : ascii) (parts : list string) : string :=
  match parts with
  | [] => EmptyString
  | [x] => x
  | x :: r => x +:+ String sep (joinWith sep r)
  end.

(** Every character of the string satisfies the test. *)
Fixpoint allChars (p : ascii → bool) (s : string) : bool :=
  match s with
  | EmptyString => true
  | String c r => p c && allChars p r
  end.

Definition notComma (c : ascii) : bool := negb (bool_decide (c = ","%char)).

(** An entry as [parseCommaSeparated] yields them: not empty, in lower
    case, without white space around it and without a comma. *)
Definition cleanEntry (x : string) : Prop :=
  x ≠ EmptyString ∧ Str.toLowerCase x = x ∧ Str.trim x = x
  ∧ allChars notComma x = true.

(** ** Counting around a median *)

(** The number of elements at most [m], and at least [m]. *)
Definition countLe (m : Q) (arr : list Q) : nat :=
  length (filter (λ x, Qle_bool x m = true) arr).

Definition countGe (m : Q) (arr : list Q) : nat :=
  length (filter (λ x, Qle_bool m x = true) arr).

(** ** Hours around the clock *)

(** The distance of two hours on a clock of 24. *)
Definition circularDistance (a b : Z) : Z :=
  Z.min ((a - b) mod 24) ((b - a) mod 24).

(** The lists of hours of [collectTimezone] are in order: no login twice,
    no empty login, no empty list, every hour an hour of the day. *)
Definition hoursInOrder (m : jsmap (list Z)) : Prop :=
  NoDup (mkeys m)
  ∧ ∀ k hs, mget m k = Some hs →
            k ≠ EmptyString ∧ hs ≠ [] ∧ Forall (λ h, 0 ≤ h ≤ 23) hs.

(** ** Review load, in the words of a count *)

(** The logins of the review requests of the open pull requests, as they
    are written, one entry for every request. *)
Definition openRequests (openPulls : list Pull) : list string :=
  omap truthy (concat (map pr_requested_reviewers openPulls)).

(** The score after the load penalty, when there is one. *)
Definition loadedScore (loadCounts : option (jsmap Z)) (l : string) (s : Z) : Z :=
  match loadCounts with
  | Some counts => Math_round (applyLoadPenalty s (default 0 (mget counts l)))
  | None => s
  end.

(** The score after the flaky penalty, when there is one. *)
Definition halvedScore (flaky : gset string) (l : string) (s : Z) : Z :=
  if bool_decide (Str.toLowerCase l ∈ flaky) then (s + 1) / 2 else s.

(** ** Cross-repository expertise, in the words of a count *)

(** The logins of the commits that count on the other repositories: for
    every repository and each of the first five changed files, the
    commits that could be listed, bots and commits without a login left
    out; one entry for every commit. *)
Definition crossLogins (api : Api) (repos filePaths : list string) : list string :=
  concat (map (λ repoName,
                 concat (map (λ filePath,
                                match listCommits api repoName filePath 10 with
                                | Some resp => omap (λ c, humanLogin (c_login c)) resp
                                | None => []
                                end)
                             (take 5 filePaths)))
              repos).

(** *** Example: an ownership file with a team *)

(** Only the ownership file can be read; it names alice and a team as the
    owners of the scripts. *)
Definition teamApi : Api :=
  {| listCommits := λ _ _ _, None;
     listReviews := λ _, None;
     listPulls := λ _ _, None;
     getContent := λ p,
       if bool_decide (p = "CODEOWNERS") then Some "*.js @alice @org/team"
       else None |}.

(** ** Commit history, path by path *)

(** The entry of a path in [fileAuthors], when it has one. *)
Definition fileEntry (api : Api) (repo path : string) : option FileAuthors :=
  match topCommitAuthorsForPath api repo path 30 with
  | Some (a :: authors) => Some {| path := path; authors := a :: authors |}
  | _ => None
  end.

(** ** Ownership credit, in the words of a count *)

(** A name without a colon, as logins and team names are. *)
Definition noColon (o : string) : Prop :=
  allChars (λ c, negb (bool_decide (c = ":"%char))) o = true.

(** The distinct changed files that a login owns. *)
Definition ownedFiles (minimatch : string → string → bool)
    (codeownersRules : list Rule) (changedFiles : list string) (l : string)
    : gset string :=
  filter (λ f, l ∈ ownersForFile minimatch codeownersRules f)
         (list_to_set changedFiles).

(** ** The score, signal by signal *)

(** The credit of a login for the commits of all the paths. *)
Definition commitTotal (weights : Weights) (fileAuthors : list FileAuthors)
    (l : string) : Z :=
  foldr (λ fa acc, commitCredit l (authors fa) * commitHistory weights + acc)
        0 fileAuthors.

(** The credit of a login for the files it owns. *)
Definition ownerTotal (minimatch : string → string → bool) (weights : Weights)
    (codeownersRules : list Rule) (changedFiles : list string) (l : string) : Z :=
  Z.max 0 (codeowners weights)
  * Z.of_nat (size (ownedFiles minimatch codeownersRules changedFiles l)).

(** The credit of a login for its review latency. *)
Definition latencyTotal (weights : Weights) (latencyMap : jsmap Q) (l : string)
    : Z :=
  match mget latencyMap l with
  | Some medHrs => latencyCredit weights medHrs
  | None => 0
  end.

(** The credit of a login for its commits on other repositories. *)
Definition crossTotal (crossRepoExpertise : jsmap Z) (l : string) : Z :=
  match mget crossRepoExpertise l with
  | Some count => Z.min count 5
  | None => 0
  end.

(** The credit of a login for its hours of work. *)
Definition timezoneTotal (timezoneData : option TimezoneData) (l : string) : Z :=
  match timezoneData with
  | Some tz =>
      match preferredOffset tz, mget (default [] (avgHours tz)) l with
      | Some off, Some avgHour => timezoneBonus avgHour off
      | _, _ => 0
      end
  | None => 0
  end.

(** The five signals together. *)
Definition signalsTotal (minimatch : string → string → bool)
    (fileAuthors : list FileAuthors) (codeownersRules : list Rule)
    (changedFiles : list string) (latencyMap : jsmap Q) (weights : Weights)
    (crossRepoExpertise : jsmap Z) (timezoneData : option TimezoneData)
    (l : string) : Z :=
  commitTotal weights fileAuthors l
  + ownerTotal minimatch weights codeownersRules changedFiles l
  + latencyTotal weights latencyMap l
  + crossTotal crossRepoExpertise l
  + timezoneTotal timezoneData l.

(** ** Hours of work, in the words of a list *)

(** The hours of the dated commits of a login in one answer. *)
Definition hoursIn (l : string) (resp : list Commit) : list Z :=
  omap (λ c, match truthy (c_login c), c_hour c with
             | Some login, Some h => if decide (login = l) then Some h else None
             | _, _ => None
             end)
       resp.

(** The hours of the dated commits of a login on the paths of the commit
    history, ten commits a path at most, in the order of the requests. *)
Definition hoursOf (api : Api) (repo : string) (fileAuthors : list FileAuthors)
    (l : string) : list Z :=
  concat (map (λ fa, match listCommits api repo (path fa) 10 with
                     | Some resp => hoursIn l resp
                     | None => []
                     end)
              fileAuthors).
(** * Properties *)

(** ** Strings *)

Lemma lower_ascii_idemp c : Str.lower_ascii (Str.lower_ascii c) = Str.lower_ascii c.
Proof. destruct c as [[] [] [] [] [] [] [] []]; reflexivity. Qed.

Lemma toLowerCase_idemp s : Str.toLowerCase (Str.toLowerCase s) = Str.toLowerCase s.
Proof.
  induction s as [|c r IH]; simpl; [reflexivity|].
  rewrite lower_ascii_idemp. f_equal. exact IH.
Qed.

(** ** Insertion-ordered maps *)

Section jsmap_facts.
Context {V : Type}.
Implicit Types (m : jsmap V) (k : string) (v : V).

Lemma mget_mset_eq m k v : mget (mset m k v) k = Some v.
Proof.
  induction m as [|[k' v'] m IH]; simpl.
  - by rewrite decide_True.
  - destruct (decide (k' = k)) as [->|Hne]; simpl.
    + by rewrite decide_True.
    + by rewrite decide_False.
Qed.

Lemma mget_mset_ne m k k' v : k ≠ k' → mget (mset m k v) k' = mget m k'.
Proof.
  intros Hne. induction m as [|[k0 v0] m IH]; simpl.
  - by rewrite decide_False.
  - destruct (decide (k0 = k)) as [->|Hk]; simpl.
    + by rewrite !decide_False.
    + destruct (decide (k0 = k')); [done|apply IH].
Qed.

Lemma mget_mset m k k' v :
  mget (mset m k v) k' = if decide (k = k') then Some v else mget m k'.
Proof.
  destruct (decide (k = k')) as [->|Hne];
    [apply mget_mset_eq|by apply mget_mset_ne].
Qed.

Lemma mkeys_mset m k v :
  mkeys (mset m k v) = if decide (k ∈ mkeys m) then mkeys m else mkeys m ++ [k].
Proof.
  unfold mkeys. induction m as [|[k' v'] m IH]; [done|].
  cbn [mset fmap list_fmap]. destruct (decide (k' = k)) as [->|Hk].
  - cbn [fmap list_fmap fst].
    destruct (decide (k ∈ k :: m.*1)) as [_|Hin]; [done|].
    exfalso. apply Hin. by left.
  - cbn [fmap list_fmap fst]. rewrite IH.
    destruct (decide (k ∈ m.*1)) as [Hin|Hin];
      destruct (decide (k ∈ k' :: m.*1)) as [Hin'|Hin']; try done.
    + exfalso. apply Hin'. by right.
    + apply elem_of_cons in Hin' as [->|?]; done.
Qed.

Lemma elem_of_mkeys m k : k ∈ mkeys m ↔ is_Some (mget m k).
Proof.
  unfold mkeys. induction m as [|[k' v'] m IH]; simpl.
  - split; [by intros ?%elem_of_nil|by intros [? ?]].
  - rewrite elem_of_cons. destruct (decide (k' = k)) as [->|Hk].
    + split; [by eexists|by left].
    + rewrite <- IH. split; [intros [->|?]; [done|done]|by right].
Qed.

Lemma elem_of_mkeys_mset m k k' v :
  k' ∈ mkeys (mset m k v) ↔ k' = k ∨ k' ∈ mkeys m.
Proof.
  rewrite !elem_of_mkeys, mget_mset.
  destruct (decide (k = k')) as [->|Hne].
  - split; [by left|by eexists].
  - split; [by right|by intros [->|?]].
Qed.

Lemma NoDup_mkeys_mset m k v : NoDup (mkeys m) → NoDup (mkeys (mset m k v)).
Proof.
  intros Hnd. rewrite mkeys_mset. destruct (decide (k ∈ mkeys m)); [done|].
  apply NoDup_app. split; [done|]. split; [|apply NoDup_singleton].
  intros x Hx ->%list_elem_of_singleton. contradiction.
Qed.

Lemma elem_of_mget m k v : (k, v) ∈ m → NoDup (mkeys m) → mget m k = Some v.
Proof.
  unfold mkeys. induction m as [|[k' v'] m IH]; simpl.
  - by intros ?%elem_of_nil.
  - intros [Heq|Hin]%elem_of_cons Hnd; apply NoDup_cons in Hnd as [Hk' Hnd].
    + inversion Heq; subst. by rewrite decide_True.
    + destruct (decide (k' = k)) as [->|Hk]; [|by apply IH].
      exfalso. apply Hk'. apply list_elem_of_fmap. by exists (k, v).
Qed.

Lemma mget_elem_of m k v : mget m k = Some v → (k, v) ∈ m.
Proof.
  induction m as [|[k' v'] m IH]; simpl; [done|].
  destruct (decide (k' = k)) as [->|Hk].
  - intros [= ->]. by left.
  - intros H. right. by apply IH.
Qed.

End jsmap_facts.

(** ** The stable sort *)

Section sort_facts.
Context {A : Type} (le : A → A → bool).

Lemma insertBy_Permutation x l : insertBy le x l ≡ₚ x :: l.
Proof.
  induction l as [|y l IH]; simpl; [done|].
  destruct (le x y); [done|]. rewrite IH. apply Permutation_swap.
Qed.

Lemma stableSort_Permutation l : stableSort le l ≡ₚ l.
Proof.
  unfold stableSort. induction l as [|x l IH]; simpl; [done|].
  rewrite insertBy_Permutation. by rewrite IH.
Qed.

Lemma elem_of_stableSort x l : x ∈ stableSort le l ↔ x ∈ l.
Proof. by rewrite stableSort_Permutation. Qed.

Lemma length_stableSort l : length (stableSort le l) = length l.
Proof. by rewrite stableSort_Permutation. Qed.

Hypothesis le_total : ∀ x y, le x y = true ∨ le y x = true.
Hypothesis le_trans : ∀ x y z, le x y = true → le y z = true → le x z = true.

Lemma le_refl x : le x x = true.
Proof. by destruct (le_total x x). Qed.

Lemma insertBy_sorted x l : sortedBy le l → sortedBy le (insertBy le x l).
Proof.
  induction l as [|y l IH]; intros Hl.
  - intros [|i] [|j] a b Hij; simpl; try done.
    intros [= <-] [= <-]. apply le_refl.
  - simpl. destruct (le x y) eqn:Hxy.
    + intros [|i] [|j] a b Hij; simpl; try lia.
      * intros [= <-] [= <-]. apply le_refl.
      * intros [= <-] Hb. apply le_trans with y; [done|].
        by apply (Hl 0%nat j y b); [lia| |].
      * intros Ha Hb. apply (Hl i j a b); [lia|done|done].
    + assert (le y x = true) as Hyx by (by destruct (le_total x y); [congruence|]).
      assert (sortedBy le l) as Hl'.
      { intros i j a b Hij Ha Hb. apply (Hl (S i) (S j) a b); [lia|done|done]. }
      specialize (IH Hl').
      intros [|i] [|j] a b Hij; simpl; try lia.
      * intros [= <-] [= <-]. apply le_refl.
      * intros [= <-] Hb.
        apply list_elem_of_lookup_2 in Hb.
        rewrite insertBy_Permutation in Hb.
        apply elem_of_cons in Hb as [->|Hb]; [done|].
        apply list_elem_of_lookup_1 in Hb as [k Hk].
        by apply (Hl 0%nat (S k) y b); [lia| |].
      * intros Ha Hb. apply (IH i j a b); [lia|done|done].
Qed.

Lemma stableSort_sorted l : sortedBy le (stableSort le l).
Proof.
  unfold stableSort. induction l as [|x l IH]; simpl.
  - intros i j a b _ Ha. by rewrite lookup_nil in Ha.
  - by apply insertBy_sorted.
Qed.

End sort_facts.

(** The ranking of [rankCandidates] is in descending order of score. *)
Lemma rankCandidates_descending minimatch prAuthor fileAuthors rules files
    latencyMap weights cross tz required i j a b :
  (i ≤ j)%nat →
  rankCandidates minimatch prAuthor fileAuthors rules files latencyMap weights
    cross tz required !! i = Some a →
  rankCandidates minimatch prAuthor fileAuthors rules files latencyMap weights
    cross tz required !! j = Some b →
  score b ≤ score a.
Proof.
  unfold rankCandidates. rewrite !list_lookup_fmap. intros Hij Ha Hb.
  destruct (stableSort byScoreDesc _ !! i) as [ea|] eqn:Hea; [|done].
  destruct (stableSort byScoreDesc _ !! j) as [eb|] eqn:Heb; [|done].
  injection Ha as <-. injection Hb as <-. simpl. apply Z.leb_le.
  refine (stableSort_sorted byScoreDesc _ _ _ i j ea eb Hij Hea Heb).
  - intros x y. unfold byScoreDesc. destruct (Z.le_ge_cases x.2 y.2);
      [right|left]; by apply Z.leb_le.
  - intros x y z. unfold byScoreDesc. rewrite !Z.leb_le. lia.
Qed.

(** ** Ownership resolution *)

Section ownership_facts.
Variable minimatch : string → string → bool.
Implicit Types (rules : list Rule) (f : string).

Lemma ownersForFile_foldl rules f :
  ownersForFile minimatch rules f = foldl (ownerStep minimatch f) [] rules.
Proof. by destruct rules. Qed.

Lemma foldl_ownerStep_no_match f acc rules :
  Forall (λ r, ruleMatches minimatch f r = false) rules →
  foldl (ownerStep minimatch f) acc rules = acc.
Proof.
  intros H. revert acc. induction H as [|r rules Hr _ IH]; intros acc; [done|].
  simpl. unfold ownerStep at 2. rewrite Hr. apply IH.
Qed.

Lemma ownersForFile_split rules1 r rules2 f :
  ruleMatches minimatch f r = true →
  Forall (λ r', ruleMatches minimatch f r' = false) rules2 →
  ownersForFile minimatch (rules1 ++ r :: rules2) f = owners r.
Proof.
  intros Hr Hpost. rewrite ownersForFile_foldl, foldl_app. simpl.
  unfold ownerStep at 2. rewrite Hr. by apply foldl_ownerStep_no_match.
Qed.

Lemma ownersForFile_none rules f :
  Forall (λ r, ruleMatches minimatch f r = false) rules →
  ownersForFile minimatch rules f = [].
Proof. intros H. rewrite ownersForFile_foldl. by apply foldl_ownerStep_no_match. Qed.

Lemma ownersForFile_snoc rules r f :
  ownersForFile minimatch (rules ++ [r]) f =
  if ruleMatches minimatch f r then owners r else ownersForFile minimatch rules f.
Proof. rewrite !ownersForFile_foldl, foldl_app. done. Qed.

Lemma ownersForFile_lastMatch rules f :
  ownersForFile minimatch rules f = lastMatchOwners minimatch rules f.
Proof.
  unfold lastMatchOwners.
  induction rules as [|r rules IH] using rev_ind; [done|].
  rewrite ownersForFile_snoc, filter_app, IH.
  destruct (ruleMatches minimatch f r) eqn:Hr.
  - rewrite filter_cons_True by done. by rewrite filter_nil, last_snoc.
  - rewrite filter_cons_False by (rewrite Hr; done).
    by rewrite filter_nil, app_nil_r.
Qed.

End ownership_facts.

(** C1. Ownership resolution returns the owners of the last rule, in file
    order, whose normalized pattern matches the path: it equals the owners
    of the last element of the matching rules; whatever rule matches with no
    matching rule after it gives the result, so a file that only one rule
    matches gets that rule's owners and a file that two rules match gets
    the owners of the later one; a file that no rule matches has no
    owners. *)
Theorem ownersForFile_last_match_wins
    (minimatch : string → string → bool) (rules : list Rule) (f : string) :
  ownersForFile minimatch rules f = lastMatchOwners minimatch rules f
  ∧ (∀ pre r post,
       rules = pre ++ r :: post →
       ruleMatches minimatch f r = true →
       Forall (λ r', ruleMatches minimatch f r' = false) post →
       ownersForFile minimatch rules f = owners r)
  ∧ (∀ pre r post,
       rules = pre ++ r :: post →
       ruleMatches minimatch f r = true →
       Forall (λ r', ruleMatches minimatch f r' = false) (pre ++ post) →
       ownersForFile minimatch rules f = owners r)
  ∧ (∀ pre r1 mid r2 post,
       rules = pre ++ r1 :: mid ++ r2 :: post →
       ruleMatches minimatch f r1 = true →
       ruleMatches minimatch f r2 = true →
       Forall (λ r', ruleMatches minimatch f r' = false) (pre ++ mid ++ post) →
       ownersForFile minimatch rules f = owners r2)
  ∧ (Forall (λ r, ruleMatches minimatch f r = false) rules →
     ownersForFile minimatch rules f = []).
Proof.
  split; [apply ownersForFile_lastMatch|].
  split; [intros pre r post -> Hr Hpost; by apply ownersForFile_split|].
  split.
  { intros pre r post -> Hr [_ Hpost]%Forall_app. by apply ownersForFile_split. }
  split; [|apply ownersForFile_none].
  intros pre r1 mid r2 post -> _ Hr2 [_ [_ Hpost]%Forall_app]%Forall_app.
  replace (pre ++ r1 :: mid ++ r2 :: post) with ((pre ++ r1 :: mid) ++ r2 :: post)
    by (by rewrite <- app_assoc).
  by apply ownersForFile_split.
Qed.

Lemma ownersForFile_last_match_wins_witness :
  ownersForFile literalMatch [ruleA; ruleB; ruleC] "src/api/users.ts"
  = ["carol"; "dave"].
Proof.
  apply (proj1 (proj2 (ownersForFile_last_match_wins literalMatch
                         [ruleA; ruleB; ruleC] "src/api/users.ts"))
           [ruleA] ruleB [ruleC]).
  - reflexivity.
  - reflexivity.
  - repeat constructor.
Defined.

(** ** Every score comes from a call of [add] *)

Lemma foldl_invariant {A B} (P : A → Prop) (f : A → B → A) (l : list B) (a : A) :
  P a → (∀ a x, x ∈ l → P a → P (f a x)) → P (foldl f a l).
Proof.
  revert a. induction l as [|x l IH]; intros a Ha Hf; [done|].
  simpl. apply IH.
  - apply Hf; [by left|done].
  - intros a' x' Hx'. apply Hf. by right.
Qed.

Section signal_facts.
Variable minimatch : string → string → bool.
Variable prAuthor : option string.
Variable weights : Weights.
Variable crossRepoExpertise : jsmap Z.
Variable P : Tally → Prop.
Hypothesis P_add : ∀ t login pts reason,
  P t → Signal weights crossRepoExpertise login pts reason →
  P (add prAuthor t login pts reason).

Lemma creditAuthors_signal t fa : P t → P (creditAuthors prAuthor weights t fa).
Proof.
  intros Ht. unfold creditAuthors. apply foldl_invariant; [done|].
  intros t' [i a] Hin Ht'. apply P_add; [done|]. simpl.
  apply elem_of_lookup_imap in Hin as (j & y & [= <- <-] & Hj).
  apply lookup_take_Some in Hj as [_ Hlt].
  destruct (decide (i < 3)%nat).
  - replace (Z.max 1 (3 - Z.of_nat i)) with (3 - Z.of_nat i) by lia.
    apply SigCommit. lia.
  - replace (Z.max 1 (3 - Z.of_nat i)) with 1 by lia.
    apply SigCommit. lia.
Qed.

Lemma creditOwners_signal rules files t :
  P t → P (creditOwners minimatch prAuthor weights rules files t).
Proof.
  intros Ht. unfold creditOwners.
  destruct (0 <? codeowners weights) eqn:Hw; [|done]. apply Z.ltb_lt in Hw.
  destruct (negb _); [|done]. simpl.
  apply (foldl_invariant (λ acc, P acc.1)); [done|].
  intros acc f _ Hacc. apply (foldl_invariant (λ acc, P acc.1)); [done|].
  intros acc' o _ Hacc'. unfold creditOwner.
  destruct o; [done|]. case_bool_decide; [done|]. simpl.
  apply P_add; [done|]. by apply SigOwner.
Qed.

Lemma creditLatency_signal latencyMap t :
  P t → P (creditLatency prAuthor weights latencyMap t).
Proof.
  intros Ht. unfold creditLatency. destruct (0 <? latency weights); [|done].
  apply foldl_invariant; [done|].
  intros t' [l h] _ Ht'. simpl.
  destruct (0 <? _) eqn:Hb; [|done]. apply Z.ltb_lt in Hb.
  apply P_add; [done|]. by apply SigLatency.
Qed.

Lemma creditCrossRepo_signal t :
  P t → P (creditCrossRepo prAuthor crossRepoExpertise t).
Proof.
  intros Ht. unfold creditCrossRepo. apply foldl_invariant; [done|].
  intros t' [l c] Hin Ht'. simpl. apply P_add; [done|]. by apply SigCross.
Qed.

Lemma creditTimezone_signal tz t : P t → P (creditTimezone prAuthor tz t).
Proof.
  intros Ht. unfold creditTimezone. destruct tz as [tz|]; [|done].
  destruct (preferredOffset tz) as [off|]; [|done].
  apply foldl_invariant; [done|].
  intros t' [l h] _ Ht'. simpl.
  destruct (0 <? _) eqn:Hb; [|done]. apply Z.ltb_lt in Hb.
  apply P_add; [done|]. by apply SigTimezone.
Qed.

Lemma requireOne_signal t login : P t → P (requireOne prAuthor t login).
Proof.
  intros Ht. unfold requireOne. destruct (_ || _); [done|].
  destruct (_ =? 0); (apply P_add; [done|]); apply SigRequired; auto.
Qed.

Lemma creditRequired_signal required t :
  P t → P (creditRequired prAuthor required t).
Proof.
  intros Ht. unfold creditRequired. apply foldl_invariant; [done|].
  intros t' l _ Ht'. by apply requireOne_signal.
Qed.

Lemma tallySignals_signal fileAuthors rules files latencyMap tz :
  P emptyTally →
  P (tallySignals minimatch prAuthor fileAuthors rules files latencyMap weights
       crossRepoExpertise tz).
Proof.
  intros H0. unfold tallySignals.
  apply creditTimezone_signal, creditCrossRepo_signal,
    creditLatency_signal, creditOwners_signal.
  apply foldl_invariant; [done|].
  intros t fa _ Ht. by apply creditAuthors_signal.
Qed.

Lemma tally_signal fileAuthors rules files latencyMap tz required :
  P emptyTally →
  P (tally minimatch prAuthor fileAuthors rules files latencyMap weights
       crossRepoExpertise tz required).
Proof.
  intros H0. unfold tally. by apply creditRequired_signal, tallySignals_signal.
Qed.

End signal_facts.

(** ** The bot heuristic *)





Example isBotLogin_examples :
  isBotLogin "dependabot[bot]" = true ∧ isBotLogin "RoBoTnik" = true
  ∧ isBotLogin "GitHub-Actions" = true ∧ isBotLogin "alice" = false
  ∧ isBotLogin EmptyString = true.
Proof. repeat split; reflexivity. Qed.

Example parseCommaSeparated_example :
  parseCommaSeparated " Alice, bob ,,Carol " = ["alice"; "bob"; "carol"].
Proof. reflexivity. Qed.

(** ** Who can enter the tally *)

Section tally_keys.
Variable minimatch : string → string → bool.
Variable prAuthor : option string.

Lemma add_skip t l pts reason :
  ¬ scorable prAuthor l → add prAuthor t l pts reason = t.
Proof.
  intros Hn. unfold add. destruct (isBotLogin l) eqn:Hb; [done|].
  case_bool_decide; [done|]. exfalso. by apply Hn.
Qed.

Lemma add_scores t l pts reason :
  scorable prAuthor l →
  scores (add prAuthor t l pts reason)
  = mset (scores t) l (default 0 (mget (scores t) l) + pts).
Proof.
  intros [Hb Ha]. unfold add. rewrite Hb. by rewrite bool_decide_eq_false_2.
Qed.

Lemma add_keys t l pts reason k :
  k ∈ mkeys (scores (add prAuthor t l pts reason)) →
  k ∈ mkeys (scores t) ∨ (k = l ∧ scorable prAuthor l).
Proof.
  unfold add. destruct (isBotLogin l) eqn:Hb; [by left|].
  case_bool_decide as Ha; [by left|]. simpl.
  intros [->|?]%elem_of_mkeys_mset; [by right|by left].
Qed.



End tally_keys.

(** ** The logins of the later stages *)

Lemma excludeFilter_subseteq excluded ranked :
  excludeFilter excluded ranked ⊆ ranked.
Proof. intros r. unfold excludeFilter. rewrite list_elem_of_filter. tauto. Qed.

Lemma login_loadOne loadCounts r : login (loadOne loadCounts r) = login r.
Proof. done. Qed.

Lemma login_flakyOne flaky r : login (flakyOne flaky r) = login r.
Proof. unfold flakyOne. by case_bool_decide. Qed.

Lemma loadPenalty_logins loadCounts ranked :
  map login (loadPenalty loadCounts ranked) ≡ₚ map login ranked.
Proof.
  destruct loadCounts as [lc|]; [|done]. simpl.
  rewrite (fmap_Permutation login _ _ (stableSort_Permutation _ _)).
  by rewrite map_map.
Qed.

Lemma flakyPenalty_logins flaky ranked :
  map login (flakyPenalty flaky ranked) ≡ₚ map login ranked.
Proof.
  unfold flakyPenalty. case_bool_decide; [done|].
  rewrite (fmap_Permutation login _ _ (stableSort_Permutation _ _)).
  rewrite map_map. erewrite map_ext; [done|]. intros r. apply login_flakyOne.
Qed.

Lemma slice0_subseteq {A} n (l : list A) : slice0 n l ⊆ l.
Proof. intros x. unfold slice0. apply subseteq_take. Qed.

Section pipeline_logins.
Variable minimatch : string → string → bool.
Variable api : Api.
Variable repo : string.
Variable now : Z.
Variable prAuthor : option string.
Variable changedFiles : list string.
Variable config : Config.

Lemma afterLoad_logins :
  map login (afterLoad minimatch api repo now prAuthor changedFiles config)
  ≡ₚ map login (afterExclusion minimatch api repo now prAuthor changedFiles config).
Proof.
  unfold afterLoad. destruct (penalizeLoad config); [|done].
  apply loadPenalty_logins.
Qed.

Lemma finalRanking_logins :
  map login (finalRanking minimatch api repo now prAuthor changedFiles config)
  ≡ₚ map login (afterExclusion minimatch api repo now prAuthor changedFiles config).
Proof. unfold finalRanking. by rewrite flakyPenalty_logins, afterLoad_logins. Qed.



End pipeline_logins.



(** ** The load penalty *)

Lemma inject_Z_nonneg n : 0 ≤ n → (0 <= inject_Z n)%Q.
Proof. intros Hn. change (inject_Z 0 <= inject_Z n)%Q. by rewrite <- Zle_Qle. Qed.

Lemma applyLoadPenalty_eq s n :
  0 ≤ n →
  (applyLoadPenalty s n == inject_Z (3 * s) / inject_Z (n + 3))%Q.
Proof.
  intros Hn%inject_Z_nonneg. unfold applyLoadPenalty.
  rewrite inject_Z_mult, inject_Z_plus.
  field. lra.
Qed.

Lemma Math_round_div a b :
  0 < b → Math_round (inject_Z a / inject_Z b) = (2 * a + b) / (2 * b).
Proof.
  intros Hb. unfold Math_round. rewrite Zdiv_Qdiv. apply Qfloor_comp.
  rewrite inject_Z_plus, !inject_Z_mult.
  assert (0 < inject_Z b)%Q by (change (inject_Z 0 < inject_Z b)%Q; by rewrite <- Zlt_Qlt).
  field. lra.
Qed.

Lemma loadScore_closed s n :
  0 ≤ n → Math_round (applyLoadPenalty s n) = (6 * s + n + 3) / (2 * (n + 3)).
Proof.
  intros Hn. unfold Math_round.
  rewrite (Qfloor_comp _ (inject_Z (3 * s) / inject_Z (n + 3) + (1 # 2)))
    by (by rewrite applyLoadPenalty_eq).
  fold (Math_round (inject_Z (3 * s) / inject_Z (n + 3))).
  rewrite Math_round_div by lia. f_equal; lia.
Qed.

Lemma loadScore_antitone s n n' :
  0 ≤ s → 0 ≤ n → n ≤ n' →
  Math_round (applyLoadPenalty s n') ≤ Math_round (applyLoadPenalty s n).
Proof.
  intros Hs Hn Hn'. rewrite !loadScore_closed by lia.
  set (q := (6 * s + n' + 3) / (2 * (n' + 3))).
  assert (2 * (n' + 3) * q ≤ 6 * s + n' + 3) as Hq
    by (apply Z.mul_div_le; lia).
  apply Z.div_le_lower_bound; [lia|].
  destruct (decide (q ≤ 0)); nia.
Qed.

Lemma loadScore_nonneg s n : 0 ≤ s → 0 ≤ n → 0 ≤ Math_round (applyLoadPenalty s n).
Proof. intros Hs Hn. rewrite loadScore_closed by lia. apply Z.div_pos; lia. Qed.






(** ** Counting with a map *)

Lemma setAdd_elem_of s x y : y ∈ setAdd s x ↔ y = x ∨ y ∈ s.
Proof.
  unfold setAdd. case_decide as Hin.
  - split; [by right|]. by intros [->|?].
  - rewrite elem_of_app, list_elem_of_singleton. tauto.
Qed.

Lemma setAdd_NoDup s x : NoDup s → NoDup (setAdd s x).
Proof.
  intros Hnd. unfold setAdd. case_decide as Hin; [done|].
  apply NoDup_app. split; [done|]. split; [|apply NoDup_singleton].
  intros y Hy ->%list_elem_of_singleton. contradiction.
Qed.

Lemma countOf_cons k x ks :
  countOf k (x :: ks) = (if decide (x = k) then 1 else 0) + countOf k ks.
Proof.
  unfold countOf. destruct (decide (x = k)) as [Heq|Hne].
  - rewrite filter_cons_True by done. simpl length. lia.
  - rewrite filter_cons_False by done. lia.
Qed.


Lemma countOf_nonneg k ks : 0 ≤ countOf k ks.
Proof. unfold countOf. lia. Qed.

Lemma countOf_pos k ks : 0 < countOf k ks ↔ k ∈ ks.
Proof.
  induction ks as [|x ks IH].
  - split; [by unfold countOf; simpl; lia|by intros ?%elem_of_nil].
  - rewrite countOf_cons, elem_of_cons. pose proof (countOf_nonneg k ks).
    destruct (decide (x = k)) as [->|Hne].
    + split; [by left|lia].
    + rewrite Z.add_0_l, IH. split; [by right|by intros [->|?]].
Qed.


Lemma mincr_get m k k' :
  default 0 (mget (mincr m k) k')
  = default 0 (mget m k') + (if decide (k = k') then 1 else 0).
Proof.
  unfold mincr. rewrite mget_mset. destruct (decide (k = k')) as [->|]; simpl; lia.
Qed.

Lemma foldl_mincr_get m ks k :
  default 0 (mget (foldl mincr m ks) k) = default 0 (mget m k) + countOf k ks.
Proof.
  revert m. induction ks as [|x ks IH]; intros m; simpl.
  - unfold countOf. simpl. lia.
  - rewrite IH, mincr_get, countOf_cons. lia.
Qed.

Lemma foldl_mincr_keys m ks k :
  k ∈ mkeys (foldl mincr m ks) ↔ k ∈ mkeys m ∨ k ∈ ks.
Proof.
  revert m. induction ks as [|x ks IH]; intros m; simpl.
  - split; [by left|]. by intros [?|?%elem_of_nil].
  - rewrite IH. unfold mincr at 1. rewrite elem_of_mkeys_mset, elem_of_cons. tauto.
Qed.

Lemma foldl_mincr_NoDup m ks : NoDup (mkeys m) → NoDup (mkeys (foldl mincr m ks)).
Proof.
  revert m. induction ks as [|x ks IH]; intros m Hnd; [done|].
  simpl. apply IH. by apply NoDup_mkeys_mset.
Qed.

(** A key that was counted holds its count. *)
Lemma foldl_mincr_lookup ks k :
  mget (foldl mincr [] ks) k
  = if decide (k ∈ ks) then Some (countOf k ks) else None.
Proof.
  pose proof (foldl_mincr_get [] ks k) as Hget.
  pose proof (foldl_mincr_keys [] ks k) as Hkeys.
  rewrite elem_of_mkeys in Hkeys. simpl in Hget.
  destruct (decide (k ∈ ks)) as [Hin|Hin].
  - destruct Hkeys as [_ [v Hv]]; [by right|]. rewrite Hv in *. simpl in Hget.
    by rewrite Hget.
  - apply eq_None_not_Some. intros Hs. apply Hkeys in Hs as [?%elem_of_nil|?]; done.
Qed.

(** ** Flaky detection *)




Lemma requestedLogins_nonempty pulls l : l ∈ requestedLogins pulls → l ≠ EmptyString.
Proof. unfold requestedLogins. by intros [? _]%list_elem_of_filter. Qed.


Lemma reviewedSet_elem_of reviews l :
  l ∈ reviewedSet reviews ↔
  ∃ r login, r ∈ reviews ∧ truthy (r_login r) = Some login
             ∧ Str.toLowerCase login = l.
Proof.
  unfold reviewedSet.
  assert (∀ s, l ∈ foldl (λ reviewed r,
                 match truthy (r_login r) with
                 | Some login => setAdd reviewed (Str.toLowerCase login)
                 | None => reviewed
                 end) s reviews ↔
               l ∈ s ∨ ∃ r login, r ∈ reviews ∧ truthy (r_login r) = Some login
                                  ∧ Str.toLowerCase login = l) as H.
  { induction reviews as [|r reviews IH]; intros s; simpl.
    - split; [by left|]. intros [?|(r & ? & ?%elem_of_nil & _)]; done.
    - rewrite IH. split.
      + intros [Hin|(r' & lg & Hr' & Ht & Hl)].
        * destruct (truthy (r_login r)) as [lg|] eqn:Ht; [|by left].
          apply setAdd_elem_of in Hin as [->|?]; [|by left].
          right. exists r, lg. split; [by left|done].
        * right. exists r', lg. split; [by right|done].
      + intros [Hin|(r' & lg & [->|Hr']%elem_of_cons & Ht & Hl)].
        * left. destruct (truthy (r_login r)); [|done].
          apply setAdd_elem_of. by right.
        * left. rewrite Ht. apply setAdd_elem_of. by left.
        * right. by exists r', lg. }
  rewrite H. split; [intros [?%elem_of_nil|?]; done|by right].
Qed.

Lemma reviewedOnb_spec api since l pr :
  reviewedOnb api since l pr = true ↔ reviewedOn api since l pr.
Proof.
  unfold reviewedOnb, reviewedOn.
  rewrite andb_true_iff, negb_true_iff, Z.ltb_ge.
  destruct (listReviews api (pr_number pr)) as [reviews|].
  - rewrite bool_decide_eq_true, reviewedSet_elem_of. split.
    + intros [? ?]. split; [done|]. by exists reviews.
    + intros [? (rs & [= <-] & ?)]. done.
  - split; [by intros [_ ?]|]. by intros [_ (rs & ? & _)].
Qed.





(** ** The flaky penalty *)

Lemma Math_round_half s : Math_round (inject_Z s * (1 # 2)) = (s + 1) / 2.
Proof.
  unfold Math_round.
  rewrite (Qfloor_comp _ (inject_Z s / inject_Z 2 + (1 # 2)))
    by (apply Qplus_comp; [|done];
        change (inject_Z 2) with 2%Q; field).
  fold (Math_round (inject_Z s / inject_Z 2)).
  rewrite Math_round_div by lia.
  replace (2 * s + 2) with (2 * (s + 1)) by lia.
  apply Z.div_mul_cancel_l; lia.
Qed.

Lemma fastReason_not_flaky medHrs : fastReason medHrs ≠ "flaky reviewer".
Proof. unfold fastReason. cbn [append]. discriminate. Qed.

Lemma signalReason_not_flaky x : signalReason x → x ≠ "flaky reviewer".
Proof.
  intros [Hin|[m ->]]; [|apply fastReason_not_flaky].
  intros ->. revert Hin. by eapply bool_decide_eq_false_1.
Qed.

Lemma Signal_reason weights cross l pts x :
  Signal weights cross l pts x → signalReason x.
Proof.
  destruct 1; try (left; by eapply bool_decide_eq_true_1).
  right. by eexists.
Qed.

Section tally_reasons.
Variable minimatch : string → string → bool.
Variable prAuthor : option string.

Lemma tally_reasons_signal fileAuthors rules files latencyMap weights cross tz
    required k rs x :
  mget (reasonsOf (tally minimatch prAuthor fileAuthors rules files latencyMap
                     weights cross tz required)) k = Some rs →
  x ∈ rs → signalReason x.
Proof.
  revert k rs x. apply (tally_signal minimatch prAuthor weights cross
    (λ t, ∀ k rs x, mget (reasonsOf t) k = Some rs → x ∈ rs → signalReason x)).
  - intros t l pts reason Ht Hsig k rs x. unfold add.
    destruct (isBotLogin l); [apply Ht|]. case_bool_decide; [apply Ht|].
    simpl. rewrite mget_mset. destruct (decide (l = k)) as [->|]; [|apply Ht].
    intros [= <-] Hx.
    assert (x ∈ default [] (mget (reasonsOf t) k) → signalReason x) as Hold.
    { destruct (mget (reasonsOf t) k) as [rs|] eqn:Hk; simpl.
      - by apply (Ht k).
      - by intros ?%elem_of_nil. }
    destruct reason; [by apply Hold|].
    apply setAdd_elem_of in Hx as [->|?]; [|by apply Hold].
    by eapply Signal_reason.
  - done.
Qed.

Lemma tally_NoDup fileAuthors rules files latencyMap weights cross tz required :
  NoDup (mkeys (scores (tally minimatch prAuthor fileAuthors rules files
                          latencyMap weights cross tz required))).
Proof.
  apply (tally_signal minimatch prAuthor weights cross
           (λ t, NoDup (mkeys (scores t)))).
  - intros t l pts reason Ht _. unfold add.
    destruct (isBotLogin l); [done|]. case_bool_decide; [done|].
    by apply NoDup_mkeys_mset.
  - apply NoDup_nil_2.
Qed.

Lemma rankCandidates_reasons fileAuthors rules files latencyMap weights cross tz
    required r x :
  r ∈ rankCandidates minimatch prAuthor fileAuthors rules files latencyMap
        weights cross tz required →
  x ∈ reasons r → signalReason x.
Proof.
  unfold rankCandidates. intros (e & -> & _)%list_elem_of_fmap. simpl.
  destruct (mget _ e.1) as [rs|] eqn:Hk; simpl.
  - by eapply tally_reasons_signal.
  - by intros ?%elem_of_nil.
Qed.

End tally_reasons.


Lemma flakyOne_empty r : flakyOne ∅ r = r.
Proof. unfold flakyOne. by rewrite bool_decide_eq_false_2. Qed.

Lemma flakyPenalty_Permutation flaky ranked :
  flakyPenalty flaky ranked ≡ₚ map (flakyOne flaky) ranked.
Proof.
  unfold flakyPenalty. case_bool_decide as He; [|apply stableSort_Permutation].
  rewrite He. erewrite map_ext; [by rewrite map_id|]. apply flakyOne_empty.
Qed.

Section pipeline_reasons.
Variable minimatch : string → string → bool.
Variable api : Api.
Variable repo : string.
Variable now : Z.
Variable prAuthor : option string.
Variable changedFiles : list string.
Variable config : Config.




End pipeline_reasons.


Example flaky_scenario :
  finalRanking literalMatch flakyApi "repo" 0 None ["a.js"] flakyConfig
  = [{| login := "alice"; score := 2;
        reasons := ["recent commits"; "required reviewer"; "flaky reviewer"];
        openReviews := Some 3 |}].
Proof. vm_compute. reflexivity. Qed.


(** ** The required reviewers *)

Section required_facts.
Variable prAuthor : option string.
Implicit Types (t : Tally) (l k : string).

Lemma add_scoreOf_same t l pts reason :
  scorable prAuthor l → scoreOf (add prAuthor t l pts reason) l = scoreOf t l + pts.
Proof. intros Hl. unfold scoreOf. by rewrite add_scores, mget_mset_eq. Qed.

Lemma add_scoreOf_other t l k pts reason :
  l ≠ k → scoreOf (add prAuthor t l pts reason) k = scoreOf t k.
Proof.
  intros Hne. unfold scoreOf, add. destruct (isBotLogin l); [done|].
  case_bool_decide; [done|]. simpl. by rewrite mget_mset_ne.
Qed.

Lemma add_keys_mono t l k pts reason :
  k ∈ mkeys (scores t) → k ∈ mkeys (scores (add prAuthor t l pts reason)).
Proof.
  intros Hk. unfold add. destruct (isBotLogin l); [done|].
  case_bool_decide; [done|]. simpl. apply elem_of_mkeys_mset. by right.
Qed.

Lemma add_keys_new t l pts reason :
  scorable prAuthor l → l ∈ mkeys (scores (add prAuthor t l pts reason)).
Proof. intros Hl. rewrite add_scores by done. apply elem_of_mkeys_mset. by left. Qed.

Lemma add_reasons_mono t l k pts reason x :
  x ∈ reasonsFor t k → x ∈ reasonsFor (add prAuthor t l pts reason) k.
Proof.
  intros Hx. unfold reasonsFor, add in *. destruct (isBotLogin l); [done|].
  case_bool_decide; [done|]. simpl. rewrite mget_mset.
  destruct (decide (l = k)) as [->|]; [|done]. simpl.
  destruct reason; [done|]. apply setAdd_elem_of. by right.
Qed.

Lemma add_reasons_new t l pts c reason :
  scorable prAuthor l →
  String c reason ∈ reasonsFor (add prAuthor t l pts (String c reason)) l.
Proof.
  intros [Hb Ha]. unfold reasonsFor, add. rewrite Hb.
  rewrite bool_decide_eq_false_2 by done. simpl. rewrite mget_mset_eq. simpl.
  apply setAdd_elem_of. by left.
Qed.

Lemma requireOne_unfold t l :
  scorable prAuthor l →
  requireOne prAuthor t l
  = add prAuthor t l (if scoreOf t l =? 0 then 10 else 5) "required reviewer".
Proof.
  intros [Hb Ha]. unfold requireOne. rewrite Hb.
  rewrite bool_decide_eq_false_2 by done. simpl. fold (scoreOf t l).
  by destruct (scoreOf t l =? 0).
Qed.

Lemma requireOne_skip t l : ¬ scorable prAuthor l → requireOne prAuthor t l = t.
Proof.
  intros Hn. unfold requireOne. case_bool_decide as Ha; [done|]. simpl.
  destruct (isBotLogin l) eqn:Hb; [done|]. exfalso. by apply Hn.
Qed.

Lemma requireOne_scoreOf_same t l :
  scorable prAuthor l →
  scoreOf (requireOne prAuthor t l) l
  = if scoreOf t l =? 0 then 10 else scoreOf t l + 5.
Proof.
  intros Hl. rewrite requireOne_unfold, add_scoreOf_same by done.
  destruct (scoreOf t l =? 0) eqn:Hz; [|done]. apply Z.eqb_eq in Hz. lia.
Qed.

Lemma requireOne_scoreOf_other t l k :
  l ≠ k → scoreOf (requireOne prAuthor t l) k = scoreOf t k.
Proof.
  intros Hne. destruct (decide (scorable prAuthor l)) as [Hl|Hl].
  - rewrite requireOne_unfold by done. by apply add_scoreOf_other.
  - by rewrite requireOne_skip.
Qed.

Lemma requireOne_keys_mono t l k :
  k ∈ mkeys (scores t) → k ∈ mkeys (scores (requireOne prAuthor t l)).
Proof.
  intros Hk. destruct (decide (scorable prAuthor l)) as [Hl|Hl].
  - rewrite requireOne_unfold by done. by apply add_keys_mono.
  - by rewrite requireOne_skip.
Qed.

Lemma requireOne_reasons_mono t l k x :
  x ∈ reasonsFor t k → x ∈ reasonsFor (requireOne prAuthor t l) k.
Proof.
  intros Hk. destruct (decide (scorable prAuthor l)) as [Hl|Hl].
  - rewrite requireOne_unfold by done. by apply add_reasons_mono.
  - by rewrite requireOne_skip.
Qed.

Lemma creditRequired_scoreOf required t l :
  scorable prAuthor l → 0 ≤ scoreOf t l →
  scoreOf (creditRequired prAuthor required t) l
  = requiredTotal (scoreOf t l) (countOf l required).
Proof.
  intros Hl. unfold creditRequired. revert t.
  induction required as [|x required IH]; intros t Hnn; [done|].
  simpl. rewrite countOf_cons. pose proof (countOf_nonneg l required) as Hc.
  destruct (decide (x = l)) as [->|Hne].
  - rewrite IH; rewrite requireOne_scoreOf_same by done;
      unfold requiredTotal;
      repeat match goal with
             | |- context [?a =? ?b] => destruct (Z.eqb_spec a b)
             end; lia.
  - rewrite IH by (by rewrite requireOne_scoreOf_other).
    rewrite requireOne_scoreOf_other by done. by rewrite Z.add_0_l.
Qed.

Lemma creditRequired_keys_mono required t k :
  k ∈ mkeys (scores t) → k ∈ mkeys (scores (creditRequired prAuthor required t)).
Proof.
  unfold creditRequired. revert t.
  induction required as [|x required IH]; intros t Hk; [done|].
  simpl. by apply IH, requireOne_keys_mono.
Qed.

Lemma creditRequired_keys required t l :
  scorable prAuthor l → l ∈ required →
  l ∈ mkeys (scores (creditRequired prAuthor required t)).
Proof.
  intros Hl. unfold creditRequired. revert t.
  induction required as [|x required IH]; intros t Hin;
    [by apply elem_of_nil in Hin|].
  simpl. apply elem_of_cons in Hin as [<-|Hin]; [|by apply IH].
  apply (creditRequired_keys_mono required). rewrite requireOne_unfold by done.
  by apply add_keys_new.
Qed.

Lemma creditRequired_reasons_mono required t k x :
  x ∈ reasonsFor t k → x ∈ reasonsFor (creditRequired prAuthor required t) k.
Proof.
  unfold creditRequired. revert t.
  induction required as [|y required IH]; intros t Hk; [done|].
  simpl. by apply IH, requireOne_reasons_mono.
Qed.

Lemma creditRequired_reason required t l :
  scorable prAuthor l → l ∈ required →
  "required reviewer" ∈ reasonsFor (creditRequired prAuthor required t) l.
Proof.
  intros Hl. unfold creditRequired. revert t.
  induction required as [|x required IH]; intros t Hin;
    [by apply elem_of_nil in Hin|].
  simpl. apply elem_of_cons in Hin as [<-|Hin]; [|by apply IH].
  apply (creditRequired_reasons_mono required). rewrite requireOne_unfold by done.
  by apply add_reasons_new.
Qed.

End required_facts.

(** ** Scores before the penalties are positive *)

Lemma mincr_values_pos m k :
  (∀ k' v, mget m k' = Some v → 1 ≤ v) →
  ∀ k' v, mget (mincr m k) k' = Some v → 1 ≤ v.
Proof.
  intros Hm k' v. unfold mincr. rewrite mget_mset.
  destruct (decide (k = k')) as [->|]; [|apply Hm].
  intros [= <-]. destruct (mget m k') as [v0|] eqn:Hv; simpl; [|lia].
  apply Hm in Hv. lia.
Qed.

Lemma countAuthors_values_pos m resp :
  (∀ k v, mget m k = Some v → 1 ≤ v) →
  ∀ k v, mget (countAuthors m resp) k = Some v → 1 ≤ v.
Proof.
  intros Hm. unfold countAuthors.
  apply (foldl_invariant (λ m, ∀ k v, mget m k = Some v → 1 ≤ v)); [done|].
  intros m' c _ Hm'. destruct (humanLogin (c_login c)); [|done].
  by apply mincr_values_pos.
Qed.

Lemma fetchCrossRepoExpertise_values_pos api repos filePaths k v :
  mget (fetchCrossRepoExpertise api repos filePaths) k = Some v → 1 ≤ v.
Proof.
  revert k v. unfold fetchCrossRepoExpertise.
  apply (foldl_invariant (λ m, ∀ k v, mget m k = Some v → 1 ≤ v)); [done|].
  intros m repoName _ Hm.
  apply (foldl_invariant (λ m, ∀ k v, mget m k = Some v → 1 ≤ v)); [done|].
  intros m' filePath _ Hm'.
  destruct (listCommits api repoName filePath 10); [|done].
  by apply countAuthors_values_pos.
Qed.

Lemma Signal_pts_pos weights cross l pts reason :
  0 < commitHistory weights →
  (∀ k v, (k, v) ∈ cross → 1 ≤ v) →
  Signal weights cross l pts reason → 0 < pts.
Proof.
  intros Hw Hc. destruct 1 as [? w Hr| | |? c Hin| |? ? [->| ->]]; try lia.
  apply Hc in Hin. lia.
Qed.

Section tally_positive.
Variable minimatch : string → string → bool.
Variable prAuthor : option string.
Variable weights : Weights.
Variable cross : jsmap Z.
Hypothesis weights_pos : 0 < commitHistory weights.
Hypothesis cross_pos : ∀ k v, (k, v) ∈ cross → 1 ≤ v.

Lemma add_values_pos t l pts reason :
  0 < pts →
  (∀ k v, mget (scores t) k = Some v → 0 < v) →
  ∀ k v, mget (scores (add prAuthor t l pts reason)) k = Some v → 0 < v.
Proof.
  intros Hp Ht k v. unfold add. destruct (isBotLogin l); [apply Ht|].
  case_bool_decide; [apply Ht|]. simpl. rewrite mget_mset.
  destruct (decide (l = k)) as [->|]; [|apply Ht].
  intros [= <-]. destruct (mget (scores t) k) as [v0|] eqn:Hv; simpl; [|lia].
  apply Ht in Hv. lia.
Qed.

Lemma tallySignals_values_pos fileAuthors rules files latencyMap tz k v :
  mget (scores (tallySignals minimatch prAuthor fileAuthors rules files
                  latencyMap weights cross tz)) k = Some v → 0 < v.
Proof.
  revert k v. apply (tallySignals_signal minimatch prAuthor weights cross
    (λ t, ∀ k v, mget (scores t) k = Some v → 0 < v)); [|done].
  intros t l pts reason Ht Hsig. apply add_values_pos; [|done].
  by eapply Signal_pts_pos.
Qed.

Lemma tally_values_pos fileAuthors rules files latencyMap tz required k v :
  mget (scores (tally minimatch prAuthor fileAuthors rules files latencyMap
                  weights cross tz required)) k = Some v → 0 < v.
Proof.
  revert k v. apply (tally_signal minimatch prAuthor weights cross
    (λ t, ∀ k v, mget (scores t) k = Some v → 0 < v)); [|done].
  intros t l pts reason Ht Hsig. apply add_values_pos; [|done].
  by eapply Signal_pts_pos.
Qed.

Lemma rankCandidates_scores_pos fileAuthors rules files latencyMap tz required :
  Forall (λ r, 0 < score r)
    (rankCandidates minimatch prAuthor fileAuthors rules files latencyMap
       weights cross tz required).
Proof.
  apply Forall_forall. intros r. unfold rankCandidates.
  intros ([k v] & -> & Hin%elem_of_stableSort)%list_elem_of_fmap. simpl.
  apply elem_of_mget in Hin; [|apply tally_NoDup].
  by eapply tally_values_pos.
Qed.

End tally_positive.

Lemma crossRepoExpertiseOf_pos api changedFiles config k v :
  (k, v) ∈ crossRepoExpertiseOf api changedFiles config → 1 ≤ v.
Proof.
  unfold crossRepoExpertiseOf. destruct (crossRepoList config) as [|rp repos];
    [by intros ?%elem_of_nil|].
  intros Hin. assert (NoDup (mkeys (fetchCrossRepoExpertise api (rp :: repos)
                                      changedFiles))) as Hnd.
  { unfold fetchCrossRepoExpertise.
    apply (foldl_invariant (λ m, NoDup (mkeys m))); [apply NoDup_nil_2|].
    intros m repoName _ Hm.
    apply (foldl_invariant (λ m, NoDup (mkeys m))); [done|].
    intros m' filePath _ Hm'.
    destruct (listCommits api repoName filePath 10); [|done].
    unfold countAuthors. apply (foldl_invariant (λ m, NoDup (mkeys m))); [done|].
    intros m'' c _ Hm''. destruct (humanLogin (c_login c)); [|done].
    by apply NoDup_mkeys_mset. }
  apply elem_of_mget in Hin; [|done].
  by eapply fetchCrossRepoExpertise_values_pos.
Qed.

(** C10. Every candidate of the ranking that the analysis computes before
    exclusion and the two penalties has a strictly positive score; so has
    every candidate of [rankCandidates] whenever the commit-history weight
    is positive and the cross-repository counts are at least 1, as the
    analysis makes them; each call of [add] then carries positive
    points. *)
Theorem pre_penalty_scores_positive
    (minimatch : string → string → bool) (api : Api) (repo : string) (now : Z)
    (prAuthor : option string) (changedFiles : list string) (config : Config) :
  Forall (λ r, 0 < score r)
    (baseRanking minimatch api repo now prAuthor changedFiles config)
  ∧ Forall (λ r, 0 < score r)
      (afterExclusion minimatch api repo now prAuthor changedFiles config)
  ∧ (∀ fileAuthors rules files latencyMap weights cross tz required,
       0 < commitHistory weights →
       (∀ k v, (k, v) ∈ cross → 1 ≤ v) →
       (∀ l pts reason, Signal weights cross l pts reason → 0 < pts)
       ∧ Forall (λ r, 0 < score r)
           (rankCandidates minimatch prAuthor fileAuthors rules files
              latencyMap weights cross tz required)).
Proof.
  assert (Forall (λ r, 0 < score r)
            (baseRanking minimatch api repo now prAuthor changedFiles config))
    as Hbase.
  { unfold baseRanking. apply rankCandidates_scores_pos; [done|].
    apply crossRepoExpertiseOf_pos. }
  split; [done|]. split.
  - unfold afterExclusion. rewrite Forall_forall in Hbase. apply Forall_forall.
    intros r Hr. apply Hbase. exact (excludeFilter_subseteq _ _ _ Hr).
  - intros fileAuthors rules files latencyMap weights cross tz required Hw Hc.
    split.
    + intros l pts reason. by apply Signal_pts_pos.
    + by apply rankCandidates_scores_pos.
Qed.

Lemma pre_penalty_scores_positive_witness :
  Forall (λ r, 0 < score r)
    (rankCandidates literalMatch None
       [{| path := "a.js"; authors := ["alice"; "bob"; "carol"; "dave"] |}]
       [] ["a.js"] [] defaultWeights [("erin", 7)] None ["bob"]).
Proof.
  apply (pre_penalty_scores_positive literalMatch quietApi "repo" 0 None []
           defaultConfig).
  - reflexivity.
  - intros k v [[= -> ->]|?%elem_of_nil]%elem_of_cons; [lia|done].
Defined.

(** ** Required reviewers in the final ranking *)

Lemma parseCommaSeparated_lower s l :
  l ∈ parseCommaSeparated s → Str.toLowerCase l = l ∧ l ≠ EmptyString.
Proof.
  unfold parseCommaSeparated.
  intros [Hne (x & -> & _)%list_elem_of_fmap]%list_elem_of_filter.
  split; [apply toLowerCase_idemp|done].
Qed.

Lemma creditRequired_scoreOf_absent prAuthor required t l :
  l ∉ required → scoreOf (creditRequired prAuthor required t) l = scoreOf t l.
Proof.
  unfold creditRequired. revert t.
  induction required as [|x required IH]; intros t Hni; [done|].
  apply not_elem_of_cons in Hni as [Hne Hni]. simpl.
  rewrite IH by done. by apply requireOne_scoreOf_other.
Qed.

Lemma creditRequired_scoreOf_once prAuthor required t l :
  scorable prAuthor l → countOf l required = 1 →
  scoreOf (creditRequired prAuthor required t) l
  = if scoreOf t l =? 0 then 10 else scoreOf t l + 5.
Proof.
  intros Hl. unfold creditRequired. revert t.
  induction required as [|x required IH]; intros t Hc; [done|].
  rewrite countOf_cons in Hc. simpl. destruct (decide (x = l)) as [->|Hne].
  - assert (l ∉ required) as Hni.
    { intros Hin%countOf_pos. lia. }
    fold (creditRequired prAuthor required (requireOne prAuthor t l)).
    rewrite creditRequired_scoreOf_absent by done.
    by apply requireOne_scoreOf_same.
  - rewrite IH by lia. by rewrite requireOne_scoreOf_other.
Qed.

Lemma rankCandidates_candidate minimatch prAuthor fileAuthors rules files
    latencyMap weights cross tz required l :
  let t := tally minimatch prAuthor fileAuthors rules files latencyMap weights
             cross tz required in
  l ∈ mkeys (scores t) →
  ∃ r, r ∈ rankCandidates minimatch prAuthor fileAuthors rules files latencyMap
             weights cross tz required
       ∧ login r = l ∧ score r = scoreOf t l ∧ reasons r = reasonsFor t l.
Proof.
  intros t [v Hv]%elem_of_mkeys. exists (toCandidate t (l, v)).
  split; [|split; [done|split; [|done]]].
  - unfold rankCandidates. apply list_elem_of_fmap. exists (l, v).
    split; [done|]. apply elem_of_stableSort. by apply mget_elem_of.
  - unfold scoreOf. by rewrite Hv.
Qed.

Section pipeline_tracking.
Variable minimatch : string → string → bool.
Variable api : Api.
Variable repo : string.
Variable now : Z.
Variable prAuthor : option string.
Variable changedFiles : list string.
Variable config : Config.

Lemma afterExclusion_survives r :
  r ∈ afterExclusion minimatch api repo now prAuthor changedFiles config →
  ∃ r', r' ∈ finalRanking minimatch api repo now prAuthor changedFiles config
        ∧ login r' = login r ∧ reasons r ⊆ reasons r'.
Proof.
  intros Hr.
  assert (∃ r1, r1 ∈ afterLoad minimatch api repo now prAuthor changedFiles config
                ∧ login r1 = login r ∧ reasons r1 = reasons r)
    as (r1 & Hr1 & Hl1 & Hrs1).
  { unfold afterLoad. destruct (penalizeLoad config); [|by exists r].
    destruct (computeOpenReviewCounts api) as [lc|]; simpl; [|by exists r].
    exists (loadOne lc r). split; [|done].
    apply elem_of_stableSort, list_elem_of_fmap. by exists r. }
  exists (flakyOne (flakyReviewersOf api now config) r1). split; [|split].
  - unfold finalRanking. rewrite flakyPenalty_Permutation.
    apply list_elem_of_fmap. by exists r1.
  - by rewrite login_flakyOne.
  - rewrite <- Hrs1. unfold flakyOne. case_bool_decide; [|done].
    simpl. intros x Hx. apply elem_of_app. by left.
Qed.

End pipeline_tracking.

(** C5, as the code has it.  A required login that is not the author, is
    not bot-like and whose lower-case form is not in the exclusion set (the
    logins that [parseCommaSeparated] yields are in lower case) is in the
    final ranking before truncation, with the reason "required reviewer".
    At the required-reviewer step every listing of the login gives it 10
    points when its score is zero at that listing and 5 points otherwise:
    a login listed once goes from zero to exactly 10 or gains exactly 5; a
    login listed [k] times goes from zero to [10 + 5 (k - 1)] or gains
    [5 k]. *)
Theorem required_reviewers_ranked
    (minimatch : string → string → bool) (api : Api) (repo : string) (now : Z)
    (prAuthor : option string) (changedFiles : list string) (config : Config)
    (l : string) :
  l ∈ requiredReviewers config →
  scorable prAuthor l →
  Str.toLowerCase l ∉ excludedOf api config →
  (∃ r, r ∈ finalRanking minimatch api repo now prAuthor changedFiles config
        ∧ login r = l ∧ "required reviewer" ∈ reasons r)
  ∧ (∀ fileAuthors rules files latencyMap weights cross tz required,
       let t0 := tallySignals minimatch prAuthor fileAuthors rules files
                   latencyMap weights cross tz in
       let t1 := tally minimatch prAuthor fileAuthors rules files latencyMap
                   weights cross tz required in
       (countOf l required = 1 →
        scoreOf t1 l = if scoreOf t0 l =? 0 then 10 else scoreOf t0 l + 5)
       ∧ (0 ≤ scoreOf t0 l →
          scoreOf t1 l = requiredTotal (scoreOf t0 l) (countOf l required))
       ∧ (l ∈ required → "required reviewer" ∈ reasonsFor t1 l))
  ∧ (∀ s, l ∈ parseCommaSeparated s → Str.toLowerCase l = l).
Proof.
  intros Hreq Hl Hex. split; [|split].
  - destruct (rankCandidates_candidate minimatch prAuthor
                (fileAuthorsOf api repo changedFiles config)
                (codeownersRulesOf api config)
                (filesToCheck changedFiles config)
                (latencyMapOf api now config) (weightsOf config)
                (crossRepoExpertiseOf api changedFiles config)
                (timezoneDataOf api repo changedFiles config)
                (requiredReviewers config) l) as (r & Hr & Hlr & _ & Hrs).
    { by apply creditRequired_keys. }
    destruct (afterExclusion_survives minimatch api repo now prAuthor
                changedFiles config r) as (r' & Hr' & Hl' & Hsub).
    { unfold afterExclusion, excludeFilter. apply list_elem_of_filter.
      split; [by rewrite Hlr|done]. }
    exists r'. split; [done|]. split; [congruence|].
    apply Hsub. rewrite Hrs. by apply creditRequired_reason.
  - intros fileAuthors rules files latencyMap weights cross tz required t0 t1.
    split; [|split].
    + intros Hc. by apply creditRequired_scoreOf_once.
    + intros Hnn. by apply creditRequired_scoreOf.
    + intros Hin. by apply creditRequired_reason.
  - intros s Hin. by apply parseCommaSeparated_lower in Hin as [? _].
Qed.

Lemma required_reviewers_ranked_witness :
  ∃ r, r ∈ finalRanking literalMatch quietApi "repo" 0 (Some "alice") ["a.js"]
             requiredConfig
       ∧ login r = "bob" ∧ "required reviewer" ∈ reasons r.
Proof.
  apply (required_reviewers_ranked literalMatch quietApi "repo" 0 (Some "alice")
           ["a.js"] requiredConfig "bob").
  - by eapply bool_decide_eq_true_1.
  - split; [reflexivity|discriminate].
  - by eapply bool_decide_eq_false_1.
Defined.

(** C5, as stated, fails: a login that the list names twice and that has no
    score before the step leaves it with 15 points, not 10. *)
Lemma required_listed_twice_gets_15 :
  parseCommaSeparated "alice, Alice" = ["alice"; "alice"]
  ∧ ¬ (∀ prAuthor required t l,
         scorable prAuthor l → l ∈ required → scoreOf t l = 0 →
         scoreOf (creditRequired prAuthor required t) l = 10)
  ∧ map (λ r, (login r, score r))
        (rankCandidates literalMatch None [] [] [] [] defaultWeights [] None
           (parseCommaSeparated "alice, Alice"))
    = [("alice", 15)].
Proof.
  split; [reflexivity|]. split; [|reflexivity].
  intros H. specialize (H None ["alice"; "alice"] emptyTally "alice").
  assert (scoreOf (creditRequired None ["alice"; "alice"] emptyTally) "alice"
          = 15) as Heq by reflexivity.
  rewrite Heq in H. enough (15 = 10) by lia. apply H.
  - split; [reflexivity|discriminate].
  - by left.
  - reflexivity.
Qed.

(** ** Exclusion *)

Example fetchExcludedReviewers_inline :
  fetchExcludedReviewers (configApi inlineConfigText) ["Alice"]
  = {[ "alice"; "dave"; "erin" ]}.
Proof. vm_compute. reflexivity. Qed.

Example fetchExcludedReviewers_block :
  fetchExcludedReviewers (configApi blockConfigText) ["Alice"]
  = {[ "alice"; "dave"; "erin" ]}.
Proof. vm_compute. reflexivity. Qed.

Lemma addUser_lower s u : lowerSet s → lowerSet (addUser s u).
Proof.
  intros Hs l. unfold addUser, cleanUser.
  destruct (Str.toLowerCase _) eqn:Hu; [apply Hs|].
  intros [->%elem_of_singleton|?]%elem_of_union; [|by apply Hs].
  rewrite <- Hu. apply toLowerCase_idemp.
Qed.

Lemma addUser_mono s u l : l ∈ s → l ∈ addUser s u.
Proof.
  intros Hl. unfold addUser. destruct (cleanUser u); [done|].
  apply elem_of_union. by right.
Qed.

Lemma configExcludes_lower s text : lowerSet s → lowerSet (configExcludes s text).
Proof.
  intros Hs. unfold configExcludes.
  destruct (Str.firstMatch inlineExcludeAt text).
  - apply (foldl_invariant lowerSet); [done|].
    intros s' u _ Hs'. by apply addUser_lower.
  - apply (foldl_invariant (λ st : bool * gset string, lowerSet st.2)); [done|].
    intros [b s'] line _ Hs'. unfold blockStep. cbn [snd] in *.
    repeat case_match; cbn [snd]; try done. by apply addUser_lower.
Qed.

Lemma configExcludes_mono s text l : l ∈ s → l ∈ configExcludes s text.
Proof.
  intros Hl. unfold configExcludes.
  destruct (Str.firstMatch inlineExcludeAt text).
  - apply (foldl_invariant (λ s', l ∈ s')); [done|].
    intros s' u _ Hs'. by apply addUser_mono.
  - apply (foldl_invariant (λ st : bool * gset string, l ∈ st.2)); [done|].
    intros [b s'] line _ Hs'. unfold blockStep. cbn [snd] in *.
    repeat case_match; cbn [snd]; try done. by apply addUser_mono.
Qed.

Lemma fetchExcludedReviewers_lower api inputExcludes :
  lowerSet (fetchExcludedReviewers api inputExcludes).
Proof.
  unfold fetchExcludedReviewers.
  assert (lowerSet (list_to_set (map Str.toLowerCase inputExcludes))) as H0.
  { intros l (x & -> & _)%elem_of_list_to_set%list_elem_of_fmap.
    apply toLowerCase_idemp. }
  destruct (tryFetchFileText api _); [by apply configExcludes_lower|done].
Qed.

Lemma fetchExcludedReviewers_input api inputExcludes x :
  x ∈ inputExcludes →
  Str.toLowerCase x ∈ fetchExcludedReviewers api inputExcludes.
Proof.
  intros Hx. unfold fetchExcludedReviewers.
  assert (Str.toLowerCase x
            ∈ (list_to_set (map Str.toLowerCase inputExcludes) : gset string))
    as H0.
  { apply elem_of_list_to_set, list_elem_of_fmap. by exists x. }
  destruct (tryFetchFileText api _); [by apply configExcludes_mono|done].
Qed.

Lemma excludeFilter_drop excluded pre x post :
  Str.toLowerCase (login x) ∈ excluded →
  excludeFilter excluded (pre ++ x :: post) = excludeFilter excluded (pre ++ post).
Proof.
  intros Hx. unfold excludeFilter. rewrite !filter_app. f_equal.
  by rewrite filter_cons_False by (intros H; by apply H).
Qed.

Lemma excludeFilter_spec excluded ranked r :
  r ∈ excludeFilter excluded ranked ↔
  r ∈ ranked ∧ Str.toLowerCase (login r) ∉ excluded.
Proof. unfold excludeFilter. rewrite list_elem_of_filter. tauto. Qed.

Section pipeline_exclusion.
Variable minimatch : string → string → bool.
Variable api : Api.
Variable repo : string.
Variable now : Z.
Variable prAuthor : option string.
Variable changedFiles : list string.
Variable config : Config.

Lemma finalRanking_afterRanking :
  finalRanking minimatch api repo now prAuthor changedFiles config
  = afterRanking (excludedOf api config) (penalizeLoad config)
      (computeOpenReviewCounts api) (flakyReviewersOf api now config)
      (baseRanking minimatch api repo now prAuthor changedFiles config).
Proof. reflexivity. Qed.

Lemma finalRanking_not_excluded r :
  r ∈ finalRanking minimatch api repo now prAuthor changedFiles config →
  Str.toLowerCase (login r) ∉ excludedOf api config.
Proof.
  intros Hr.
  assert (login r ∈ map login (finalRanking minimatch api repo now prAuthor
                                 changedFiles config)) as Hl.
  { apply list_elem_of_fmap. by exists r. }
  rewrite finalRanking_logins in Hl.
  apply list_elem_of_fmap in Hl as (r0 & -> & Hr0).
  by apply excludeFilter_spec in Hr0 as [_ ?].
Qed.

End pipeline_exclusion.

(** C6, as the code has it.  The exclusion set holds the input exclusions
    in lower case, and all its members are in lower case.  The final
    ranking is computed from the ranking of [rankCandidates] by first
    removing every candidate whose lower-case login is in the set, then
    applying the load and flaky penalties; the confidence is computed from
    that final ranking.  No candidate of the final ranking or of the
    suggestions has its login in the set, and a candidate with an excluded
    login, wherever it stands in the ranking of [rankCandidates], changes
    nothing of what follows: the scores that the confidence reads are
    never those of an excluded login. *)
Theorem excluded_never_in_output
    (minimatch : string → string → bool) (api : Api) (repo : string) (now : Z)
    (prAuthor : option string) (changedFiles : list string) (config : Config) :
  let excluded := excludedOf api config in
  let final := finalRanking minimatch api repo now prAuthor changedFiles config in
  let result := analyzeReviewers minimatch api repo now prAuthor changedFiles
                  config in
  (∀ x, x ∈ excludeReviewersInput config → Str.toLowerCase x ∈ excluded)
  ∧ lowerSet excluded
  ∧ final = afterRanking excluded (penalizeLoad config)
              (computeOpenReviewCounts api) (flakyReviewersOf api now config)
              (baseRanking minimatch api repo now prAuthor changedFiles config)
  ∧ confidence result
    = computeConfidence minimatch final (filesToCheck changedFiles config)
        (codeownersRulesOf api config)
        (fileAuthorsOf api repo changedFiles config)
  ∧ Forall (λ r, (Str.toLowerCase (login r) ∉ excluded) ∧ (login r ∉ excluded))
      final
  ∧ Forall (λ r, (Str.toLowerCase (login r) ∉ excluded) ∧ (login r ∉ excluded))
      (suggestions result)
  ∧ (∀ penalize loadCounts flaky pre x post files rules fileAuthors,
       Str.toLowerCase (login x) ∈ excluded →
       afterRanking excluded penalize loadCounts flaky (pre ++ x :: post)
       = afterRanking excluded penalize loadCounts flaky (pre ++ post)
       ∧ computeConfidence minimatch
           (afterRanking excluded penalize loadCounts flaky (pre ++ x :: post))
           files rules fileAuthors
         = computeConfidence minimatch
             (afterRanking excluded penalize loadCounts flaky (pre ++ post))
             files rules fileAuthors).
Proof.
  intros excluded final result.
  assert (lowerSet excluded) as Hlow by apply fetchExcludedReviewers_lower.
  assert (Forall (λ r, (Str.toLowerCase (login r) ∉ excluded) ∧ (login r ∉ excluded))
            final) as Hfinal.
  { apply Forall_forall. intros r Hr%finalRanking_not_excluded.
    split; [done|]. intros Hin. apply Hr. by rewrite (Hlow _ Hin). }
  split; [intros x; apply fetchExcludedReviewers_input|].
  split; [done|]. split; [reflexivity|]. split; [reflexivity|].
  split; [done|]. split.
  - rewrite Forall_forall in Hfinal. apply Forall_forall. intros r Hr.
    apply Hfinal. exact (slice0_subseteq _ _ _ Hr).
  - intros penalize loadCounts flaky pre x post files rules fileAuthors Hx.
    unfold afterRanking. by rewrite !(excludeFilter_drop excluded pre x post).
Qed.

Lemma excluded_never_in_output_witness :
  afterRanking (excludedOf aliceApi excludeAliceConfig) true None ∅
    [aliceFirst; bobSecond]
  = afterRanking (excludedOf aliceApi excludeAliceConfig) true None ∅
      [bobSecond].
Proof.
  destruct (excluded_never_in_output literalMatch aliceApi "repo" 0 None
              ["a.js"] excludeAliceConfig) as (_ & _ & _ & _ & _ & _ & H).
  apply (H true None ∅ [] aliceFirst [bobSecond] [] [] []).
  by eapply bool_decide_eq_true_1.
Defined.

(** C6, as stated, fails on the confidence: alice is excluded, and the two
    repositories differ only in that she committed to the changed file in
    the first; the final ranking is the same, the confidence is not. *)
Lemma excluded_commits_change_confidence :
  "alice" ∈ excludedOf aliceApi excludeAliceConfig
  ∧ excludedOf aliceApi excludeAliceConfig
    = excludedOf nobodyApi excludeAliceConfig
  ∧ suggestions (analyzeReviewers literalMatch aliceApi "repo" 0 None ["a.js"]
                   excludeAliceConfig)
    = suggestions (analyzeReviewers literalMatch nobodyApi "repo" 0 None
                     ["a.js"] excludeAliceConfig)
  ∧ confidence (analyzeReviewers literalMatch aliceApi "repo" 0 None ["a.js"]
                  excludeAliceConfig) = Medium
  ∧ confidence (analyzeReviewers literalMatch nobodyApi "repo" 0 None ["a.js"]
                  excludeAliceConfig) = Low
  ∧ confidence (analyzeReviewers literalMatch aliceApi "repo" 0 None ["a.js"]
                  excludeAliceConfig)
    ≠ confidence (analyzeReviewers literalMatch nobodyApi "repo" 0 None
                    ["a.js"] excludeAliceConfig).
Proof.
  split; [by eapply bool_decide_eq_true_1|].
  repeat split; try (vm_compute; reflexivity).
  vm_compute. discriminate.
Qed.

(** ** Commit attribution *)

Section attribution_facts.
Variable prAuthor : option string.
Variable weights : Weights.

Lemma creditFrom_cons k t a authors :
  creditFrom prAuthor weights k t (a :: authors)
  = creditFrom prAuthor weights (S k)
      (add prAuthor t a (positionWeight k * commitHistory weights)
           "recent commits")
      authors.
Proof.
  unfold creditFrom. rewrite imap_cons. cbn [foldl snd fst].
  rewrite Nat.add_0_r. f_equal. apply imap_ext. intros i x _. simpl.
  f_equal. lia.
Qed.

Lemma creditFrom_scoreOf k t authors l :
  scorable prAuthor l →
  scoreOf (creditFrom prAuthor weights k t authors) l
  = scoreOf t l + creditAt k l authors * commitHistory weights.
Proof.
  intros Hl. revert k t. induction authors as [|a authors IH]; intros k t.
  - unfold creditFrom. simpl. lia.
  - rewrite creditFrom_cons, IH. cbn [creditAt].
    destruct (decide (a = l)) as [->|Hne].
    + rewrite add_scoreOf_same by done. lia.
    + rewrite add_scoreOf_other by done. lia.
Qed.

Lemma creditFrom_scoreOf_skip k t authors l :
  ¬ scorable prAuthor l → scoreOf (creditFrom prAuthor weights k t authors) l = scoreOf t l.
Proof.
  intros Hl. revert k t. induction authors as [|a authors IH]; intros k t;
    [done|].
  rewrite creditFrom_cons, IH. destruct (decide (a = l)) as [->|Hne].
  - by rewrite add_skip.
  - by rewrite add_scoreOf_other.
Qed.

Lemma creditFrom_reason k t authors l :
  scorable prAuthor l → l ∈ authors →
  "recent commits" ∈ reasonsFor (creditFrom prAuthor weights k t authors) l.
Proof.
  intros Hl. revert k t. induction authors as [|a authors IH]; intros k t Hin;
    [by apply elem_of_nil in Hin|].
  rewrite creditFrom_cons.
  destruct (decide (l ∈ authors)) as [Hin'|Hni]; [by apply IH|].
  apply elem_of_cons in Hin as [<-|?]; [|done].
  apply (foldl_invariant (λ t', "recent commits" ∈ reasonsFor t' l)).
  - by apply add_reasons_new.
  - intros t' ia _ Ht'. by apply add_reasons_mono.
Qed.

Lemma creditAuthors_creditFrom t fa :
  creditAuthors prAuthor weights t fa = creditFrom prAuthor weights 0 t (take 10 (authors fa)).
Proof. reflexivity. Qed.

Lemma creditAuthors_scoreOf t fa l :
  scorable prAuthor l →
  scoreOf (creditAuthors prAuthor weights t fa) l
  = scoreOf t l + commitCredit l (authors fa) * commitHistory weights.
Proof. intros Hl. rewrite creditAuthors_creditFrom. by apply creditFrom_scoreOf. Qed.

End attribution_facts.

Lemma humanLogin_Some o l : humanLogin o = Some l ↔ o = Some l ∧ isBotLogin l = false.
Proof.
  unfold humanLogin, truthy. destruct o as [[|c s]|].
  - split; [done|]. intros [[= <-] Hb]. discriminate Hb.
  - destruct (isBotLogin (String c s)) eqn:Hb.
    + split; [done|]. intros [[= <-] ?]. congruence.
    + split; [by intros [= <-]|by intros [[= <-] _]].
  - split; [done|by intros [? _]].
Qed.

Lemma countOf_commit_authors l (resp : list Commit) :
  isBotLogin l = false →
  countOf l (omap (λ c, humanLogin (c_login c)) resp)
  = Z.of_nat (length (filter (λ c, c_login c = Some l) resp)).
Proof.
  intros Hl. induction resp as [|c resp IH]; [done|].
  cbn [omap list_omap]. destruct (humanLogin (c_login c)) as [l'|] eqn:Hh.
  - rewrite countOf_cons, IH. apply humanLogin_Some in Hh as [Hc Hb].
    destruct (decide (l' = l)) as [->|Hne].
    + rewrite filter_cons_True by done. simpl length. lia.
    + rewrite filter_cons_False by congruence. lia.
  - rewrite IH. rewrite filter_cons_False; [done|].
    intros Hc. assert (humanLogin (c_login c) = Some l) as Hs
      by (by apply humanLogin_Some). congruence.
Qed.

Lemma fileAuthorsOf_elem_of api repo changedFiles config fa :
  fa ∈ fileAuthorsOf api repo changedFiles config →
  path fa ∈ filesToCheck changedFiles config
  ∧ topCommitAuthorsForPath api repo (path fa) 30 = Some (authors fa)
  ∧ authors fa ≠ [].
Proof.
  unfold fileAuthorsOf.
  generalize (filesToCheck changedFiles config) as files. intros files.
  revert fa. apply (foldl_invariant (λ fas, ∀ fa, fa ∈ fas → _)).
  - intros fa Hin. by apply elem_of_nil in Hin.
  - intros fas p Hp Hfas fa.
    destruct (topCommitAuthorsForPath api repo p 30) as [[|a au]|] eqn:Ht;
      [apply Hfas| |apply Hfas].
    intros [?|Heq%list_elem_of_singleton]%elem_of_app; [by apply Hfas|].
    subst fa. done.
Qed.

(** C7, as the code has it.  The collector returns the login of every
    commit whose author is present and not bot-like, one entry for every
    commit and in the order of the answer: a login occurs as often as it
    has commits.  The analysis keeps the paths with at least one such
    entry.  The entry at the first position is worth 3, at the second 2 and
    at every later one 1; a login that can be scored receives, for a path,
    the weights of all the positions it holds among the first ten entries,
    times the commit-history weight, which the analysis sets to 1, with the
    reason "recent commits"; the author and bot-like logins receive
    nothing. *)
Theorem commit_attribution_by_position
    (prAuthor : option string) (weights : Weights) (api : Api) (repo : string)
    (changedFiles : list string) (config : Config) :
  (∀ path cap resp,
     listCommits api repo path cap = Some resp →
     topCommitAuthorsForPath api repo path cap
     = Some (omap (λ c, humanLogin (c_login c)) resp)
     ∧ ∀ l, isBotLogin l = false →
            countOf l (omap (λ c, humanLogin (c_login c)) resp)
            = Z.of_nat (length (filter (λ c, c_login c = Some l) resp)))
  ∧ (∀ fa, fa ∈ fileAuthorsOf api repo changedFiles config →
       path fa ∈ filesToCheck changedFiles config
       ∧ topCommitAuthorsForPath api repo (path fa) 30 = Some (authors fa)
       ∧ authors fa ≠ [])
  ∧ positionWeight 0 = 3 ∧ positionWeight 1 = 2
  ∧ (∀ i, (2 ≤ i)%nat → positionWeight i = 1)
  ∧ (∀ t fa l,
       scorable prAuthor l →
       scoreOf (creditAuthors prAuthor weights t fa) l
       = scoreOf t l + commitCredit l (authors fa) * commitHistory weights
       ∧ (l ∈ take 10 (authors fa) →
          "recent commits" ∈ reasonsFor (creditAuthors prAuthor weights t fa) l))
  ∧ (∀ t fa l,
       ¬ scorable prAuthor l →
       scoreOf (creditAuthors prAuthor weights t fa) l = scoreOf t l)
  ∧ commitHistory (weightsOf config) = 1.
Proof.
  split.
  { intros path cap resp Hresp. unfold topCommitAuthorsForPath. rewrite Hresp.
    split; [done|]. intros l Hl. by apply countOf_commit_authors. }
  split; [intros fa; apply fileAuthorsOf_elem_of|].
  split; [done|]. split; [done|].
  split; [intros i Hi; unfold positionWeight; lia|].
  split; [|split; [|done]].
  - intros t fa l Hl. split; [by apply creditAuthors_scoreOf|].
    intros Hin. rewrite creditAuthors_creditFrom. by apply creditFrom_reason.
  - intros t fa l Hl. rewrite creditAuthors_creditFrom.
    by apply creditFrom_scoreOf_skip.
Qed.

Lemma commit_attribution_by_position_witness :
  scoreOf (creditAuthors None defaultWeights emptyTally
             {| path := "a.js"; authors := ["alice"; "alice"; "bob"] |}) "alice"
  = 5.
Proof.
  destruct (commit_attribution_by_position None defaultWeights twoCommitsApi
              "repo" ["a.js"] defaultConfig) as (_ & _ & _ & _ & _ & H & _).
  destruct (H emptyTally {| path := "a.js"; authors := ["alice"; "alice"; "bob"] |}
              "alice") as [Hs _].
  - split; [reflexivity|discriminate].
  - rewrite Hs. reflexivity.
Defined.

(** C7, as stated, fails: the authors of a path are not deduplicated.
    alice wrote the two last commits and bob the one before: the engine
    gives alice 3 + 2 and bob 1, where the distinct authors would get 3
    and 2. *)
Lemma commit_authors_not_deduplicated :
  topCommitAuthorsForPath twoCommitsApi "repo" "a.js" 30
  = Some ["alice"; "alice"; "bob"]
  ∧ ¬ (∀ api repo path cap authors,
         topCommitAuthorsForPath api repo path cap = Some authors →
         NoDup authors)
  ∧ map (λ r, (login r, score r))
        (baseRanking literalMatch twoCommitsApi "repo" 0 None ["a.js"]
           defaultConfig)
    = [("alice", 5); ("bob", 1)]
  ∧ map (λ r, (login r, score r))
        (rankCandidates literalMatch None
           [{| path := "a.js";
               authors := distinctAuthors ["alice"; "alice"; "bob"] |}]
           [] ["a.js"] [] defaultWeights [] None [])
    = [("alice", 3); ("bob", 2)]
  ∧ map (λ r, (login r, score r))
        (baseRanking literalMatch twoCommitsApi "repo" 0 None ["a.js"]
           defaultConfig)
    ≠ map (λ r, (login r, score r))
        (rankCandidates literalMatch None
           [{| path := "a.js";
               authors := distinctAuthors ["alice"; "alice"; "bob"] |}]
           [] ["a.js"] [] defaultWeights [] None []).
Proof.
  split; [reflexivity|].
  split; [|split; [|split]]; try (vm_compute; reflexivity).
  - intros H. specialize (H twoCommitsApi "repo" "a.js" 30 _ eq_refl).
    apply NoDup_cons in H as [Hni _]. apply Hni. by left.
  - vm_compute. discriminate.
Qed.

(** ** The median *)

Lemma Qle_bool_total x y : Qle_bool x y = true ∨ Qle_bool y x = true.
Proof.
  destruct (Qlt_le_dec y x) as [?%Qlt_le_weak|?]; [right|left];
    by apply Qle_bool_iff.
Qed.

Lemma Qle_bool_trans x y z :
  Qle_bool x y = true → Qle_bool y z = true → Qle_bool x z = true.
Proof. rewrite !Qle_bool_iff. apply Qle_trans. Qed.

Lemma sortAsc_ascending arr : ascending (sortAsc arr).
Proof.
  intros i j x y Hij Hx Hy. apply Qle_bool_iff.
  by apply (stableSort_sorted Qle_bool Qle_bool_total Qle_bool_trans arr i j).
Qed.

Lemma sortAsc_Permutation arr : sortAsc arr ≡ₚ arr.
Proof. apply stableSort_Permutation. Qed.

Lemma median_nil : median [] = None.
Proof. done. Qed.

Lemma median_None arr : median arr = None ↔ arr = [].
Proof.
  split; [|by intros ->]. destruct arr as [|x arr]; [done|].
  unfold median. by destruct (negb _).
Qed.

Lemma length_sortAsc arr : length (sortAsc arr) = length arr.
Proof. apply length_stableSort. Qed.

Lemma median_odd arr :
  (length arr mod 2 = 1)%nat →
  median arr = Some (nth (length arr / 2) (sortAsc arr) 0%Q).
Proof.
  intros Hodd. destruct arr as [|x arr]; [done|].
  unfold median. cbv zeta. rewrite length_sortAsc. by rewrite Hodd.
Qed.

Lemma median_even arr :
  arr ≠ [] → (length arr mod 2 = 0)%nat →
  median arr
  = Some ((nth (length arr / 2 - 1) (sortAsc arr) 0%Q
           + nth (length arr / 2) (sortAsc arr) 0%Q) / 2)%Q.
Proof.
  intros Hne Heven. destruct arr as [|x arr]; [done|].
  unfold median. cbv zeta. rewrite length_sortAsc. by rewrite Heven.
Qed.

Example median_examples :
  median [5; 1; 3]%Q = Some 3%Q
  ∧ median [4; 1; 3; 2]%Q = Some ((2 + 3) / 2)%Q
  ∧ median [7 # 2]%Q = Some (7 # 2)%Q.
Proof. repeat split; reflexivity. Qed.

(** ** The latency bonus *)

Lemma latencyBonusHours_steps m :
  ((m <= 4)%Q → latencyBonusHours m = 6)
  ∧ ((4 < m)%Q → (m <= 12)%Q → latencyBonusHours m = 4)
  ∧ ((12 < m)%Q → (m <= 24)%Q → latencyBonusHours m = 2)
  ∧ ((24 < m)%Q → (m <= 48)%Q → latencyBonusHours m = 1)
  ∧ ((48 < m)%Q → latencyBonusHours m = 0).
Proof.
  unfold latencyBonusHours.
  assert (∀ a b : Q, (a <= b)%Q → Qle_bool a b = true) as Ht
    by (intros a b; apply Qle_bool_iff).
  assert (∀ a b : Q, (b < a)%Q → Qle_bool a b = false) as Hf.
  { intros a b Hlt. destruct (Qle_bool a b) eqn:Hb; [|done].
    apply Qle_bool_iff in Hb. by apply Qlt_not_le in Hlt. }
  repeat split; intros.
  - by rewrite Ht.
  - by rewrite Hf, Ht.
  - rewrite (Hf m 4%Q) by lra. by rewrite Hf, Ht.
  - rewrite (Hf m 4%Q), (Hf m 12%Q) by lra. by rewrite Hf, Ht.
  - rewrite (Hf m 4%Q), (Hf m 12%Q), (Hf m 24%Q) by lra. by rewrite Hf.
Qed.

(** ** The latency of a reviewer *)

Lemma firstStep_get m r l :
  mget (firstStep m r) l
  = if bool_decide (humanLogin (r_login r) = Some l)
    then match r_submitted_at r with
         | Some t => minOpt (mget m l) t
         | None => mget m l
         end
    else mget m l.
Proof.
  unfold firstStep. destruct (humanLogin (r_login r)) as [k|] eqn:Hk;
    [|by rewrite bool_decide_eq_false_2].
  destruct (r_submitted_at r) as [t|]; [|by case_bool_decide].
  case_bool_decide as Hl.
  - injection Hl as ->. unfold minOpt.
    destruct (mget m l) as [e|] eqn:He; [|by rewrite mget_mset_eq].
    destruct (Z.ltb_spec t e).
    + rewrite mget_mset_eq. f_equal. lia.
    + rewrite He. f_equal. lia.
  - assert (k ≠ l) by congruence.
    destruct (mget m k) as [e|]; [|by rewrite mget_mset_ne].
    destruct (t <? e); [by rewrite mget_mset_ne|done].
Qed.

Lemma firstStep_NoDup m r : NoDup (mkeys m) → NoDup (mkeys (firstStep m r)).
Proof.
  intros Hm. unfold firstStep. repeat case_match; try done;
    by apply NoDup_mkeys_mset.
Qed.

Lemma foldl_firstStep_get m reviews l :
  mget (foldl firstStep m reviews) l = foldl minOpt (mget m l) (timesOf l reviews).
Proof.
  unfold timesOf. revert m. induction reviews as [|r reviews IH]; intros m; [done|].
  cbn [foldl omap list_omap]. rewrite IH, firstStep_get.
  case_bool_decide; [|done]. by destruct (r_submitted_at r).
Qed.

Lemma foldl_firstStep_NoDup reviews : NoDup (mkeys (foldl firstStep [] reviews)).
Proof.
  apply (foldl_invariant (λ m : jsmap Z, NoDup (mkeys m))); [apply NoDup_nil_2|].
  intros m r _ Hm. by apply firstStep_NoDup.
Qed.

Lemma pushHours_get c m e l :
  default [] (mget (pushHours c m e) l)
  = default [] (mget m l) ++ (if decide (e.1 = l) then hoursIf c e.2 else []).
Proof.
  unfold pushHours, hoursIf. destruct (Qle_bool _ _).
  - rewrite mget_mset. destruct (decide (e.1 = l)) as [->|]; [done|].
    by rewrite app_nil_r.
  - destruct (decide (e.1 = l)); by rewrite app_nil_r.
Qed.

Lemma foldl_pushHours_get c m es l :
  NoDup (mkeys es) →
  default [] (mget (foldl (pushHours c) m es) l)
  = default [] (mget m l)
    ++ match mget es l with Some t => hoursIf c t | None => [] end.
Proof.
  revert m. induction es as [|[k t] es IH]; intros m Hnd.
  - simpl. by rewrite app_nil_r.
  - apply NoDup_cons in Hnd as [Hk Hnd]. cbn [foldl mget].
    rewrite IH, pushHours_get by done. simpl.
    destruct (decide (k = l)) as [->|Hne].
    + assert (mget es l = None) as ->.
      { apply eq_None_not_Some. by rewrite <- elem_of_mkeys. }
      by rewrite app_nil_r.
    + by rewrite app_nil_r.
Qed.

Lemma pushHours_inv c m e :
  NoDup (mkeys m) ∧ nonemptyValues m →
  NoDup (mkeys (pushHours c m e)) ∧ nonemptyValues (pushHours c m e).
Proof.
  intros [Hnd Hne]. unfold pushHours. destruct (Qle_bool _ _); [|done].
  split; [by apply NoDup_mkeys_mset|].
  intros k arr. rewrite mget_mset. destruct (decide (e.1 = k)); [|apply Hne].
  intros [= <-]. by destruct (default [] _).
Qed.

Lemma latencyStep_inv api since m pr :
  NoDup (mkeys m) ∧ nonemptyValues m →
  NoDup (mkeys (latencyStep api since m pr))
  ∧ nonemptyValues (latencyStep api since m pr).
Proof.
  intros Hm. unfold latencyStep. case_bool_decide; [done|].
  destruct (_ <? _); [done|]. destruct (listReviews api _); [|done].
  apply (foldl_invariant (λ m, NoDup (mkeys m) ∧ nonemptyValues m)); [done|].
  intros m' e _ Hm'. by apply pushHours_inv.
Qed.

Lemma perReviewerHours_inv api since pulls :
  NoDup (mkeys (perReviewerHours api since pulls))
  ∧ nonemptyValues (perReviewerHours api since pulls).
Proof.
  unfold perReviewerHours.
  apply (foldl_invariant (λ m, NoDup (mkeys m) ∧ nonemptyValues m)).
  - split; [apply NoDup_nil_2|done].
  - intros m pr _ Hm. by apply latencyStep_inv.
Qed.

Lemma latencyStep_get api since m pr l :
  default [] (mget (latencyStep api since m pr) l)
  = default [] (mget m l) ++ option_list (sampleOf api since l pr).
Proof.
  unfold latencyStep, sampleOf. case_bool_decide; [by rewrite app_nil_r|].
  destruct (_ <? _); [by rewrite app_nil_r|].
  destruct (listReviews api _) as [reviews|]; [|by rewrite app_nil_r].
  rewrite foldl_pushHours_get by apply foldl_firstStep_NoDup.
  rewrite foldl_firstStep_get. cbn [mget]. fold (earliestOf l reviews). f_equal.
  destruct (earliestOf l reviews) as [t|]; [|done].
  unfold hoursIf. by destruct (Qle_bool _ _).
Qed.

Lemma perReviewerHours_get api since pulls l :
  default [] (mget (perReviewerHours api since pulls) l)
  = sampledHours api since pulls l.
Proof.
  unfold perReviewerHours, sampledHours.
  assert (∀ m, default [] (mget (foldl (latencyStep api since) m pulls) l)
               = default [] (mget m l) ++ omap (sampleOf api since l) pulls) as H.
  { induction pulls as [|pr pulls IH]; intros m; simpl.
    - by rewrite app_nil_r.
    - rewrite IH, latencyStep_get, <- app_assoc. f_equal.
      by destruct (sampleOf api since l pr). }
  by rewrite H.
Qed.

Lemma foldl_medianStep_get out per l :
  NoDup (mkeys per) →
  mget (foldl medianStep out per) l
  = match mget per l with
    | Some arr => match median arr with Some m => Some m | None => mget out l end
    | None => mget out l
    end.
Proof.
  revert out. induction per as [|[k arr] per IH]; intros out Hnd; [done|].
  apply NoDup_cons in Hnd as [Hk Hnd]. cbn [foldl mget]. rewrite IH by done.
  unfold medianStep. simpl. destruct (decide (k = l)) as [->|Hne].
  - assert (mget per l = None) as ->.
    { apply eq_None_not_Some. by rewrite <- elem_of_mkeys. }
    destruct (median arr); [by rewrite mget_mset_eq|done].
  - destruct (mget per l) as [arr'|].
    + destruct (median arr'); [done|].
      destruct (median arr); [by rewrite mget_mset_ne|done].
    + destruct (median arr); [by rewrite mget_mset_ne|done].
Qed.

Lemma computeReviewerLatencyHours_spec api now days cap pulls :
  listPulls api StClosed cap = Some pulls →
  ∃ out, computeReviewerLatencyHours api now days cap = Some out
    ∧ ∀ l, mget out l = median (sampledHours api (now - days * msPerDay) pulls l).
Proof.
  intros Hp. unfold computeReviewerLatencyHours. rewrite Hp.
  eexists. split; [done|]. intros l.
  destruct (perReviewerHours_inv api (now - days * msPerDay) pulls) as [Hnd Hne].
  rewrite foldl_medianStep_get by done.
  rewrite <- perReviewerHours_get.
  destruct (mget (perReviewerHours api _ pulls) l) as [arr|]; [|done].
  simpl. by destruct (median arr).
Qed.

Lemma timesOf_elem_of l reviews t :
  t ∈ timesOf l reviews ↔
  ∃ r, r ∈ reviews ∧ humanLogin (r_login r) = Some l
       ∧ r_submitted_at r = Some t.
Proof.
  unfold timesOf. rewrite list_elem_of_omap. split.
  - intros (r & Hr & Ht). exists r. split; [done|].
    case_bool_decide; [done|discriminate].
  - intros (r & Hr & Hl & Ht). exists r. split; [done|].
    by rewrite bool_decide_eq_true_2.
Qed.

Lemma foldl_minOpt_Some acc ts :
  acc ≠ None ∨ ts ≠ [] →
  ∃ t, foldl minOpt acc ts = Some t
       ∧ (acc = Some t ∨ t ∈ ts)
       ∧ (∀ a, acc = Some a → t ≤ a) ∧ (∀ t', t' ∈ ts → t ≤ t').
Proof.
  revert acc. induction ts as [|x ts IH]; intros acc Hne.
  - destruct acc as [a|]; [|by destruct Hne].
    exists a. split; [done|]. split; [by left|]. split.
    + by intros ? [= ->].
    + by intros t' ?%elem_of_nil.
  - simpl. destruct (IH (minOpt acc x)) as (t & Ht & Hin & Hacc & Hts);
      [by left|].
    exists t. split; [done|]. unfold minOpt in Hin, Hacc.
    specialize (Hacc _ eq_refl). split; [|split].
    + destruct Hin as [[= <-]|Hin]; [|by right; right].
      destruct acc as [a|]; [|by right; left].
      destruct (Z.min_spec a x) as [[_ ->]|[_ ->]]; [by left|by right; left].
    + intros a ->. lia.
    + intros t' [->|Hin']%elem_of_cons; [|by apply Hts].
      destruct acc; lia.
Qed.

(** The first review of a login is its earliest submission. *)
Lemma earliestOf_min l reviews :
  match earliestOf l reviews with
  | Some t => t ∈ timesOf l reviews ∧ ∀ t', t' ∈ timesOf l reviews → t ≤ t'
  | None => timesOf l reviews = []
  end.
Proof.
  unfold earliestOf. destruct (timesOf l reviews) as [|x ts] eqn:Hts; [done|].
  destruct (foldl_minOpt_Some None (x :: ts)) as (t & -> & [?|Hin] & _ & Hmin);
    [by right|done|done].
Qed.

(** ** The latency signal in the score *)

Lemma creditLatency_scoreOf prAuthor weights latencyMap t l :
  scorable prAuthor l → NoDup (mkeys latencyMap) →
  scoreOf (creditLatency prAuthor weights latencyMap t) l
  = scoreOf t l
    + match mget latencyMap l with
      | Some medHrs => latencyCredit weights medHrs
      | None => 0
      end.
Proof.
  intros Hl. unfold creditLatency, latencyCredit.
  destruct (0 <? latency weights); [|intros _; destruct (mget _ _); lia].
  revert t. induction latencyMap as [|[k m] lm IH]; intros t Hnd.
  - simpl. lia.
  - apply NoDup_cons in Hnd as [Hk Hnd]. cbn [foldl mget fst snd].
    rewrite IH by done. destruct (decide (k = l)) as [->|Hne].
    + assert (mget lm l = None) as ->.
      { apply eq_None_not_Some. by rewrite <- elem_of_mkeys. }
      destruct (0 <? _); [|lia]. rewrite add_scoreOf_same by done. lia.
    + destruct (0 <? latencyBonusHours m * latency weights); [|done].
      by rewrite add_scoreOf_other.
Qed.

Lemma computeReviewerLatencyHours_NoDup api now days cap out :
  computeReviewerLatencyHours api now days cap = Some out → NoDup (mkeys out).
Proof.
  unfold computeReviewerLatencyHours. destruct (listPulls api StClosed cap);
    [|done].
  intros [= <-]. apply (foldl_invariant (λ m : jsmap Q, NoDup (mkeys m)));
    [apply NoDup_nil_2|].
  intros m e _ Hm. unfold medianStep. destruct (median e.2); [|done].
  by apply NoDup_mkeys_mset.
Qed.

Lemma latencyCredit_default m :
  latencyCredit {| commitHistory := 1; codeowners := 4; latency := 1 |} m
  = latencyBonusHours m.
Proof.
  unfold latencyCredit. simpl. rewrite Z.mul_1_r.
  unfold latencyBonusHours. by repeat destruct (Qle_bool _ _).
Qed.

(** C8.  When the closed pull requests can be listed, the latency map holds
    for every login the median of its accumulated hours over the sampled
    pull requests, and no entry for a login without any sampled hours.
    The median of a list that is not empty is read in the list sorted in
    ascending order: its middle element when the length is odd, the mean
    of the two middle elements when it is even.  The bonus of a median is
    6 up to 4 hours, 4 up to 12, 2 up to 24, 1 up to 48 and 0 above; a
    login that can be scored gains the bonus of its median, times the
    latency weight, and nothing when the map has no entry for it. *)
Theorem latency_median_and_bonus
    (api : Api) (now days cap : Z) (pulls : list Pull) :
  listPulls api StClosed cap = Some pulls →
  (∃ out, computeReviewerLatencyHours api now days cap = Some out
     ∧ (∀ l, mget out l
             = median (sampledHours api (now - days * msPerDay) pulls l))
     ∧ (∀ l, mget out l = None
             ↔ sampledHours api (now - days * msPerDay) pulls l = []))
  ∧ (∀ arr, median arr = None ↔ arr = [])
  ∧ (∀ arr, sortAsc arr ≡ₚ arr ∧ ascending (sortAsc arr))
  ∧ (∀ arr, (length arr mod 2 = 1)%nat →
       median arr = Some (nth (length arr / 2) (sortAsc arr) 0%Q))
  ∧ (∀ arr, arr ≠ [] → (length arr mod 2 = 0)%nat →
       median arr
       = Some ((nth (length arr / 2 - 1) (sortAsc arr) 0%Q
                + nth (length arr / 2) (sortAsc arr) 0%Q) / 2)%Q)
  ∧ (∀ m, ((m <= 4)%Q → latencyBonusHours m = 6)
          ∧ ((4 < m)%Q → (m <= 12)%Q → latencyBonusHours m = 4)
          ∧ ((12 < m)%Q → (m <= 24)%Q → latencyBonusHours m = 2)
          ∧ ((24 < m)%Q → (m <= 48)%Q → latencyBonusHours m = 1)
          ∧ ((48 < m)%Q → latencyBonusHours m = 0))
  ∧ (∀ prAuthor weights out t l,
       scorable prAuthor l →
       computeReviewerLatencyHours api now days cap = Some out →
       scoreOf (creditLatency prAuthor weights out t) l
       = scoreOf t l
         + match mget out l with
           | Some medHrs => latencyCredit weights medHrs
           | None => 0
           end)
  ∧ (∀ m, latencyCredit defaultWeights m = latencyBonusHours m).
Proof.
  intros Hp. split.
  { destruct (computeReviewerLatencyHours_spec api now days cap pulls Hp)
      as (out & Hout & Hget).
    exists out. split; [done|]. split; [done|].
    intros l. rewrite Hget. apply median_None. }
  split; [apply median_None|].
  split; [intros arr; split; [apply sortAsc_Permutation|apply sortAsc_ascending]|].
  split; [apply median_odd|]. split; [apply median_even|].
  split; [apply latencyBonusHours_steps|].
  split; [|apply latencyCredit_default].
  intros prAuthor weights out t l Hl Hout. apply creditLatency_scoreOf; [done|].
  by eapply computeReviewerLatencyHours_NoDup.
Qed.

Lemma latency_median_and_bonus_witness :
  ∃ out m, computeReviewerLatencyHours latencyApi 0 90 20 = Some out
    ∧ mget out "carol" = Some m ∧ (m == 4)%Q
    ∧ mget out "dave" = None
    ∧ latencyBonusHours m = 6.
Proof.
  destruct (latency_median_and_bonus latencyApi 0 90 20 latencyPulls eq_refl)
    as ((out & Hout & Hget & Hnone) & _ & _ & _ & _ & Hbonus & _).
  exists out. eexists. split; [exact Hout|]. split; [|split; [|split]].
  - rewrite Hget. vm_compute. reflexivity.
  - reflexivity.
  - apply Hnone. reflexivity.
  - apply Hbonus. unfold Qle. simpl. lia.
Defined.

(** ** Confidence *)






Example confidence_examples :
  computeConfidence literalMatch
    [ {| login := "alice"; score := 12; reasons := []; openReviews := None |};
      {| login := "bob"; score := 9; reasons := []; openReviews := None |} ]
    ["a.js"; "b.js"] []
    [{| path := "a.js"; authors := ["alice"] |}] = High
  ∧ computeConfidence literalMatch
      [ {| login := "alice"; score := 12; reasons := []; openReviews := None |};
        {| login := "bob"; score := 10; reasons := []; openReviews := None |} ]
      ["a.js"; "b.js"] []
      [{| path := "a.js"; authors := ["alice"] |}] = Medium
  ∧ computeConfidence literalMatch
      [ {| login := "alice"; score := 5; reasons := []; openReviews := None |} ]
      ["a.js"; "b.js"] []
      [{| path := "a.js"; authors := ["alice"] |}] = Low.
Proof. repeat split; reflexivity. Qed.

(** ** The load penalty in binary64 *)

(** The same inputs evaluated with doubles: the score of 1 under 4 open
    reviews is rounded to 0 there too, and 40 under 10 gives 9.  The exact
    product and the double differ only next to a half: 4 under 5 is exactly
    1.5, rounded to 2, where the double is just below and rounded to 1. *)
Example load_penalty_binary64 :
  Math_round64 (applyLoadPenalty64 1 4) = Some 0
  ∧ Math_round64 (applyLoadPenalty64 40 10) = Some 9
  ∧ Math_round64 (applyLoadPenalty64 4 5) = Some 1
  ∧ Math_round (applyLoadPenalty 4 5) = 2.
Proof. repeat split; vm_compute; reflexivity. Qed.

(** ** The parsers on examples *)

Example normalizeCodeownersPattern_examples :
  normalizeCodeownersPattern "/docs/guide.md" = "docs/guide.md"
  ∧ normalizeCodeownersPattern "*.js" = "**/*.js".
Proof. split; reflexivity. Qed.

Example parseCodeowners_example :
  parseCodeowners (Some codeownersText)
  = [ {| pattern := "*.js"; owners := ["alice"; "org/team"];
         teams := ["org/team"] |};
      {| pattern := "src/api/*"; owners := ["bob"]; teams := [] |} ]
  ∧ parseCodeowners None = [].
Proof. split; vm_compute; reflexivity. Qed.

Example parseTimezoneOffset_examples :
  parseTimezoneOffset "UTC+5" = Some 5
  ∧ parseTimezoneOffset "utc-3" = Some (-3)
  ∧ parseTimezoneOffset "GMT / UTC+05:30" = Some 5
  ∧ parseTimezoneOffset "UTC" = None
  ∧ parseTimezoneOffset "Europe/Berlin" = None.
Proof. repeat split; vm_compute; reflexivity. Qed.

Example timezoneBonus_examples :
  timezoneBonus 9 5 = 3 ∧ timezoneBonus 15 5 = 1 ∧ timezoneBonus 21 5 = 0.
Proof. repeat split; reflexivity. Qed.

(** ** The whole analysis on an example *)

Example full_scenario :
  map (λ r, (login r, score r))
      (baseRanking literalMatch fullApi "repo" 0 (Some "author")
         ["src/api/users.ts"; "src/api/billing.ts"] fullConfig)
  = [("alice", 14); ("bob", 6); ("carol", 6); ("frank", 4); ("dave", 4);
     ("erin", 2)]
  ∧ analyzeReviewers literalMatch fullApi "repo" 0 (Some "author")
      ["src/api/users.ts"; "src/api/billing.ts"] fullConfig
    = {| suggestions :=
           [ {| login := "alice"; score := 8;
                reasons := ["recent commits"; "CODEOWNERS"; "timezone match"];
                openReviews := Some 2 |};
             {| login := "carol"; score := 6;
                reasons := ["fast reviewer (~2h median)"];
                openReviews := Some 0 |};
             {| login := "bob"; score := 5;
                reasons := ["recent commits"; "required reviewer"];
                openReviews := Some 1 |} ];
         confidence := Medium;
         teamCoverage := [] |}.
Proof. split; vm_compute; reflexivity. Qed.

(** * Further properties *)

(** ** Comma-separated inputs *)

Lemma trimStart_idemp s : Str.trimStart (Str.trimStart s) = Str.trimStart s.
Proof.
  induction s as [|c r IH]; [done|].
  simpl. destruct (Str.is_space c) eqn:Hc; [done|]. simpl. by rewrite Hc.
Qed.

Lemma trimEnd_idemp s : Str.trimEnd (Str.trimEnd s) = Str.trimEnd s.
Proof.
  induction s as [|c r IH]; [done|].
  cbn [Str.trimEnd]. destruct (Str.trimEnd r) as [|c' r'] eqn:Hr.
  - destruct (Str.is_space c) eqn:Hc; [done|]. cbn [Str.trimEnd]. by rewrite Hc.
  - cbn [Str.trimEnd]. cbn [Str.trimEnd] in IH.
    destruct (Str.trimEnd r') as [|c'' r''] eqn:Hr'.
    + destruct (Str.is_space c') eqn:Hc'; [done|]. by injection IH as ->.
    + by rewrite IH.
Qed.

Lemma trimStart_head s :
  match Str.trimStart s with
  | String c _ => Str.is_space c = false
  | EmptyString => True
  end.
Proof.
  induction s as [|c r IH]; [done|].
  simpl. destruct (Str.is_space c) eqn:Hc; [done|]. done.
Qed.

Lemma trimEnd_head c r :
  Str.is_space c = false → ∃ r', Str.trimEnd (String c r) = String c r'.
Proof.
  intros Hc. cbn [Str.trimEnd]. destruct (Str.trimEnd r) as [|c' r'].
  - rewrite Hc. by eexists.
  - by eexists.
Qed.

Lemma trim_idemp s : Str.trim (Str.trim s) = Str.trim s.
Proof.
  unfold Str.trim. pose proof (trimStart_head s) as Hh.
  destruct (Str.trimStart s) as [|c r]; [done|].
  destruct (trimEnd_head c r Hh) as [r' Hr']. rewrite Hr'.
  cbn [Str.trimStart]. rewrite Hh. rewrite <- Hr'. apply trimEnd_idemp.
Qed.

Lemma is_space_lower c : Str.is_space (Str.lower_ascii c) = Str.is_space c.
Proof. destruct c as [[] [] [] [] [] [] [] []]; reflexivity. Qed.

Lemma toLowerCase_trimStart s :
  Str.toLowerCase (Str.trimStart s) = Str.trimStart (Str.toLowerCase s).
Proof.
  induction s as [|c r IH]; [done|].
  simpl. rewrite is_space_lower. by destruct (Str.is_space c).
Qed.

Lemma toLowerCase_trimEnd s :
  Str.toLowerCase (Str.trimEnd s) = Str.trimEnd (Str.toLowerCase s).
Proof.
  induction s as [|c r IH]; [done|].
  cbn [Str.trimEnd Str.toLowerCase]. rewrite <- IH, is_space_lower.
  destruct (Str.trimEnd r); [by destruct (Str.is_space c)|done].
Qed.

Lemma toLowerCase_trim s : Str.toLowerCase (Str.trim s) = Str.trim (Str.toLowerCase s).
Proof. unfold Str.trim. by rewrite toLowerCase_trimEnd, toLowerCase_trimStart. Qed.

Lemma notComma_lower c : notComma (Str.lower_ascii c) = notComma c.
Proof. destruct c as [[] [] [] [] [] [] [] []]; reflexivity. Qed.

Lemma allChars_toLowerCase s :
  allChars notComma (Str.toLowerCase s) = allChars notComma s.
Proof.
  induction s as [|c r IH]; [done|]. simpl. by rewrite notComma_lower, IH.
Qed.

Lemma allChars_trimStart p s :
  allChars p s = true → allChars p (Str.trimStart s) = true.
Proof.
  induction s as [|c r IH]; [done|].
  simpl. intros [Hc Hr]%andb_true_iff. destruct (Str.is_space c); [by apply IH|].
  simpl. by rewrite Hc, Hr.
Qed.

Lemma allChars_trimEnd p s :
  allChars p s = true → allChars p (Str.trimEnd s) = true.
Proof.
  induction s as [|c r IH]; [done|].
  cbn [Str.trimEnd allChars]. intros [Hc Hr]%andb_true_iff.
  specialize (IH Hr). destruct (Str.trimEnd r) as [|c' r'].
  - destruct (Str.is_space c); [done|]. simpl. by rewrite Hc.
  - change (p c && allChars p (String c' r') = true). by rewrite Hc, IH.
Qed.

Lemma splitOn_pieces p s :
  Forall (λ w, allChars (λ c, negb (p c)) w = true) (Str.splitOn p s).
Proof.
  induction s as [|c r IH]; [by repeat constructor|].
  cbn [Str.splitOn]. destruct (p c) eqn:Hc.
  - by constructor.
  - destruct (Str.splitOn p r) as [|w ws]; [by repeat constructor; simpl; rewrite Hc|].
    apply Forall_cons in IH as [Hw Hws]. constructor; [|done].
    simpl. by rewrite Hc, Hw.
Qed.

Lemma append_nil_l s : EmptyString +:+ s = s.
Proof. reflexivity. Qed.

Lemma append_cons a x s : String a x +:+ s = String a (x +:+ s).
Proof. reflexivity. Qed.

Lemma splitOn_app_sep p x c s :
  allChars (λ c, negb (p c)) x = true → p c = true →
  Str.splitOn p (x +:+ String c s) = x :: Str.splitOn p s.
Proof.
  intros Hx Hc. induction x as [|a x IH].
  - rewrite append_nil_l. cbn [Str.splitOn]. by rewrite Hc.
  - rewrite append_cons. cbn [Str.splitOn].
    simpl in Hx. apply andb_true_iff in Hx as [Ha Hx].
    apply negb_true_iff in Ha. rewrite Ha, IH by done. done.
Qed.

Lemma splitOn_whole p x :
  allChars (λ c, negb (p c)) x = true → Str.splitOn p x = [x].
Proof.
  induction x as [|a x IH]; [done|].
  simpl. intros [Ha Hx]%andb_true_iff. apply negb_true_iff in Ha.
  by rewrite Ha, IH.
Qed.

Lemma split_join parts :
  parts ≠ [] → Forall (λ x, allChars notComma x = true) parts →
  Str.split "," (joinWith "," parts) = parts.
Proof.
  unfold Str.split. intros Hne Hall. induction Hall as [|x r Hx Hr IH]; [done|].
  destruct r as [|y r].
  - simpl. by apply splitOn_whole.
  - change (joinWith "," (x :: y :: r))
      with (x +:+ String ","%char (joinWith "," (y :: r))).
    rewrite splitOn_app_sep; [|done|by apply bool_decide_eq_true_2].
    by rewrite IH.
Qed.

Lemma parseCommaSeparated_clean s : Forall cleanEntry (parseCommaSeparated s).
Proof.
  apply Forall_forall. intros x. unfold parseCommaSeparated.
  intros [Hne (y & -> & Hy)%list_elem_of_fmap]%list_elem_of_filter.
  split; [done|]. split; [apply toLowerCase_idemp|]. split.
  - by rewrite <- toLowerCase_trim, trim_idemp.
  - rewrite allChars_toLowerCase. unfold Str.trim.
    apply allChars_trimEnd, allChars_trimStart.
    pose proof (splitOn_pieces (λ c, bool_decide (c = ","%char)) s) as Hp.
    rewrite Forall_forall in Hp. by apply Hp.
Qed.

Lemma parseCommaSeparated_join parts :
  Forall cleanEntry parts → parseCommaSeparated (joinWith "," parts) = parts.
Proof.
  intros Hall. destruct parts as [|x r]; [done|].
  unfold parseCommaSeparated. rewrite split_join; [|done|].
  - induction Hall as [|y l (Hne & Hlow & Htrim & _) Hl IH]; [done|].
    cbn [map]. rewrite Htrim, Hlow. rewrite filter_cons_True by done.
    by rewrite IH.
  - eapply Forall_impl; [exact Hall|]. by intros y (_ & _ & _ & ?).
Qed.

(** X1. [parseCommaSeparated] yields only clean entries: not empty, in
    lower case, without white space around them and without a comma; the
    empty input yields no entry; a list of clean entries joined by commas
    is read back as it is, so reading is idempotent. *)
Theorem parseCommaSeparated_roundtrip (s : string) (parts : list string) :
  Forall cleanEntry (parseCommaSeparated s)
  ∧ parseCommaSeparated EmptyString = []
  ∧ (Forall cleanEntry parts → parseCommaSeparated (joinWith "," parts) = parts)
  ∧ parseCommaSeparated (joinWith "," (parseCommaSeparated s))
    = parseCommaSeparated s.
Proof.
  split; [apply parseCommaSeparated_clean|]. split; [done|].
  split; [apply parseCommaSeparated_join|].
  apply parseCommaSeparated_join, parseCommaSeparated_clean.
Qed.

Lemma parseCommaSeparated_roundtrip_witness :
  parseCommaSeparated (joinWith "," ["alice"; "bob-2"]) = ["alice"; "bob-2"].
Proof.
  apply (parseCommaSeparated_roundtrip EmptyString ["alice"; "bob-2"]).
  repeat constructor; done.
Defined.

(** ** The median splits the list *)

Lemma length_filter_Permutation {A} (P : A → Prop) `{∀ x, Decision (P x)}
    (l k : list A) :
  l ≡ₚ k → length (filter P l) = length (filter P k).
Proof. intros Hp. by rewrite Hp. Qed.

Lemma length_filter_take_all {A} (P : A → Prop) `{∀ x, Decision (P x)}
    (l : list A) (n : nat) :
  (n ≤ length l)%nat → Forall P (take n l) → (n ≤ length (filter P l))%nat.
Proof.
  intros Hn Hall. rewrite <- (take_drop n l), filter_app, length_app.
  assert (filter P (take n l) = take n l) as ->.
  { clear Hn. induction Hall as [|x t Hx Ht IH]; [done|].
    rewrite filter_cons_True by done. by rewrite IH. }
  rewrite length_take. lia.
Qed.

Lemma length_filter_drop_all {A} (P : A → Prop) `{∀ x, Decision (P x)}
    (l : list A) (n : nat) :
  Forall P (drop n l) → (length l - n ≤ length (filter P l))%nat.
Proof.
  intros Hall. rewrite <- (take_drop n l) at 2. rewrite filter_app, length_app.
  assert (filter P (drop n l) = drop n l) as ->.
  { induction Hall as [|x t Hx Ht IH]; [done|].
    rewrite filter_cons_True by done. by rewrite IH. }
  rewrite length_drop. lia.
Qed.

Lemma ascending_take_le s k x :
  ascending s → s !! k = Some x →
  Forall (λ y, (y <= x)%Q) (take (S k) s).
Proof.
  intros Hs Hk. apply Forall_forall. intros y Hy.
  apply list_elem_of_lookup_1 in Hy as [i Hi].
  apply lookup_take_Some in Hi as [Hi Hlt].
  apply (Hs i k y x); [lia|done|done].
Qed.

Lemma ascending_drop_ge s k x :
  ascending s → s !! k = Some x →
  Forall (λ y, (x <= y)%Q) (drop k s).
Proof.
  intros Hs Hk. apply Forall_forall. intros y Hy.
  apply list_elem_of_lookup_1 in Hy as [i Hi].
  rewrite lookup_drop in Hi.
  apply (Hs k (k + i)%nat x y); [lia|done|done].
Qed.

Lemma nth_lookup_Q (s : list Q) i x : s !! i = Some x → nth i s 0%Q = x.
Proof. intros Hi. by rewrite nth_lookup, Hi. Qed.

Lemma countLe_sortAsc m arr : countLe m (sortAsc arr) = countLe m arr.
Proof. apply length_filter_Permutation, sortAsc_Permutation. Qed.

Lemma countGe_sortAsc m arr : countGe m (sortAsc arr) = countGe m arr.
Proof. apply length_filter_Permutation, sortAsc_Permutation. Qed.

Lemma Forall_Qle_bool_l m (l : list Q) :
  Forall (λ y, (y <= m)%Q) l → Forall (λ y, Qle_bool y m = true) l.
Proof. intros H. eapply Forall_impl; [exact H|]. intros y. apply Qle_bool_iff. Qed.

Lemma Forall_Qle_bool_r m (l : list Q) :
  Forall (λ y, (m <= y)%Q) l → Forall (λ y, Qle_bool m y = true) l.
Proof. intros H. eapply Forall_impl; [exact H|]. intros y. apply Qle_bool_iff. Qed.

Lemma Forall_Qle_trans_l a m (l : list Q) :
  (a <= m)%Q → Forall (λ y, (y <= a)%Q) l → Forall (λ y, (y <= m)%Q) l.
Proof.
  intros Ham H. eapply Forall_impl; [exact H|].
  intros y Hy. by apply Qle_trans with a.
Qed.

Lemma Forall_Qle_trans_r b m (l : list Q) :
  (m <= b)%Q → Forall (λ y, (b <= y)%Q) l → Forall (λ y, (m <= y)%Q) l.
Proof.
  intros Hmb H. eapply Forall_impl; [exact H|].
  intros y Hy. by apply Qle_trans with b.
Qed.

Lemma median_halves (arr : list Q) (m : Q) :
  median arr = Some m →
  (length arr ≤ 2 * countLe m arr)%nat
  ∧ (length arr ≤ 2 * countGe m arr)%nat
  ∧ ∃ x y, x ∈ arr ∧ y ∈ arr ∧ (x <= m)%Q ∧ (m <= y)%Q.
Proof.
  intros Hm. assert (arr ≠ []) as Hne by (intros ->; done).
  pose proof (sortAsc_ascending arr) as Hasc.
  pose proof (length_sortAsc arr) as Hlen.
  assert (0 < length arr)%nat as Hpos by (destruct arr; [done|simpl; lia]).
  set (n := length arr) in *. set (mid := (n / 2)%nat).
  assert (mid < n)%nat as Hmid by (apply Nat.div_lt; lia).
  destruct (lookup_lt_is_Some_2 (sortAsc arr) mid) as [b Hb]; [lia|].
  rewrite <- countLe_sortAsc, <- countGe_sortAsc.
  destruct (Nat.eq_dec (n mod 2)%nat 1%nat) as [Hodd|Heven].
  - rewrite median_odd in Hm by done. fold n mid in Hm.
    rewrite (nth_lookup_Q _ _ _ Hb) in Hm. injection Hm as <-.
    pose proof (Nat.div_mod_eq n 2) as Hdm. fold mid in Hdm.
    split; [|split].
    + pose proof (length_filter_take_all (λ y, Qle_bool y b = true)
                    (sortAsc arr) (S mid)) as Hc.
      unfold countLe. specialize (Hc ltac:(lia)
        (Forall_Qle_bool_l _ _ (ascending_take_le _ _ _ Hasc Hb))). lia.
    + pose proof (length_filter_drop_all (λ y, Qle_bool b y = true)
                    (sortAsc arr) mid
                    (Forall_Qle_bool_r _ _ (ascending_drop_ge _ _ _ Hasc Hb))) as Hc.
      unfold countGe. lia.
    + assert (b ∈ arr) as Hin.
      { rewrite <- sortAsc_Permutation. by eapply list_elem_of_lookup_2. }
      exists b, b. repeat split; try done; apply Qle_refl.
  - assert (n mod 2 = 0)%nat as H0.
    { pose proof (Nat.mod_upper_bound n 2). lia. }
    rewrite median_even in Hm by done. fold n mid in Hm.
    pose proof (Nat.div_mod_eq n 2) as Hdm. fold mid in Hdm.
    assert (0 < mid)%nat as Hmpos by lia.
    destruct (lookup_lt_is_Some_2 (sortAsc arr) (mid - 1)) as [a Ha]; [lia|].
    rewrite (nth_lookup_Q _ _ _ Hb), (nth_lookup_Q _ _ _ Ha) in Hm.
    injection Hm as <-.
    assert (a <= b)%Q as Hab by (apply (Hasc (mid - 1)%nat mid a b); [lia|done|done]).
    assert (a <= (a + b) / 2)%Q as Ham by (apply Qle_shift_div_l; lra).
    assert ((a + b) / 2 <= b)%Q as Hmb by (apply Qle_shift_div_r; lra).
    split; [|split].
    + pose proof (length_filter_take_all (λ y, Qle_bool y ((a + b) / 2) = true)
                    (sortAsc arr) mid) as Hc.
      unfold countLe. replace mid with (S (mid - 1)) in Hc at 2 by lia.
      specialize (Hc ltac:(lia)
        (Forall_Qle_bool_l _ _
           (Forall_Qle_trans_l _ _ _ Ham (ascending_take_le _ _ _ Hasc Ha)))).
      lia.
    + pose proof (length_filter_drop_all (λ y, Qle_bool ((a + b) / 2) y = true)
                    (sortAsc arr) mid
                    (Forall_Qle_bool_r _ _
                       (Forall_Qle_trans_r _ _ _ Hmb
                          (ascending_drop_ge _ _ _ Hasc Hb)))) as Hc.
      unfold countGe. lia.
    + exists a, b. split; [|split; [|done]].
      * rewrite <- sortAsc_Permutation. by eapply list_elem_of_lookup_2.
      * rewrite <- sortAsc_Permutation. by eapply list_elem_of_lookup_2.
Qed.

(** X2. The median splits the list: at least half of the elements are at
    most the median and at least half are at least the median, and the
    median lies between two elements of the list. *)
Theorem median_splits (arr : list Q) (m : Q) :
  median arr = Some m →
  (length arr ≤ 2 * countLe m arr)%nat
  ∧ (length arr ≤ 2 * countGe m arr)%nat
  ∧ ∃ x y, x ∈ arr ∧ y ∈ arr ∧ (x <= m)%Q ∧ (m <= y)%Q.
Proof. apply median_halves. Qed.

Lemma median_splits_witness :
  (4 ≤ 2 * countLe ((2 + 3) / 2) [4; 1; 3; 2]%Q)%nat
  ∧ (4 ≤ 2 * countGe ((2 + 3) / 2) [4; 1; 3; 2]%Q)%nat.
Proof.
  destruct (median_splits [4; 1; 3; 2]%Q ((2 + 3) / 2)%Q eq_refl)
    as (Hle & Hge & _).
  split; [exact Hle|exact Hge].
Defined.

(** ** The latency bonus and the latency map *)

Lemma Qle_bool_false a b : Qle_bool a b = false ↔ (b < a)%Q.
Proof.
  split.
  - intros Hf. apply Qnot_le_lt. intros Hle%Qle_bool_iff. congruence.
  - intros Hlt. destruct (Qle_bool a b) eqn:Hb; [|done].
    apply Qle_bool_iff in Hb. by apply Qlt_not_le in Hlt.
Qed.

(** X3. The latency bonus is one of 6, 4, 2, 1 and 0, and a slower median
    never earns more than a faster one. *)
Theorem latencyBonusHours_antitone (m1 m2 : Q) :
  (m1 <= m2)%Q →
  latencyBonusHours m2 ≤ latencyBonusHours m1
  ∧ latencyBonusHours m1 ∈ [6; 4; 2; 1; 0].
Proof.
  intros Hle. unfold latencyBonusHours. split.
  - repeat match goal with
           | |- context [Qle_bool ?a ?b] =>
               let H := fresh "H" in
               destruct (Qle_bool a b) eqn:H;
               [apply Qle_bool_iff in H|apply Qle_bool_false in H]
           end; try lia; exfalso; lra.
  - repeat destruct (Qle_bool _ _); set_solver.
Qed.

Lemma latencyBonusHours_antitone_witness :
  latencyBonusHours 30 ≤ latencyBonusHours (7 # 2).
Proof. apply (latencyBonusHours_antitone (7 # 2) 30). unfold Qle. simpl. lia. Defined.

Lemma sampleOf_nonneg api since l pr h :
  sampleOf api since l pr = Some h → (0 <= h)%Q.
Proof.
  unfold sampleOf. repeat case_match; try done.
  intros [= <-]. by apply Qle_bool_iff.
Qed.

Lemma sampledHours_nonneg api since pulls l h :
  h ∈ sampledHours api since pulls l → (0 <= h)%Q.
Proof.
  unfold sampledHours. intros (pr & _ & Hs)%list_elem_of_omap.
  by eapply sampleOf_nonneg.
Qed.

Lemma timesOf_bot l reviews : isBotLogin l = true → timesOf l reviews = [].
Proof.
  intros Hb. unfold timesOf. induction reviews as [|r reviews IH]; [done|].
  cbn [omap list_omap]. rewrite IH. case_bool_decide as Hh; [|done].
  apply humanLogin_Some in Hh as [_ ?]. congruence.
Qed.

Lemma sampledHours_bot api since pulls l :
  isBotLogin l = true → sampledHours api since pulls l = [].
Proof.
  intros Hb. unfold sampledHours. induction pulls as [|pr pulls IH]; [done|].
  cbn [omap list_omap]. rewrite IH.
  assert (sampleOf api since l pr = None) as ->; [|done].
  unfold sampleOf. repeat case_match; try done.
  all: unfold earliestOf in *; rewrite timesOf_bot in * by done; done.
Qed.

(** X4. When the closed pull requests can be listed, the latency map has
    one entry for every login it holds, no entry for a bot-like or missing
    login, and no negative median. *)
Theorem latency_map_entries (api : Api) (now days cap : Z) (out : jsmap Q) :
  computeReviewerLatencyHours api now days cap = Some out →
  NoDup (mkeys out)
  ∧ ∀ l m, (l, m) ∈ out → isBotLogin l = false ∧ (0 <= m)%Q.
Proof.
  intros Hout. assert (NoDup (mkeys out)) as Hnd
    by (by eapply computeReviewerLatencyHours_NoDup).
  split; [done|]. intros l m Hin. apply elem_of_mget in Hin; [|done].
  destruct (listPulls api StClosed cap) as [pulls|] eqn:Hp;
    [|by unfold computeReviewerLatencyHours in Hout; rewrite Hp in Hout].
  destruct (computeReviewerLatencyHours_spec api now days cap pulls Hp)
    as (out' & Hout' & Hget).
  assert (out' = out) as -> by congruence.
  rewrite Hget in Hin. split.
  - destruct (isBotLogin l) eqn:Hb; [|done].
    by rewrite sampledHours_bot in Hin.
  - destruct (median_halves _ _ Hin) as (_ & _ & x & _ & Hx & _ & Hxm & _).
    apply Qle_trans with x; [|done]. by eapply sampledHours_nonneg.
Qed.

Lemma latency_map_entries_witness :
  ∃ out, computeReviewerLatencyHours latencyApi 0 90 20 = Some out
    ∧ NoDup (mkeys out).
Proof.
  eexists. split; [reflexivity|].
  eapply (latency_map_entries latencyApi 0 90 20). reflexivity.
Defined.

(** ** The timezone bonus *)

Lemma timezoneBonus_range avg off : timezoneBonus avg off ∈ [3; 1; 0].
Proof. unfold timezoneBonus. repeat case_match; set_solver. Qed.

Lemma timezoneBonus_circular avg off :
  0 ≤ avg ≤ 23 → off ≤ 38 →
  timezoneBonus avg off
  = if circularDistance avg (14 - off) <=? 4 then 3
    else if circularDistance avg (14 - off) <=? 8 then 1
    else 0.
Proof.
  intros Havg Hoff. unfold timezoneBonus, circularDistance.
  assert (Z.min (Z.abs (avg - Z.rem (14 - off + 24) 24))
                (24 - Z.abs (avg - Z.rem (14 - off + 24) 24))
          = Z.min ((avg - (14 - off)) mod 24) ((14 - off - avg) mod 24)) as ->;
    [|done].
  rewrite Z.rem_mod_nonneg by lia.
  pose proof (Z.mod_pos_bound (14 - off + 24) 24 ltac:(lia)).
  Z.div_mod_to_equations. lia.
Qed.

(** X5. The timezone bonus is 3, 1 or 0.  For an average hour of the day
    and an offset of at most 38 hours, it is 3 when the average hour is
    within 4 hours, around the clock, of 14 minus the offset, 1 when it is
    within 8 hours, and 0 otherwise. *)
Theorem timezoneBonus_by_circular_distance (avg off : Z) :
  timezoneBonus avg off ∈ [3; 1; 0]
  ∧ (0 ≤ avg ≤ 23 → off ≤ 38 →
     timezoneBonus avg off
     = if circularDistance avg (14 - off) <=? 4 then 3
       else if circularDistance avg (14 - off) <=? 8 then 1
       else 0).
Proof. split; [apply timezoneBonus_range|apply timezoneBonus_circular]. Qed.

Lemma timezoneBonus_by_circular_distance_witness :
  timezoneBonus 23 (-11) = 3 ∧ circularDistance 23 (14 - -11) = 2.
Proof.
  split; [|reflexivity].
  rewrite (proj2 (timezoneBonus_by_circular_distance 23 (-11))) by lia.
  reflexivity.
Defined.

(** ** The average hour of a login *)

Lemma foldl_add_bounds (l : list Z) acc :
  Forall (λ h, 0 ≤ h ≤ 23) l →
  acc ≤ foldl Z.add acc l ≤ acc + 23 * Z.of_nat (length l).
Proof.
  intros Hl. revert acc. induction Hl as [|h l Hh Hl IH]; intros acc.
  - simpl. lia.
  - cbn [foldl length]. specialize (IH (acc + h)). lia.
Qed.

Lemma averageHour_range hours :
  hours ≠ [] → Forall (λ h, 0 ≤ h ≤ 23) hours → 0 ≤ averageHour hours ≤ 23.
Proof.
  intros Hne Hall. unfold averageHour, sumZ.
  pose proof (foldl_add_bounds hours 0 Hall) as Hs.
  assert (0 < Z.of_nat (length hours)) as Hlen by (destruct hours; [done|simpl; lia]).
  rewrite Math_round_div by done.
  set (a := foldl Z.add 0 hours) in *. set (b := Z.of_nat (length hours)) in *.
  split.
  - apply Z.div_pos; lia.
  - apply Z.lt_succ_r. apply Z.div_lt_upper_bound; lia.
Qed.

Lemma truthy_Some o l : truthy o = Some l → o = Some l ∧ l ≠ EmptyString.
Proof. unfold truthy. destruct o as [[|c s]|]; [done| |done]. by intros [= <-]. Qed.

Lemma pushHour_inOrder m c :
  (∀ h, c_hour c = Some h → 0 ≤ h ≤ 23) →
  hoursInOrder m → hoursInOrder (pushHour m c).
Proof.
  intros Hc [Hnd Hm]. unfold pushHour.
  destruct (truthy (c_login c)) as [l|] eqn:Hl; [|done].
  destruct (c_hour c) as [h|] eqn:Hh; [|done].
  apply truthy_Some in Hl as [_ Hne].
  split; [by apply NoDup_mkeys_mset|].
  intros k hs. rewrite mget_mset. destruct (decide (l = k)) as [->|]; [|apply Hm].
  intros [= <-]. split; [done|]. split; [by destruct (default [] _)|].
  apply Forall_app. split; [|by repeat constructor; apply Hc].
  destruct (mget m k) as [hs|] eqn:Hk; [|done]. by apply (Hm k hs).
Qed.

Lemma foldl_average_get (lists : jsmap (list Z)) :
  NoDup (mkeys lists) →
  NoDup (mkeys (foldl (λ m e, mset m e.1 (averageHour e.2)) [] lists))
  ∧ ∀ k v, mget (foldl (λ m e, mset m e.1 (averageHour e.2)) [] lists) k = Some v →
           ∃ hs, mget lists k = Some hs ∧ v = averageHour hs.
Proof.
  intros Hnd.
  apply (foldl_invariant
           (λ m : jsmap Z, NoDup (mkeys m)
              ∧ ∀ k v, mget m k = Some v →
                       ∃ hs, mget lists k = Some hs ∧ v = averageHour hs)).
  - split; [apply NoDup_nil_2|done].
  - intros m [k0 hs0] Hin [Hm1 Hm2]. split; [by apply NoDup_mkeys_mset|].
    intros k v. rewrite mget_mset. simpl.
    destruct (decide (k0 = k)) as [->|]; [|apply Hm2].
    intros [= <-]. exists hs0. split; [|done]. by apply elem_of_mget.
Qed.

(** X6. When the hours of the commits are hours of the day, the timezone
    data of the analysis holds for every login with a dated commit, once,
    an average hour that is an hour of the day, and no empty login. *)
Theorem timezone_average_hours
    (api : Api) (repo : string) (fileAuthors : list FileAuthors) (off : Z) :
  (∀ p resp c h,
     listCommits api repo p 10 = Some resp → c ∈ resp → c_hour c = Some h →
     0 ≤ h ≤ 23) →
  ∃ avg, avgHours (collectTimezone api repo fileAuthors off) = Some avg
    ∧ preferredOffset (collectTimezone api repo fileAuthors off) = Some off
    ∧ NoDup (mkeys avg)
    ∧ ∀ l h, (l, h) ∈ avg → l ≠ EmptyString ∧ 0 ≤ h ≤ 23.
Proof.
  intros Hapi. unfold collectTimezone. cbn [avgHours preferredOffset].
  set (lists := foldl _ [] fileAuthors).
  assert (hoursInOrder lists) as [Hnd Hlists].
  { unfold lists. apply (foldl_invariant hoursInOrder).
    - split; [apply NoDup_nil_2|done].
    - intros m fa _ Hm.
      destruct (listCommits api repo (path fa) 10) as [resp|] eqn:Hresp; [|done].
      apply (foldl_invariant hoursInOrder); [done|].
      intros m' c Hc Hm'. apply pushHour_inOrder; [|done].
      intros h Hh. by eapply Hapi. }
  destruct (foldl_average_get lists Hnd) as [Hnd' Hget].
  eexists. split; [done|]. split; [done|]. split; [done|].
  intros l h Hin. apply elem_of_mget in Hin; [|done].
  apply Hget in Hin as (hs & Hhs & ->).
  apply Hlists in Hhs as (Hne & Hhs & Hall). split; [done|].
  by apply averageHour_range.
Qed.

Lemma timezone_average_hours_witness :
  ∃ avg, avgHours (collectTimezone fullApi "repo"
                     [{| path := "src/api/users.ts"; authors := ["alice"] |}] 5)
         = Some avg
    ∧ NoDup (mkeys avg).
Proof.
  destruct (timezone_average_hours fullApi "repo"
              [{| path := "src/api/users.ts"; authors := ["alice"] |}] 5)
    as (avg & Havg & _ & Hnd & _).
  - intros p resp c h. unfold fullApi. cbn [listCommits].
    rewrite bool_decide_eq_true_2 by done. case_bool_decide.
    + intros [= <-] Hc Hh.
      repeat (apply elem_of_cons in Hc as [->|Hc];
              [simpl in Hh; injection Hh as <-; lia|]).
      by apply elem_of_nil in Hc.
    + intros [= <-] Hc. by apply elem_of_nil in Hc.
  - exists avg. split; [exact Havg|exact Hnd].
Defined.

(** ** The order of the final ranking *)

Lemma sortedBy_cons {A} (le : A → A → bool) x l :
  sortedBy le (x :: l)
  ↔ le x x = true ∧ (∀ y, y ∈ l → le x y = true) ∧ sortedBy le l.
Proof.
  split.
  - intros H. split; [by apply (H 0%nat 0%nat)|]. split.
    + intros y [j Hj]%list_elem_of_lookup. apply (H 0%nat (S j)); [lia|done|done].
    + intros i j a b Hij Ha Hb. apply (H (S i) (S j)); [lia|done|done].
  - intros (Hx & Hall & Hl) [|i] [|j] a b Hij; simpl; try lia.
    + by intros [= <-] [= <-].
    + intros [= <-] Hb. apply Hall. by eapply list_elem_of_lookup_2.
    + intros Ha Hb. apply (Hl i j); [lia|done|done].
Qed.

Lemma sortedBy_nil {A} (le : A → A → bool) : sortedBy le [].
Proof. intros i j a b _ Ha. by rewrite lookup_nil in Ha. Qed.

Lemma sortedBy_filter {A} (le : A → A → bool) (P : A → Prop)
    `{!∀ x, Decision (P x)} l :
  sortedBy le l → sortedBy le (filter P l).
Proof.
  induction l as [|x l IH]; [done|].
  rewrite sortedBy_cons. intros (Hx & Hall & Hl). rewrite filter_cons.
  destruct (decide (P x)); [|by apply IH].
  apply sortedBy_cons. split; [done|]. split; [|by apply IH].
  intros y [_ Hy]%list_elem_of_filter. by apply Hall.
Qed.

Lemma byCandidateScoreDesc_total a b :
  byCandidateScoreDesc a b = true ∨ byCandidateScoreDesc b a = true.
Proof. unfold byCandidateScoreDesc. rewrite !Z.leb_le. lia. Qed.

Lemma byCandidateScoreDesc_trans a b c :
  byCandidateScoreDesc a b = true → byCandidateScoreDesc b c = true →
  byCandidateScoreDesc a c = true.
Proof. unfold byCandidateScoreDesc. rewrite !Z.leb_le. lia. Qed.

Lemma byCandidateScoreDesc_sort l :
  sortedBy byCandidateScoreDesc (stableSort byCandidateScoreDesc l).
Proof.
  apply stableSort_sorted;
    [apply byCandidateScoreDesc_total|apply byCandidateScoreDesc_trans].
Qed.

Lemma afterRanking_sorted excluded penalize loadCounts flaky ranked :
  sortedBy byCandidateScoreDesc ranked →
  sortedBy byCandidateScoreDesc
    (afterRanking excluded penalize loadCounts flaky ranked).
Proof.
  intros Hs. unfold afterRanking, flakyPenalty.
  case_bool_decide; [|apply byCandidateScoreDesc_sort].
  assert (sortedBy byCandidateScoreDesc (excludeFilter excluded ranked))
    by by apply sortedBy_filter.
  destruct penalize; [|done].
  destruct loadCounts; [apply byCandidateScoreDesc_sort|done].
Qed.

Lemma finalRanking_sorted minimatch api repo now prAuthor changedFiles config :
  sortedBy byCandidateScoreDesc
    (finalRanking minimatch api repo now prAuthor changedFiles config).
Proof.
  rewrite finalRanking_afterRanking. apply afterRanking_sorted.
  intros i j a b Hij Ha Hb. apply Z.leb_le.
  by eapply rankCandidates_descending.
Qed.

(** X7. Whatever exclusion and penalties did, the final ranking is in
    descending order of score, and the suggestions are its first
    [maxReviewers] entries: no candidate left out has a higher score than
    a suggested one. *)
Theorem suggestions_are_top_scores
    (minimatch : string → string → bool) (api : Api) (repo : string) (now : Z)
    (prAuthor : option string) (changedFiles : list string) (config : Config) :
  let final := finalRanking minimatch api repo now prAuthor changedFiles config in
  let result := analyzeReviewers minimatch api repo now prAuthor changedFiles
                  config in
  0 ≤ maxReviewers config →
  (∀ i j a b, (i ≤ j)%nat → final !! i = Some a → final !! j = Some b →
              score b ≤ score a)
  ∧ suggestions result = take (Z.to_nat (maxReviewers config)) final
  ∧ length (suggestions result)
    = (Z.to_nat (maxReviewers config) `min` length final)%nat
  ∧ (∀ i j a b, suggestions result !! i = Some a → final !! j = Some b →
                (length (suggestions result) ≤ j)%nat → score b ≤ score a).
Proof.
  intros final result _.
  assert (∀ i j a b, (i ≤ j)%nat → final !! i = Some a → final !! j = Some b →
                     score b ≤ score a) as Hdesc.
  { intros i j a b Hij Ha Hb. apply Z.leb_le.
    by apply (finalRanking_sorted minimatch api repo now prAuthor changedFiles
                config i j a b). }
  assert (suggestions result = take (Z.to_nat (maxReviewers config)) final)
    as Hsugg by done.
  split; [done|]. split; [done|]. split; [by rewrite Hsugg, length_take|].
  intros i j a b Ha Hb Hj.
  assert (i < length (suggestions result))%nat by by eapply lookup_lt_Some.
  rewrite Hsugg in Ha. apply lookup_take_Some in Ha as [Ha _].
  apply (Hdesc i j); [lia|done|done].
Qed.

Lemma suggestions_are_top_scores_witness :
  map login (suggestions (analyzeReviewers literalMatch fullApi "repo" 0
                            (Some "erin") ["src/api/users.ts"] fullConfig))
  = map login (take (Z.to_nat (maxReviewers fullConfig))
                 (finalRanking literalMatch fullApi "repo" 0 (Some "erin")
                    ["src/api/users.ts"] fullConfig)).
Proof.
  destruct (suggestions_are_top_scores literalMatch fullApi "repo" 0
              (Some "erin") ["src/api/users.ts"] fullConfig) as (_ & -> & _).
  - vm_compute. discriminate.
  - reflexivity.
Defined.

(** ** Review load *)

Lemma countRequested_mincr m pr :
  countRequested m pr = foldl mincr m (openRequests [pr]).
Proof.
  unfold countRequested, openRequests. simpl. rewrite app_nil_r.
  generalize (pr_requested_reviewers pr) as revs. intros revs. revert m.
  induction revs as [|o revs IH]; intros m; [done|].
  cbn [foldl omap list_omap]. rewrite IH.
  by destruct (truthy o).
Qed.

Lemma openRequests_cons pr pulls :
  openRequests (pr :: pulls) = openRequests [pr] ++ openRequests pulls.
Proof.
  unfold openRequests. simpl. rewrite app_nil_r.
  generalize (pr_requested_reviewers pr) as revs.
  induction revs as [|o revs IH]; [done|].
  cbn [app omap list_omap]. rewrite IH. by destruct (truthy o).
Qed.

Lemma foldl_countRequested m pulls :
  foldl countRequested m pulls = foldl mincr m (openRequests pulls).
Proof.
  revert m. induction pulls as [|pr pulls IH]; intros m; [done|].
  simpl. rewrite IH, openRequests_cons, foldl_app.
  by rewrite countRequested_mincr.
Qed.

Lemma computeOpenReviewCounts_get api counts l :
  computeOpenReviewCounts api = Some counts → 0 ≤ default 0 (mget counts l).
Proof.
  unfold computeOpenReviewCounts.
  destruct (listPulls api StOpen 100) as [pulls|]; [|done]. intros [= <-].
  rewrite foldl_countRequested, foldl_mincr_get. simpl. apply countOf_nonneg.
Qed.

(** X8. The load counts hold, for every login that is requested as a
    reviewer on one of the (at most 100) open pull requests, the number of
    its requests, the login compared as it is written; other logins have no
    entry and count as 0, and [openReviews] of a candidate is this number.
    When the pull requests cannot be listed there are no counts. *)
Theorem open_review_counts (api : Api) :
  match listPulls api StOpen 100 with
  | Some pulls =>
      ∃ counts, computeOpenReviewCounts api = Some counts
        ∧ NoDup (mkeys counts)
        ∧ (∀ l, mget counts l
                = if decide (l ∈ openRequests pulls)
                  then Some (countOf l (openRequests pulls)) else None)
        ∧ (∀ l n, mget counts l = Some n → l ≠ EmptyString ∧ 1 ≤ n)
        ∧ (∀ r, openReviews (loadOne counts r)
                = Some (countOf (login r) (openRequests pulls)))
  | None => computeOpenReviewCounts api = None
  end.
Proof.
  unfold computeOpenReviewCounts.
  destruct (listPulls api StOpen 100) as [pulls|]; [|done].
  eexists. split; [done|]. rewrite foldl_countRequested.
  split; [apply foldl_mincr_NoDup, NoDup_nil_2|].
  split; [apply foldl_mincr_lookup|]. split.
  - intros l n. rewrite foldl_mincr_lookup.
    destruct (decide (l ∈ openRequests pulls)) as [Hin|]; [|done].
    intros [= <-]. split.
    + unfold openRequests in Hin.
      apply list_elem_of_omap in Hin as (o & _ & Ho).
      by apply truthy_Some in Ho as [_ ?].
    + apply countOf_pos in Hin. lia.
  - intros r. unfold loadOne. cbn [openReviews]. f_equal.
    by rewrite foldl_mincr_get.
Qed.

Lemma open_review_counts_witness :
  ∃ counts, computeOpenReviewCounts fullApi = Some counts
    ∧ mget counts "alice" = Some 2.
Proof.
  destruct (open_review_counts fullApi) as (counts & Hc & _ & Hget & _).
  exists counts. split; [exact Hc|]. rewrite Hget. vm_compute. reflexivity.
Defined.

(** ** The scores of the final ranking *)

Lemma halvedScore_bounds flaky l s : 0 ≤ s → 0 ≤ halvedScore flaky l s ≤ s.
Proof.
  intros Hs. unfold halvedScore. case_bool_decide; [|lia].
  Z.div_mod_to_equations. lia.
Qed.

Lemma loadedScore_bounds loadCounts l s :
  (∀ counts, loadCounts = Some counts → 0 ≤ default 0 (mget counts l)) →
  0 ≤ s → 0 ≤ loadedScore loadCounts l s ≤ s.
Proof.
  intros Hc Hs. unfold loadedScore. destruct loadCounts as [counts|]; [|lia].
  specialize (Hc counts eq_refl). split; [by apply loadScore_nonneg|].
  etrans; [by apply (loadScore_antitone s 0)|].
  rewrite loadScore_closed by lia.
  replace (6 * s + 0 + 3) with (s * (2 * (0 + 3)) + 3) by lia.
  rewrite Z.div_add_l by lia. rewrite Z.div_small; lia.
Qed.

Section pipeline_scores.
Variable minimatch : string → string → bool.
Variable api : Api.
Variable repo : string.
Variable now : Z.
Variable prAuthor : option string.
Variable changedFiles : list string.
Variable config : Config.

Lemma baseRanking_scores_pos r :
  r ∈ baseRanking minimatch api repo now prAuthor changedFiles config →
  0 < score r ∧ openReviews r = None.
Proof.
  intros Hr. split.
  - revert r Hr. apply Forall_forall. unfold baseRanking.
    apply rankCandidates_scores_pos; [done|]. apply crossRepoExpertiseOf_pos.
  - unfold baseRanking, rankCandidates in Hr.
    by apply list_elem_of_fmap in Hr as (e & -> & _).
Qed.

End pipeline_scores.

Lemma finalRanking_from_base
    (minimatch : string → string → bool) (api : Api) (repo : string) (now : Z)
    (prAuthor : option string) (changedFiles : list string) (config : Config) :
  let base := baseRanking minimatch api repo now prAuthor changedFiles config in
  let final := finalRanking minimatch api repo now prAuthor changedFiles config in
  let load := if penalizeLoad config then computeOpenReviewCounts api else None in
  let flaky := flakyReviewersOf api now config in
  ∀ r, r ∈ final →
    ∃ r0, r0 ∈ base
      ∧ login r = login r0
      ∧ (Str.toLowerCase (login r0) ∉ excludedOf api config)
      ∧ score r = halvedScore flaky (login r0)
                    (loadedScore load (login r0) (score r0))
      ∧ 0 ≤ score r ≤ score r0
      ∧ openReviews r
        = ((λ counts, default 0 (mget counts (login r0))) <$> load)
      ∧ reasons r = reasons r0
                    ++ (if bool_decide (Str.toLowerCase (login r0) ∈ flaky)
                        then ["flaky reviewer"] else []).
Proof.
  intros base final load flaky r Hr.
  unfold final, finalRanking in Hr. fold flaky in Hr.
  rewrite flakyPenalty_Permutation in Hr.
  apply list_elem_of_fmap in Hr as (r1 & -> & Hr1).
  assert (∃ r0, r0 ∈ excludeFilter (excludedOf api config) base
            ∧ login r1 = login r0
            ∧ score r1 = loadedScore load (login r0) (score r0)
            ∧ openReviews r1
              = ((λ counts, default 0 (mget counts (login r0))) <$> load)
            ∧ reasons r1 = reasons r0) as (r0 & Hr0 & Hl & Hs & Ho & Hrs).
  { unfold afterLoad, afterExclusion in Hr1. fold base in Hr1. unfold load.
    destruct (penalizeLoad config).
    - destruct (computeOpenReviewCounts api) as [counts|]; simpl in Hr1.
      + apply elem_of_stableSort in Hr1.
        apply list_elem_of_fmap in Hr1 as (r0 & -> & Hr0). by exists r0.
      + exists r1. repeat split; try done.
        apply excludeFilter_subseteq in Hr1.
        by apply baseRanking_scores_pos in Hr1 as [_ ?].
    - exists r1. repeat split; try done.
      apply excludeFilter_subseteq in Hr1.
      by apply baseRanking_scores_pos in Hr1 as [_ ?]. }
  apply excludeFilter_spec in Hr0 as [Hr0 Hex].
  destruct (baseRanking_scores_pos minimatch api repo now prAuthor changedFiles
              config r0 Hr0) as [Hpos _].
  assert (0 ≤ loadedScore load (login r0) (score r0) ≤ score r0) as Hload.
  { apply loadedScore_bounds; [|lia]. intros counts Hc. unfold load in Hc.
    destruct (penalizeLoad config); [|done].
    by apply (computeOpenReviewCounts_get api). }
  exists r0. split; [done|]. rewrite login_flakyOne. split; [done|].
  split; [done|].
  pose proof (halvedScore_bounds flaky (login r0)
                (loadedScore load (login r0) (score r0))) as Hhalf.
  unfold flakyOne, halvedScore in *. rewrite Hl.
  case_bool_decide; cbn [score openReviews reasons].
  - rewrite Math_round_half, Hs, Ho, Hrs. repeat split; try done; lia.
  - rewrite Hs, Ho, Hrs, app_nil_r. repeat split; try done; lia.
Qed.



(** ** Cross-repository expertise *)

Lemma countAuthors_mincr m resp :
  countAuthors m resp = foldl mincr m (omap (λ c, humanLogin (c_login c)) resp).
Proof.
  unfold countAuthors. revert m. induction resp as [|c resp IH]; intros m; [done|].
  cbn [foldl omap list_omap]. rewrite IH. by destruct (humanLogin (c_login c)).
Qed.

Lemma foldl_mincr_concat {A} (g : jsmap Z → A → jsmap Z) (f : A → list string)
    m xs :
  (∀ m x, g m x = foldl mincr m (f x)) →
  foldl g m xs = foldl mincr m (concat (map f xs)).
Proof.
  intros Hg. revert m. induction xs as [|x xs IH]; intros m; [done|].
  simpl. by rewrite IH, foldl_app, Hg.
Qed.

Lemma elem_of_concat {A} (x : A) (ls : list (list A)) :
  x ∈ concat ls ↔ ∃ l, x ∈ l ∧ l ∈ ls.
Proof.
  induction ls as [|l ls IH]; simpl.
  - split; [by intros ?%elem_of_nil|by intros (? & _ & ?%elem_of_nil)].
  - rewrite elem_of_app, IH. split.
    + intros [?|(l' & ? & ?)]; [exists l; split; [done|by left]|].
      exists l'. split; [done|by right].
    + intros (l' & ? & [->|?]%elem_of_cons); [by left|]. right. by exists l'.
Qed.

Lemma fetchCrossRepoExpertise_mincr api repos filePaths :
  fetchCrossRepoExpertise api repos filePaths
  = foldl mincr [] (crossLogins api repos filePaths).
Proof.
  unfold fetchCrossRepoExpertise, crossLogins.
  apply foldl_mincr_concat. intros m repoName.
  apply foldl_mincr_concat. intros m' filePath.
  destruct (listCommits api repoName filePath 10); [|done].
  apply countAuthors_mincr.
Qed.

(** X10. The expertise on other repositories holds, for every login, the
    number of listed commits it wrote on the first five changed files of
    these repositories; a file after the fifth, a repository whose commits
    cannot be listed, a bot or a commit without a login adds nothing; and
    the credit of a login in the ranking is between 1 and 5. *)
Theorem cross_repo_counts (api : Api) (repos filePaths : list string) :
  let expertise := fetchCrossRepoExpertise api repos filePaths in
  let counted := crossLogins api repos filePaths in
  NoDup (mkeys expertise)
  ∧ (∀ l, mget expertise l
          = if decide (l ∈ counted) then Some (countOf l counted) else None)
  ∧ (∀ l, l ∈ counted → isBotLogin l = false)
  ∧ (∀ l n, (l, n) ∈ expertise → 1 ≤ Z.min n 5 ≤ 5)
  ∧ expertise = fetchCrossRepoExpertise api repos (take 5 filePaths)
  ∧ ((∀ r p, r ∈ repos → listCommits api r p 10 = None) → expertise = []).
Proof.
  intros expertise counted. unfold expertise.
  rewrite !fetchCrossRepoExpertise_mincr. fold counted.
  split; [apply foldl_mincr_NoDup, NoDup_nil_2|].
  split; [apply foldl_mincr_lookup|]. split; [|split; [|split]].
  - intros l. unfold counted, crossLogins.
    intros (ls & Hl & (r & -> & _)%list_elem_of_fmap)%elem_of_concat.
    apply elem_of_concat in Hl as (ls' & Hl & (p & -> & _)%list_elem_of_fmap).
    destruct (listCommits api r p 10) as [resp|]; [|by apply elem_of_nil in Hl].
    apply list_elem_of_omap in Hl as (c & _ & Hc).
    by apply humanLogin_Some in Hc as [_ ?].
  - intros l n Hin. apply elem_of_mget in Hin;
      [|apply foldl_mincr_NoDup, NoDup_nil_2].
    rewrite foldl_mincr_lookup in Hin.
    destruct (decide (l ∈ counted)) as [Hc|]; [|done].
    injection Hin as <-. apply countOf_pos in Hc. lia.
  - unfold counted, crossLogins. by rewrite take_take.
  - intros Hnone. replace counted with (@nil string); [done|].
    symmetry. unfold counted, crossLogins. clear expertise counted.
    induction repos as [|r repos IH]; [done|]. cbn [map concat].
    rewrite IH by (intros r' p Hr'; apply Hnone; by right).
    rewrite app_nil_r. clear IH.
    induction (take 5 filePaths) as [|p ps IHp]; [done|]. cbn [map concat].
    rewrite IHp, (Hnone r p); [done|by left].
Qed.

Lemma cross_repo_counts_witness :
  mget (fetchCrossRepoExpertise fullApi ["other"] ["src/api/users.ts"]) "erin"
  = Some 2.
Proof.
  destruct (cross_repo_counts fullApi ["other"] ["src/api/users.ts"])
    as (_ & -> & _).
  vm_compute. reflexivity.
Defined.

(** ** The coverage of the changed files *)

Lemma byFileHasSignal_keys minimatch files rules :
  NoDup (mkeys (byFileHasSignal minimatch files rules))
  ∧ ∀ f, f ∈ mkeys (byFileHasSignal minimatch files rules) → f ∈ files.
Proof.
  unfold byFileHasSignal.
  assert (NoDup (mkeys (foldl (λ m f, mset m f false) [] files))
          ∧ ∀ f, f ∈ mkeys (foldl (λ (m : jsmap bool) f, mset m f false) [] files)
                 → f ∈ files) as Hinit.
  { apply (foldl_invariant
             (λ m : jsmap bool, NoDup (mkeys m) ∧ ∀ f, f ∈ mkeys m → f ∈ files)).
    - split; [apply NoDup_nil_2|by intros f ?%elem_of_nil].
    - intros m f Hf [Hnd Hsub]. split; [by apply NoDup_mkeys_mset|].
      intros f'. rewrite elem_of_mkeys_mset. intros [->|?]; [done|by apply Hsub]. }
  destruct rules as [|r rules]; [done|].
  apply (foldl_invariant
           (λ m : jsmap bool, NoDup (mkeys m) ∧ ∀ f, f ∈ mkeys m → f ∈ files));
    [done|].
  intros m f Hf [Hnd Hsub].
  destruct (ownersForFile minimatch (r :: rules) f); [done|].
  split; [by apply NoDup_mkeys_mset|].
  intros f'. rewrite elem_of_mkeys_mset. intros [->|?]; [done|by apply Hsub].
Qed.

Lemma covered_bounds minimatch files rules fileAuthors :
  0 ≤ covered minimatch files rules fileAuthors ≤ Z.of_nat (length files).
Proof.
  unfold covered.
  destruct (byFileHasSignal_keys minimatch files rules) as [Hnd Hsub].
  assert (length (filter (λ e : string * bool, e.2 = true)
                    (byFileHasSignal minimatch files rules)) ≤ length files)%nat.
  { etrans; [apply length_filter|].
    rewrite <- (length_fmap fst). apply submseteq_length.
    by apply NoDup_submseteq. }
  destruct fileAuthors; lia.
Qed.

Lemma coverageRatio_bounds minimatch files rules fileAuthors :
  (0 <= coverageRatio minimatch files rules fileAuthors <= 1)%Q.
Proof.
  unfold coverageRatio.
  pose proof (covered_bounds minimatch files rules fileAuthors) as [H0 H1].
  destruct files as [|f files]; [done|].
  set (n := Z.of_nat (length (f :: files))) in *.
  assert (0 < n) as Hn by (unfold n; simpl; lia).
  assert (0 < inject_Z n)%Q
    by (change (inject_Z 0 < inject_Z n)%Q; by rewrite <- Zlt_Qlt).
  split.
  - apply Qle_shift_div_l; [done|]. rewrite Qmult_0_l.
    change (inject_Z 0 <= inject_Z (covered minimatch (f :: files) rules fileAuthors))%Q.
    by rewrite <- Zle_Qle.
  - apply Qle_shift_div_r; [done|]. rewrite Qmult_1_l. by rewrite <- Zle_Qle.
Qed.

Lemma filter_none {A} (P : A → Prop) `{!∀ x, Decision (P x)} l :
  Forall (λ x, ¬ P x) l → filter P l = [].
Proof.
  induction 1 as [|x l Hx Hl IH]; [done|]. by rewrite filter_cons_False.
Qed.

Lemma coverageRatio_no_signal minimatch files :
  (coverageRatio minimatch files [] [] == 0)%Q.
Proof.
  unfold coverageRatio. destruct files as [|f files]; [done|].
  unfold covered, byFileHasSignal.
  rewrite filter_none; [done|].
  apply (foldl_invariant (λ m : jsmap bool, Forall (λ e, ¬ e.2 = true) m));
    [done|].
  intros m f' _ Hm. induction m as [|[k v] m IH]; simpl.
  - by repeat constructor.
  - apply Forall_cons in Hm as [Hv Hm].
    destruct (decide (k = f')); constructor; try done. by apply IH.
Qed.

(** X11. The coverage ratio of the confidence lies between 0 and 1,
    also when a changed file is listed twice; without commit authors and
    ownership rules it is 0 and the confidence is Low whatever the scores,
    and so it is without changed files. *)
Theorem coverage_between_zero_and_one
    (minimatch : string → string → bool) (ranked : list Candidate)
    (files : list string) (rules : list Rule) (fileAuthors : list FileAuthors) :
  (0 <= coverageRatio minimatch files rules fileAuthors <= 1)%Q
  ∧ 0 ≤ covered minimatch files rules fileAuthors ≤ Z.of_nat (length files)
  ∧ (fileAuthors = [] → rules = [] →
     (coverageRatio minimatch files rules fileAuthors == 0)%Q
     ∧ computeConfidence minimatch ranked files rules fileAuthors = Low)
  ∧ (files = [] →
     computeConfidence minimatch ranked files rules fileAuthors = Low).
Proof.
  split; [apply coverageRatio_bounds|]. split; [apply covered_bounds|]. split.
  - intros -> ->.
    pose proof (coverageRatio_no_signal minimatch files) as Hz.
    split; [done|]. unfold computeConfidence.
    assert (∀ q, (0 < q)%Q →
              Qle_bool q (coverageRatio minimatch files [] []) = false)
      as Hq.
    { intros q Hpos. apply Qle_bool_false. rewrite Hz. done. }
    rewrite !Hq by done. by rewrite !andb_false_r.
  - intros ->. unfold computeConfidence. simpl. by rewrite !andb_false_r.
Qed.

Lemma coverage_between_zero_and_one_witness :
  computeConfidence literalMatch [aliceFirst; bobSecond] ["a.js"] [] [] = Low.
Proof.
  destruct (coverage_between_zero_and_one literalMatch [aliceFirst; bobSecond]
              ["a.js"] [] []) as (_ & _ & H & _).
  by apply H.
Defined.

(** ** The rules of an ownership file *)

Lemma parseCodeownersLine_Some raw r :
  parseCodeownersLine raw = Some r →
  pattern r ≠ EmptyString
  ∧ owners r ≠ []
  ∧ (∀ o, o ∈ owners r → isBotLogin o = false)
  ∧ (∀ t, t ∈ teams r → Str.includes t "/" = true ∧ t ≠ EmptyString)
  ∧ (∀ t, t ∈ teams r → isBotLogin t = false → t ∈ owners r).
Proof.
  unfold parseCodeownersLine.
  destruct (_ || _); [done|]. case_bool_decide; [done|].
  destruct (Str.words _) as [|pat [|o os]] eqn:Hw; [done|done|].
  set (rawOwners := filter (λ o, o ≠ EmptyString) _).
  destruct (filter (λ o, isBotLogin o = false) rawOwners) as [|o' os'] eqn:Ho;
    [done|].
  intros [= <-]. cbn [pattern owners teams]. rewrite <- Ho.
  split; [|split; [|split; [|split]]].
  - assert (pat ∈ Str.words (Str.trim (cutInlineComment (Str.trim raw))))
      as Hp by (rewrite Hw; by left).
    unfold Str.words in Hp. by apply list_elem_of_filter in Hp as [? _].
  - by rewrite Ho.
  - by intros x [? _]%list_elem_of_filter.
  - intros t [Ht Hin]%list_elem_of_filter. split; [done|].
    unfold rawOwners in Hin. by apply list_elem_of_filter in Hin as [? _].
  - intros t [_ Hin]%list_elem_of_filter Hb. by apply list_elem_of_filter.
Qed.

Lemma ownersForFile_rule minimatch rules f :
  ownersForFile minimatch rules f = []
  ∨ ∃ r, r ∈ rules ∧ ownersForFile minimatch rules f = owners r.
Proof.
  unfold ownersForFile. destruct rules as [|r0 rules]; [by left|].
  apply (foldl_invariant
           (λ m, m = [] ∨ ∃ r, r ∈ r0 :: rules ∧ m = owners r)); [by left|].
  intros m r Hr Hm. destruct (ruleMatches minimatch f r); [|done].
  right. by exists r.
Qed.

(** X12. Every rule read from an ownership file has a pattern and at least
    one owner, and no owner is a bot; its teams are the names with a slash,
    bots among them, and a team that is no bot is an owner too.  So the
    owners of a changed file are never bots, and no text gives no rules. *)
Theorem parseCodeowners_rules
    (minimatch : string → string → bool) (text : option string) :
  (∀ r, r ∈ parseCodeowners text →
     pattern r ≠ EmptyString
     ∧ owners r ≠ []
     ∧ (∀ o, o ∈ owners r → isBotLogin o = false)
     ∧ (∀ t, t ∈ teams r → Str.includes t "/" = true ∧ t ≠ EmptyString)
     ∧ (∀ t, t ∈ teams r → isBotLogin t = false → t ∈ owners r))
  ∧ (∀ f o, o ∈ ownersForFile minimatch (parseCodeowners text) f →
            isBotLogin o = false)
  ∧ (text = None ∨ text = Some EmptyString → parseCodeowners text = []).
Proof.
  assert (∀ r, r ∈ parseCodeowners text →
     pattern r ≠ EmptyString
     ∧ owners r ≠ []
     ∧ (∀ o, o ∈ owners r → isBotLogin o = false)
     ∧ (∀ t, t ∈ teams r → Str.includes t "/" = true ∧ t ≠ EmptyString)
     ∧ (∀ t, t ∈ teams r → isBotLogin t = false → t ∈ owners r)) as Hrules.
  { intros r. unfold parseCodeowners. destruct text as [text|];
      [|by intros ?%elem_of_nil].
    intros (raw & _ & Hraw)%list_elem_of_omap.
    by apply parseCodeownersLine_Some in Hraw. }
  split; [done|]. split.
  - intros f o Ho.
    destruct (ownersForFile_rule minimatch (parseCodeowners text) f)
      as [Hnil|(r & Hr & Heq)].
    + rewrite Hnil in Ho. by apply elem_of_nil in Ho.
    + rewrite Heq in Ho. by apply (Hrules r Hr).
  - by intros [-> | ->].
Qed.

Lemma parseCodeowners_rules_witness :
  parseCodeowners (Some "*.js @alice @org/bot-team")
  = [{| pattern := "*.js"; owners := ["alice"]; teams := ["org/bot-team"] |}]
  ∧ isBotLogin "alice" = false.
Proof.
  split; [vm_compute; reflexivity|].
  destruct (parseCodeowners_rules literalMatch
              (Some "*.js @alice @org/bot-team")) as (H & _ & _).
  destruct (H {| pattern := "*.js"; owners := ["alice"];
                 teams := ["org/bot-team"] |}) as (_ & _ & Ho & _).
  - apply list_elem_of_lookup_2 with 0%nat. vm_compute. reflexivity.
  - apply Ho. by left.
Defined.

(** ** Team coverage *)

Lemma foldl_setAdd_NoDup {A} (g : A → string) s l :
  NoDup s → NoDup (foldl (λ s o, setAdd s (g o)) s l).
Proof.
  revert s. induction l as [|o l IH]; intros s Hs; [done|].
  simpl. by apply IH, setAdd_NoDup.
Qed.

Lemma foldl_setAdd_elem_of {A} (g : A → string) s l x :
  x ∈ foldl (λ s o, setAdd s (g o)) s l ↔ x ∈ s ∨ ∃ o, o ∈ l ∧ g o = x.
Proof.
  revert s. induction l as [|o l IH]; intros s; simpl.
  - split; [by left|]. by intros [?|(? & ?%elem_of_nil & _)].
  - rewrite IH, setAdd_elem_of. split.
    + intros [[->|?]|(o' & ? & ?)]; [|by left|].
      * right. exists o. split; [by left|done].
      * right. exists o'. split; [by right|done].
    + intros [?|(o' & [->|?]%elem_of_cons & Ho)]; [by left; right| |].
      * left. by left.
      * right. by exists o'.
Qed.

Lemma omap_team_sublist (f : string → option TeamCoverage) l :
  (∀ tm tc, f tm = Some tc → team tc = tm) →
  map team (omap f l) `sublist_of` l.
Proof.
  intros Hf. induction l as [|tm l IH]; [done|].
  cbn [omap list_omap]. destruct (f tm) as [tc|] eqn:Htc.
  - simpl. rewrite (Hf tm tc Htc). by apply sublist_skip.
  - by apply sublist_cons.
Qed.

Lemma parseCodeowners_owners text r : r ∈ parseCodeowners text → owners r ≠ [].
Proof.
  unfold parseCodeowners. destruct text as [text|]; [|by intros ?%elem_of_nil].
  intros (raw & _ & Hraw)%list_elem_of_omap.
  by apply parseCodeownersLine_Some in Hraw as (_ & ? & _).
Qed.

Section team_coverage.
Variable rules : list Rule.

(** The teams of the rules, each once. *)
Lemma allTeams_spec :
  NoDup (foldl (λ s r, foldl setAdd s (teams r)) [] rules)
  ∧ ∀ t, t ∈ foldl (λ s r, foldl setAdd s (teams r)) [] rules
         ↔ ∃ r, r ∈ rules ∧ t ∈ teams r.
Proof.
  split.
  - apply (foldl_invariant (λ s : list string, NoDup s)); [apply NoDup_nil_2|].
    intros s r _ Hs. by apply (foldl_setAdd_NoDup id).
  - intros t.
    assert (∀ s, t ∈ foldl (λ s r, foldl setAdd s (teams r)) s rules
                 ↔ t ∈ s ∨ ∃ r, r ∈ rules ∧ t ∈ teams r) as H.
    { induction rules as [|r rs IH]; intros s; simpl.
      - split; [by left|]. by intros [?|(? & ?%elem_of_nil & _)].
      - rewrite IH, (foldl_setAdd_elem_of id). split.
        + intros [[?|(o & ? & <-)]|(r' & ? & ?)]; [by left| |].
          * right. exists r. split; [by left|done].
          * right. exists r'. split; [by right|done].
        + intros [?|(r' & [->|?]%elem_of_cons & Ht)]; [by left; left| |].
          * left. right. by exists t.
          * right. by exists r'. }
    rewrite H. split; [by intros [?%elem_of_nil|?]|by right].
Qed.

(** The lower-case owners of the rules that list a team, each once. *)
Lemma teamMembers_spec tm :
  let members :=
    foldl (λ s r, if bool_decide (tm ∈ teams r)
                  then foldl (λ s o, setAdd s (Str.toLowerCase o)) s (owners r)
                  else s) [] rules in
  NoDup members
  ∧ ∀ r o, r ∈ rules → tm ∈ teams r → o ∈ owners r →
           Str.toLowerCase o ∈ members.
Proof.
  intros members. split.
  - apply (foldl_invariant (λ s : list string, NoDup s)); [apply NoDup_nil_2|].
    intros s r _ Hs. case_bool_decide; [|done].
    by apply foldl_setAdd_NoDup.
  - intros r o Hr Ht Ho. unfold members. generalize (@nil string) as s.
    induction rules as [|r' rs IH]; intros s; [by apply elem_of_nil in Hr|].
    simpl. apply elem_of_cons in Hr as [<-|Hr]; [|by apply IH].
    rewrite bool_decide_eq_true_2 by done.
    assert (∀ s x, x ∈ s →
              x ∈ foldl (λ s r, if bool_decide (tm ∈ teams r)
                                then foldl (λ s o, setAdd s (Str.toLowerCase o))
                                           s (owners r)
                                else s) s rs) as Hmono.
    { clear. induction rs as [|r' rs IH]; intros s x Hx; [done|].
      simpl. apply IH. case_bool_decide; [|done].
      apply foldl_setAdd_elem_of. by left. }
    apply Hmono, foldl_setAdd_elem_of. right. by exists o.
Qed.

End team_coverage.

(** X13. The team coverage has one entry for every team that a rule of the
    ownership file names, each team once; the count of an entry is between
    0 and its total, which is the number of suggestions.  When ownership
    is switched off there is no team coverage. *)
Theorem team_coverage_entries
    (minimatch : string → string → bool) (api : Api) (repo : string) (now : Z)
    (prAuthor : option string) (changedFiles : list string) (config : Config) :
  let result := analyzeReviewers minimatch api repo now prAuthor changedFiles
                  config in
  let rules := codeownersRulesOf api config in
  NoDup (map team (teamCoverage result))
  ∧ (∀ tc, tc ∈ teamCoverage result →
       0 ≤ count tc ≤ total tc
       ∧ total tc = Z.of_nat (length (suggestions result))
       ∧ ∃ r, r ∈ rules ∧ team tc ∈ teams r)
  ∧ (∀ r t, r ∈ rules → t ∈ teams r → t ∈ map team (teamCoverage result))
  ∧ (useCodeowners config = false → teamCoverage result = []).
Proof.
  intros result rules.
  set (sugg := suggestions result).
  assert (teamCoverage result = teamCoverageOf api config sugg) as -> by done.
  unfold teamCoverageOf. fold rules.
  assert (∀ r, r ∈ rules → owners r ≠ []) as Howners.
  { intros r Hr. unfold rules, codeownersRulesOf in Hr.
    destruct (useCodeowners config); [|by apply elem_of_nil in Hr].
    by apply parseCodeowners_owners in Hr. }
  assert (useCodeowners config = false → rules = []) as Hoff.
  { intros Hoff. unfold rules, codeownersRulesOf. by rewrite Hoff. }
  clearbody rules.
  destruct rules as [|r0 rs] eqn:Hrules.
  { split; [apply NoDup_nil_2|]. split; [by intros tc ?%elem_of_nil|].
    split; [by intros r t ?%elem_of_nil|done]. }
  rewrite <- Hrules in *.
  assert (rules ≠ []) as Hne by by rewrite Hrules.
  clear Hrules r0 rs.
  destruct (allTeams_spec rules) as [Hnd Hteams].
  set (allTeams := foldl (λ s r, foldl setAdd s (teams r)) [] rules) in *.
  set (f := λ tm : string, _).
  assert (∀ tm tc, f tm = Some tc →
            team tc = tm ∧ 0 ≤ count tc ≤ total tc
            ∧ total tc = Z.of_nat (length sugg)) as Hf.
  { intros tm tc. unfold f.
    destruct (teamMembers_spec rules tm) as [Hm _].
    set (members := foldl (λ s r, if bool_decide (tm ∈ teams r) then _ else s)
                          [] rules) in *.
    destruct members as [|m ms] eqn:Hmem; [done|]. rewrite <- Hmem in *.
    intros [= <-]. cbn [team count total]. split; [done|]. split; [|done].
    split; [lia|]. apply inj_le.
    rewrite <- (length_fmap (λ s, Str.toLowerCase (login s)) sugg).
    apply submseteq_length, NoDup_submseteq.
    - by apply NoDup_filter.
    - by intros x [? _]%list_elem_of_filter. }
  split; [|split; [|split]].
  - eapply sublist_NoDup; [exact Hnd|].
    apply omap_team_sublist. intros tm tc Htc. by apply Hf.
  - intros tc (tm & Htm & Htc)%list_elem_of_omap.
    destruct (Hf tm tc Htc) as (<- & ? & ?). split; [done|]. split; [done|].
    by apply Hteams.
  - intros r t Hr Ht. apply list_elem_of_fmap.
    destruct (f t) as [tc|] eqn:Htc.
    + exists tc. split; [by destruct (Hf t tc Htc) as [-> _]|].
      apply list_elem_of_omap. exists t. split; [|done].
      apply Hteams. by exists r.
    + exfalso. unfold f in Htc.
      destruct (teamMembers_spec rules t) as [_ Hm].
      destruct (owners r) as [|o os] eqn:Ho; [by apply (Howners r)|].
      specialize (Hm r o Hr Ht). rewrite Ho in Hm.
      specialize (Hm ltac:(by left)).
      set (members := foldl (λ s r, if bool_decide (t ∈ teams r) then _ else s)
                            [] rules) in *.
      destruct members; [by apply elem_of_nil in Hm|done].
  - intros Hflag. by destruct Hne; apply Hoff.
Qed.

Lemma team_coverage_entries_witness :
  "org/team" ∈ map team (teamCoverage (analyzeReviewers literalMatch teamApi
                                         "repo" 0 None ["a.js"] defaultConfig)).
Proof.
  destruct (team_coverage_entries literalMatch teamApi "repo" 0 None ["a.js"]
              defaultConfig) as (_ & _ & H & _).
  apply (H {| pattern := "*.js"; owners := ["alice"; "org/team"];
              teams := ["org/team"] |}).
  - apply list_elem_of_lookup_2 with 0%nat. vm_compute. reflexivity.
  - by left.
Defined.

Example team_coverage_example :
  teamCoverage (analyzeReviewers literalMatch teamApi "repo" 0 None
                  ["a.js"] defaultConfig)
  = [{| team := "org/team"; count := 0; total := 0 |}].
Proof. vm_compute. reflexivity. Qed.

(** ** Candidates with equal scores *)

Lemma insertBy_filter_key {A} (key : A → Z) (x : A) (l : list A) (s : Z) :
  filter (λ e, key e = s) (insertBy (λ a b, key b <=? key a) x l)
  = filter (λ e, key e = s) (x :: l).
Proof.
  induction l as [|y l IH]; [done|].
  cbn [insertBy]. destruct (key y <=? key x) eqn:Hle; [done|].
  apply Z.leb_gt in Hle. rewrite (filter_cons _ y), IH, !(filter_cons _ x).
  destruct (decide (key x = s)) as [Hx|Hx].
  - rewrite decide_False by lia. by rewrite (filter_cons_False _ y) by lia.
  - by rewrite (filter_cons _ y).
Qed.

Lemma stableSort_filter_key {A} (key : A → Z) (l : list A) (s : Z) :
  filter (λ e, key e = s) (stableSort (λ a b, key b <=? key a) l)
  = filter (λ e, key e = s) l.
Proof.
  unfold stableSort. induction l as [|x l IH]; [done|].
  cbn [foldr]. rewrite insertBy_filter_key, !filter_cons. by rewrite IH.
Qed.

Lemma filter_map_score {A} (f : A → Candidate) (l : list A) (s : Z) :
  filter (λ r, score r = s) (map f l) = map f (filter (λ e, score (f e) = s) l).
Proof.
  induction l as [|x l IH]; [done|].
  cbn [map]. rewrite !filter_cons, IH. by destruct (decide (score (f x) = s)).
Qed.

(** X14. The sorts are stable: candidates of [rankCandidates] with the same
    score are in the order in which their logins were first credited, and
    candidates with the same score after the load penalty or after the
    flaky penalty keep the order they had before it. *)
Theorem equal_scores_keep_order
    (minimatch : string → string → bool) (prAuthor : option string)
    (fileAuthors : list FileAuthors) (rules : list Rule) (files : list string)
    (latencyMap : jsmap Q) (weights : Weights) (cross : jsmap Z)
    (tz : option TimezoneData) (required : list string) (s : Z) :
  let t := tally minimatch prAuthor fileAuthors rules files latencyMap weights
             cross tz required in
  filter (λ r, score r = s)
    (rankCandidates minimatch prAuthor fileAuthors rules files latencyMap
       weights cross tz required)
  = map (toCandidate t) (filter (λ e, e.2 = s) (scores t))
  ∧ (∀ counts ranked,
       filter (λ r, score r = s) (loadPenalty (Some counts) ranked)
       = filter (λ r, score r = s) (map (loadOne counts) ranked))
  ∧ (∀ flaky ranked,
       filter (λ r, score r = s) (flakyPenalty flaky ranked)
       = filter (λ r, score r = s) (map (flakyOne flaky) ranked)).
Proof.
  intros t. split; [|split].
  - unfold rankCandidates. fold t. rewrite filter_map_score. f_equal.
    apply (stableSort_filter_key snd).
  - intros counts ranked. apply (stableSort_filter_key score).
  - intros flaky ranked. unfold flakyPenalty. case_bool_decide as He.
    + rewrite He. f_equal. erewrite map_ext; [by rewrite map_id|].
      intros r. apply flakyOne_empty.
    + apply (stableSort_filter_key score).
Qed.

(** ** The commit authors of the changed files *)

Lemma fileAuthorsOf_omap api repo changedFiles config :
  fileAuthorsOf api repo changedFiles config
  = omap (fileEntry api repo) (filesToCheck changedFiles config).
Proof.
  unfold fileAuthorsOf. generalize (filesToCheck changedFiles config) as files.
  intros files.
  assert (∀ acc, foldl (λ fileAuthors path,
                   match topCommitAuthorsForPath api repo path 30 with
                   | Some (a :: authors) =>
                       fileAuthors ++ [{| path := path; authors := a :: authors |}]
                   | _ => fileAuthors
                   end) acc files
                 = acc ++ omap (fileEntry api repo) files) as H.
  { induction files as [|p files IH]; intros acc; [by rewrite app_nil_r|].
    cbn [foldl omap list_omap]. rewrite IH. unfold fileEntry at 2.
    destruct (topCommitAuthorsForPath api repo p 30) as [[|a au]|]; [done| |done].
    by rewrite <- app_assoc. }
  apply (H []).
Qed.

Lemma fileEntry_Some api repo p fa :
  fileEntry api repo p = Some fa →
  path fa = p ∧ authors fa ≠ []
  ∧ ∃ resp, listCommits api repo p 30 = Some resp
      ∧ authors fa = omap (λ c, humanLogin (c_login c)) resp.
Proof.
  unfold fileEntry, topCommitAuthorsForPath.
  destruct (listCommits api repo p 30) as [resp|]; [|done].
  destruct (omap _ resp) as [|a au] eqn:Hau; [done|]. intros [= <-].
  split; [done|]. split; [done|]. by exists resp.
Qed.

Lemma omap_path_sublist api repo files :
  map path (omap (fileEntry api repo) files) `sublist_of` files.
Proof.
  induction files as [|p files IH]; [done|].
  cbn [omap list_omap]. destruct (fileEntry api repo p) as [fa|] eqn:Hfa.
  - apply fileEntry_Some in Hfa as [<- _]. by apply sublist_skip.
  - by apply sublist_cons.
Qed.

(** X15. The commit history has one entry for every checked path (the
    first [maxFiles] changed files) whose commits can be listed and have an
    author that is present and no bot, in the order of the changed files;
    a path whose lookup fails is skipped and the others are kept.  The
    authors of an entry are not empty and none is a bot. *)
Theorem file_authors_entries
    (api : Api) (repo : string) (changedFiles : list string) (config : Config) :
  let checked := filesToCheck changedFiles config in
  let fileAuthors := fileAuthorsOf api repo changedFiles config in
  0 ≤ maxFiles config →
  checked = take (Z.to_nat (maxFiles config)) changedFiles
  ∧ fileAuthors = omap (fileEntry api repo) checked
  ∧ map path fileAuthors `sublist_of` checked
  ∧ (length fileAuthors ≤ length checked)%nat
  ∧ (∀ fa, fa ∈ fileAuthors →
       authors fa ≠ [] ∧ ∀ a, a ∈ authors fa → isBotLogin a = false)
  ∧ (∀ p, p ∈ checked →
       p ∈ map path fileAuthors
       ↔ ∃ resp c l, listCommits api repo p 30 = Some resp ∧ c ∈ resp
                     ∧ c_login c = Some l ∧ isBotLogin l = false).
Proof.
  intros checked fileAuthors _. unfold fileAuthors.
  rewrite fileAuthorsOf_omap. fold checked.
  split; [done|]. split; [done|]. split; [apply omap_path_sublist|].
  split; [|split].
  - rewrite <- (length_fmap path). apply sublist_length, omap_path_sublist.
  - intros fa (p & _ & Hfa)%list_elem_of_omap.
    apply fileEntry_Some in Hfa as (_ & Hne & resp & _ & Hau).
    split; [done|]. intros a. rewrite Hau.
    intros (c & _ & Hc)%list_elem_of_omap.
    by apply humanLogin_Some in Hc as [_ ?].
  - intros p Hp. split.
    + intros (fa & -> & (p' & _ & Hfa)%list_elem_of_omap)%list_elem_of_fmap.
      apply fileEntry_Some in Hfa as (<- & Hne & resp & Hresp & Hau).
      destruct (authors fa) as [|a au] eqn:Ha; [done|].
      assert (a ∈ omap (λ c, humanLogin (c_login c)) resp) as Hin
        by (rewrite <- Hau; by left).
      apply list_elem_of_omap in Hin as (c & Hc & Hh).
      apply humanLogin_Some in Hh as [? ?]. by exists resp, c, a.
    + intros (resp & c & l & Hresp & Hc & Hl & Hb).
      assert (l ∈ omap (λ c, humanLogin (c_login c)) resp) as Hin.
      { apply list_elem_of_omap. exists c. split; [done|].
        by apply humanLogin_Some. }
      apply list_elem_of_fmap.
      exists {| path := p; authors := omap (λ c, humanLogin (c_login c)) resp |}.
      split; [done|]. apply list_elem_of_omap. exists p. split; [done|].
      unfold fileEntry, topCommitAuthorsForPath. rewrite Hresp.
      destruct (omap _ resp); [by apply elem_of_nil in Hin|done].
Qed.

Lemma file_authors_entries_witness :
  map path (fileAuthorsOf fullApi "repo"
              ["src/api/users.ts"; "src/api/billing.ts"] fullConfig)
  = ["src/api/users.ts"].
Proof.
  destruct (file_authors_entries fullApi "repo"
              ["src/api/users.ts"; "src/api/billing.ts"] fullConfig)
    as (_ & -> & _).
  - vm_compute. discriminate.
  - vm_compute. reflexivity.
Defined.

(** ** When no request succeeds *)

Lemma rankCandidates_elem_of minimatch prAuthor fileAuthors rules files
    latencyMap weights cross tz required r :
  let t := tally minimatch prAuthor fileAuthors rules files latencyMap weights
             cross tz required in
  r ∈ rankCandidates minimatch prAuthor fileAuthors rules files latencyMap
        weights cross tz required →
  login r ∈ mkeys (scores t) ∧ score r = scoreOf t (login r)
  ∧ reasons r = reasonsFor t (login r) ∧ openReviews r = None.
Proof.
  intros t. unfold rankCandidates. fold t.
  intros ([k v] & -> & Hin%elem_of_stableSort)%list_elem_of_fmap.
  cbn [toCandidate login score reasons openReviews fst snd].
  split; [apply list_elem_of_fmap; by exists (k, v)|].
  apply elem_of_mget in Hin; [|apply tally_NoDup].
  unfold scoreOf. by rewrite Hin.
Qed.

Lemma add_reasonsFor prAuthor t l pts reason k :
  reason ≠ EmptyString → scorable prAuthor l →
  reasonsFor (add prAuthor t l pts reason) k
  = if decide (l = k) then setAdd (reasonsFor t k) reason else reasonsFor t k.
Proof.
  intros Hr [Hb Ha]. unfold reasonsFor, add. rewrite Hb.
  rewrite bool_decide_eq_false_2 by done. cbn [reasonsOf].
  rewrite mget_mset. destruct (decide (l = k)) as [->|]; [|done].
  by destruct reason.
Qed.

Lemma creditRequired_only prAuthor required k :
  let t := creditRequired prAuthor required emptyTally in
  k ∈ mkeys (scores t) →
  k ∈ required ∧ scorable prAuthor k ∧ reasonsFor t k = ["required reviewer"].
Proof.
  intros t Hk.
  assert ((k ∈ mkeys (scores t) → k ∈ required ∧ scorable prAuthor k)
          ∧ (reasonsFor t k = [] ∨ reasonsFor t k = ["required reviewer"]))
    as [Hkeys Hreasons].
  { unfold t, creditRequired.
    apply (foldl_invariant
             (λ t, (k ∈ mkeys (scores t) → k ∈ required ∧ scorable prAuthor k)
                   ∧ (reasonsFor t k = [] ∨ reasonsFor t k = ["required reviewer"]))).
    - split; [by intros ?%elem_of_nil|by left].
    - intros t' l Hl [Hk' Hr'].
      destruct (decide (scorable prAuthor l)) as [Hs|Hs];
        [|by rewrite requireOne_skip].
      rewrite requireOne_unfold by done. split.
      + intros [?|[-> ?]]%add_keys; [by apply Hk'|done].
      + rewrite add_reasonsFor by done.
        destruct (decide (l = k)) as [->|]; [|done]. right.
        by destruct Hr' as [-> | ->]. }
  destruct (Hkeys Hk) as [Hreq Hs]. split; [done|]. split; [done|].
  destruct Hreasons as [Hnil|?]; [|done].
  pose proof (creditRequired_reason prAuthor required emptyTally k Hs Hreq) as Hin.
  fold t in Hin. rewrite Hnil in Hin. by apply elem_of_nil in Hin.
Qed.

Section no_answers.
Variable minimatch : string → string → bool.
Variable api : Api.
Variable repo : string.
Variable now : Z.
Variable prAuthor : option string.
Variable changedFiles : list string.
Variable config : Config.
Hypothesis no_commits : ∀ r p n, listCommits api r p n = None.
Hypothesis no_pulls : ∀ st n, listPulls api st n = None.
Hypothesis no_content : ∀ p, getContent api p = None.

Lemma no_answers_fileAuthors : fileAuthorsOf api repo changedFiles config = [].
Proof.
  rewrite fileAuthorsOf_omap.
  induction (filesToCheck changedFiles config) as [|p ps IH]; [done|].
  cbn [omap list_omap]. unfold fileEntry at 1, topCommitAuthorsForPath.
  by rewrite no_commits.
Qed.

Lemma no_answers_rules : codeownersRulesOf api config = [].
Proof.
  unfold codeownersRulesOf, fetchCodeownersText, tryFetchFileText.
  destruct (useCodeowners config); [|done]. simpl. by rewrite !no_content.
Qed.

Lemma no_answers_latency : latencyMapOf api now config = [].
Proof.
  unfold latencyMapOf, computeReviewerLatencyHours.
  destruct (useLatency config); [|done]. by rewrite no_pulls.
Qed.

Lemma no_answers_cross : crossRepoExpertiseOf api changedFiles config = [].
Proof.
  unfold crossRepoExpertiseOf. destruct (crossRepoList config) as [|r rs]; [done|].
  generalize (r :: rs) as repos. intros repos. unfold fetchCrossRepoExpertise.
  apply (foldl_invariant (λ m : jsmap Z, m = [])); [done|].
  intros m r' _ ->. apply (foldl_invariant (λ m : jsmap Z, m = [])); [done|].
  intros m p _ ->. by rewrite no_commits.
Qed.

Lemma no_answers_excluded :
  excludedOf api config
  = list_to_set (map Str.toLowerCase (excludeReviewersInput config)).
Proof.
  unfold excludedOf, fetchExcludedReviewers, tryFetchFileText.
  by rewrite no_content.
Qed.

Lemma no_answers_base :
  baseRanking minimatch api repo now prAuthor changedFiles config
  = rankCandidates minimatch prAuthor [] [] (filesToCheck changedFiles config)
      [] (weightsOf config) [] (timezoneDataOf api repo changedFiles config)
      (requiredReviewers config)
  ∧ tally minimatch prAuthor [] [] (filesToCheck changedFiles config)
      [] (weightsOf config) [] (timezoneDataOf api repo changedFiles config)
      (requiredReviewers config)
    = creditRequired prAuthor (requiredReviewers config) emptyTally.
Proof.
  unfold baseRanking.
  rewrite no_answers_fileAuthors, no_answers_rules, no_answers_latency,
    no_answers_cross.
  split; [done|]. unfold tally, tallySignals. f_equal.
  unfold creditOwners, creditLatency, creditCrossRepo, creditTimezone.
  rewrite andb_false_r. cbn [foldl bool_decide]. 
  unfold timezoneDataOf. rewrite no_answers_fileAuthors.
  destruct (0 <? latency (weightsOf config));
    by destruct (parseTimezoneOffset (preferTimezone config)).
Qed.

Lemma no_answers_final :
  finalRanking minimatch api repo now prAuthor changedFiles config
  = excludeFilter (excludedOf api config)
      (baseRanking minimatch api repo now prAuthor changedFiles config).
Proof.
  unfold finalRanking, flakyReviewersOf, detectFlakyReviewers, afterLoad,
    computeOpenReviewCounts, afterExclusion.
  rewrite !no_pulls. unfold flakyPenalty.
  assert (bool_decide ((if detectFlaky config then default ∅ None else ∅)
                       = (∅ : gset string)) = true) as ->
    by (by destruct (detectFlaky config)).
  by destruct (penalizeLoad config).
Qed.

End no_answers.

(** X16. When no request to the API succeeds the analysis still returns:
    the ranking holds exactly the required reviewers that can be scored and
    are not excluded by the input, each with the score of the required
    signal alone and this one reason, no load is recorded, the confidence
    is Low and there is no team coverage. *)
Theorem nothing_but_required_without_answers
    (minimatch : string → string → bool) (api : Api) (repo : string) (now : Z)
    (prAuthor : option string) (changedFiles : list string) (config : Config) :
  let final := finalRanking minimatch api repo now prAuthor changedFiles config in
  let result := analyzeReviewers minimatch api repo now prAuthor changedFiles
                  config in
  let required := requiredReviewers config in
  let excluded := map Str.toLowerCase (excludeReviewersInput config) in
  (∀ r p n, listCommits api r p n = None) →
  (∀ st n, listPulls api st n = None) →
  (∀ p, getContent api p = None) →
  (∀ r, r ∈ final →
     login r ∈ required ∧ scorable prAuthor (login r)
     ∧ (Str.toLowerCase (login r) ∉ excluded)
     ∧ score r = requiredTotal 0 (countOf (login r) required)
     ∧ reasons r = ["required reviewer"]
     ∧ openReviews r = None)
  ∧ (∀ l, l ∈ required → scorable prAuthor l →
          Str.toLowerCase l ∉ excluded → l ∈ map login final)
  ∧ confidence result = Low
  ∧ teamCoverage result = [].
Proof.
  intros final result required excluded Hc Hp Hg.
  destruct (no_answers_base minimatch api repo now prAuthor changedFiles config
              Hc Hp Hg) as [Hbase Htally].
  pose proof (no_answers_final minimatch api repo now prAuthor changedFiles
                config Hp) as Hfinal.
  pose proof (no_answers_excluded api config Hg) as Hex.
  fold final in Hfinal. rewrite Hbase, Hex in Hfinal.
  split; [|split; [|split]].
  - intros r. rewrite Hfinal.
    intros [Hr Hni]%excludeFilter_spec.
    apply rankCandidates_elem_of in Hr as (Hk & Hs & Hrs & Ho).
    rewrite Htally in Hk, Hs, Hrs.
    destruct (creditRequired_only prAuthor required (login r) Hk)
      as (Hreq & Hsc & Hreason).
    split; [done|]. split; [done|]. split.
    + intros Hin. apply Hni. by apply elem_of_list_to_set.
    + split; [|by rewrite Hrs]. rewrite Hs.
      by rewrite creditRequired_scoreOf.
  - intros l Hl Hs Hni. rewrite Hfinal.
    pose proof (creditRequired_keys prAuthor required emptyTally l Hs Hl) as Hk.
    fold required in Htally. rewrite <- Htally in Hk.
    apply rankCandidates_candidate in Hk as (r & Hr & <- & _).
    apply list_elem_of_fmap. exists r. split; [done|].
    apply excludeFilter_spec. split; [done|].
    intros Hin. apply Hni. by apply elem_of_list_to_set in Hin.
  - change (confidence result)
      with (computeConfidence minimatch final (filesToCheck changedFiles config)
              (codeownersRulesOf api config)
              (fileAuthorsOf api repo changedFiles config)).
    rewrite (no_answers_rules api config Hg),
      (no_answers_fileAuthors api repo changedFiles config Hc).
    unfold computeConfidence.
    assert (∀ q, (0 < q)%Q →
              Qle_bool q (coverageRatio minimatch
                            (filesToCheck changedFiles config) [] []) = false)
      as Hq.
    { intros q Hpos. apply Qle_bool_false.
      by rewrite coverageRatio_no_signal. }
    rewrite !Hq by done. by rewrite !andb_false_r.
  - change (teamCoverage result)
      with (teamCoverageOf api config (suggestions result)).
    unfold teamCoverageOf. by rewrite (no_answers_rules api config Hg).
Qed.

Lemma nothing_but_required_without_answers_witness :
  map (λ r, (login r, score r))
      (finalRanking literalMatch quietApi "repo" 0 (Some "author") ["a.js"]
         requiredConfig)
  = [("bob", 10)]
  ∧ confidence (analyzeReviewers literalMatch quietApi "repo" 0 (Some "author")
                  ["a.js"] requiredConfig) = Low.
Proof.
  split; [vm_compute; reflexivity|].
  by apply (nothing_but_required_without_answers literalMatch quietApi "repo" 0
              (Some "author") ["a.js"] requiredConfig).
Defined.

(** ** The credit of the owners *)

Lemma ownerKey_inj o1 o2 f1 f2 :
  noColon o1 → noColon o2 →
  o1 +:+ "::" +:+ f1 = o2 +:+ "::" +:+ f2 → o1 = o2 ∧ f1 = f2.
Proof.
  unfold noColon. revert o2. induction o1 as [|c o1 IH]; intros [|c2 o2] H1 H2;
    repeat (rewrite append_nil_l || rewrite append_cons).
  - by intros [= ->].
  - intros [= <- _]. by vm_compute in H2.
  - intros [= -> _]. by vm_compute in H1.
  - intros [= -> Heq].
    simpl in H1, H2. apply andb_true_iff in H1 as [_ H1].
    apply andb_true_iff in H2 as [_ H2].
    by destruct (IH o2 H1 H2 Heq) as [-> ->].
Qed.

Section owner_credit.
Variable minimatch : string → string → bool.
Variable prAuthor : option string.
Variable weights : Weights.
Variable l : string.
Hypothesis l_scorable : scorable prAuthor l.
Hypothesis l_noColon : noColon l.

(** The owners of one file. *)
Lemma creditOwner_file f os acc :
  (∀ o, o ∈ os → noColon o) →
  let acc' := foldl (creditOwner prAuthor weights f) acc os in
  (∀ key, key ∈ acc'.2
          ↔ key ∈ acc.2 ∨ ∃ o, o ∈ os ∧ o ≠ EmptyString ∧ key = o +:+ "::" +:+ f)
  ∧ scoreOf acc'.1 l
    = scoreOf acc.1 l
      + (if decide (l ∈ os ∧ l +:+ "::" +:+ f ∉ acc.2) then codeowners weights
         else 0).
Proof.
  revert acc. induction os as [|o os IH]; intros acc Hos.
  - cbn [foldl]. cbv zeta. split.
    + intros key. split; [by left|]. by intros [?|(? & ?%elem_of_nil & _)].
    + rewrite decide_False; [lia|]. by intros [?%elem_of_nil _].
  - assert (∀ o', o' ∈ os → noColon o') as Hos'
      by (intros o' ?; apply Hos; by right).
    assert (noColon o) as Ho by (apply Hos; by left).
    cbn [foldl]. cbv zeta in IH |- *.
    destruct (IH (creditOwner prAuthor weights f acc o) Hos') as [IHk IHs].
    clear IH. unfold creditOwner in IHk, IHs |- *.
    destruct o as [|c o'] eqn:Heqo.
    { split.
      - intros key. rewrite IHk. split.
        + intros [?|(o2 & ? & ? & ?)]; [by left|]. right. exists o2.
          split; [by right|done].
        + intros [?|(o2 & [->|?]%elem_of_cons & ? & ?)]; [by left|done|].
          right. by exists o2.
      - rewrite IHs. f_equal.
        assert (l ≠ EmptyString) as Hl
          by (intros ->; by destruct l_scorable as [? _]).
        destruct (decide (l ∈ os ∧ _)) as [[? ?]|Hn].
        + rewrite decide_True; [done|]. split; [by right|done].
        + rewrite decide_False; [done|].
          intros [[?|?]%elem_of_cons ?]; [done|]. by apply Hn. }
    rewrite <- Heqo in *. assert (o ≠ EmptyString) as Hne by by rewrite Heqo.
    clear Heqo c o'.
    case_bool_decide as Hseen.
    + split.
      * intros key. rewrite IHk. split.
        -- intros [?|(o2 & ? & ? & ?)]; [by left|]. right. exists o2.
           split; [by right|done].
        -- intros [?|(o2 & [->|?]%elem_of_cons & ? & ->)]; [by left|by left|].
           right. by exists o2.
      * rewrite IHs. f_equal.
        destruct (decide (l ∈ os ∧ _)) as [[? ?]|Hn].
        -- rewrite decide_True; [done|]. split; [by right|done].
        -- rewrite decide_False; [done|].
           intros [[->|?]%elem_of_cons ?]; [done|]. by apply Hn.
    + cbn [fst snd] in *. split.
      * intros key. rewrite IHk, elem_of_union, elem_of_singleton. split.
        -- intros [[->|?]|(o2 & ? & ? & ?)]; [|by left|].
           ++ right. exists o. split; [by left|done].
           ++ right. exists o2. split; [by right|done].
        -- intros [?|(o2 & [->|?]%elem_of_cons & ? & ->)];
             [by left; right|by left; left|].
           right. by exists o2.
      * rewrite IHs. destruct (decide (o = l)) as [->|Hol].
        -- rewrite add_scoreOf_same by done.
           rewrite decide_False by (intros [_ Hn]; apply Hn, elem_of_union;
                                    left; by apply elem_of_singleton).
           rewrite decide_True; [lia|]. split; [by left|done].
        -- rewrite add_scoreOf_other by done. f_equal.
           assert (l +:+ "::" +:+ f ≠ o +:+ "::" +:+ f) as Hkey
             by (intros Heq; by apply ownerKey_inj in Heq as [? _]).
           destruct (decide (l ∈ os ∧ _)) as [[? Hn]|Hn].
           ++ rewrite decide_True; [done|]. split; [by right|].
              intros ?. apply Hn, elem_of_union. by right.
           ++ rewrite decide_False; [done|].
              intros [[->|?]%elem_of_cons Hn']; [done|]. apply Hn.
              split; [done|]. intros [?%elem_of_singleton|?]%elem_of_union; done.
Qed.

End owner_credit.

Section owners_credit.
Variable minimatch : string → string → bool.
Variable prAuthor : option string.
Variable weights : Weights.
Variable rules : list Rule.
Variable l : string.
Hypothesis l_scorable : scorable prAuthor l.
Hypothesis l_noColon : noColon l.
Hypothesis owners_noColon : ∀ r o, r ∈ rules → o ∈ owners r → noColon o.

Lemma ownersForFile_noColon f o :
  o ∈ ownersForFile minimatch rules f → noColon o.
Proof.
  intros Ho. destruct (ownersForFile_rule minimatch rules f) as [Hnil|(r & Hr & Heq)].
  - rewrite Hnil in Ho. by apply elem_of_nil in Ho.
  - rewrite Heq in Ho. by apply (owners_noColon r).
Qed.

Lemma ownedFiles_snoc files f :
  size (ownedFiles minimatch rules (files ++ [f]) l)
  = (size (ownedFiles minimatch rules files l)
     + if decide (l ∈ ownersForFile minimatch rules f ∧ f ∉ files) then 1 else 0)%nat.
Proof.
  unfold ownedFiles.
  assert (list_to_set (files ++ [f])
          = (list_to_set files ∪ {[f]} : gset string)) as ->.
  { apply set_eq. intros x.
    rewrite elem_of_union, elem_of_singleton, !elem_of_list_to_set,
      elem_of_app, list_elem_of_singleton. done. }
  destruct (decide (f ∈ files)) as [Hf|Hf].
  - rewrite decide_False by (by intros [_ ?]).
    replace (list_to_set files ∪ {[f]}) with (list_to_set files : gset string);
      [lia|].
    apply set_eq. intros x. rewrite elem_of_union, elem_of_singleton,
      elem_of_list_to_set. split; [by left|by intros [?| ->]].
  - rewrite filter_union_L; [|apply _]. rewrite size_union.
    + f_equal. rewrite filter_singleton_L; [|apply _]. cbv beta.
      destruct (decide (l ∈ ownersForFile minimatch rules f ∧ f ∉ files))
        as [[Hl _]|Hn].
      * rewrite decide_True by done. apply size_singleton.
      * rewrite decide_False by (intros Hl; by apply Hn). apply size_empty.
    + intros x [_ Hx%elem_of_list_to_set]%elem_of_filter
        [_ ->%elem_of_singleton]%elem_of_filter. done.
Qed.

Lemma creditOwners_files t files done acc :
  (∀ key, key ∈ acc.2
          ↔ ∃ f o, f ∈ done ∧ o ∈ ownersForFile minimatch rules f
                   ∧ o ≠ EmptyString ∧ key = o +:+ "::" +:+ f) →
  scoreOf acc.1 l
  = scoreOf t l
    + codeowners weights * Z.of_nat (size (ownedFiles minimatch rules done l)) →
  scoreOf (foldl (λ acc f,
                    foldl (creditOwner prAuthor weights f) acc
                          (ownersForFile minimatch rules f))
                 acc files).1 l
  = scoreOf t l
    + codeowners weights
      * Z.of_nat (size (ownedFiles minimatch rules (done ++ files) l)).
Proof.
  revert done acc. induction files as [|f files IH]; intros done acc Hkeys Hscore.
  - by rewrite app_nil_r.
  - cbn [foldl]. rewrite (assoc_L (++) done [f] files : done ++ f :: files = _).
    destruct (creditOwner_file prAuthor weights l l_scorable l_noColon f
                (ownersForFile minimatch rules f) acc) as [Hk Hs].
    { intros o. apply ownersForFile_noColon. }
    assert (l ≠ EmptyString) as Hl
      by (intros ->; by destruct l_scorable as [? _]).
    apply IH.
    + intros key. rewrite Hk, Hkeys. split.
      * intros [(f' & o & ? & ? & ? & ?)|(o & ? & ? & ?)].
        -- exists f', o. split; [apply elem_of_app; by left|done].
        -- exists f, o. split; [apply elem_of_app; right; by left|done].
      * intros (f' & o & [?|Hf'%list_elem_of_singleton]%elem_of_app & ? & ? & ?).
        -- left. by exists f', o.
        -- subst f'. right. by exists o.
    + rewrite Hs, Hscore, ownedFiles_snoc.
      destruct (decide (l ∈ ownersForFile minimatch rules f ∧ f ∉ done))
        as [[Hin Hnew]|Hn].
      * rewrite decide_True; [lia|]. split; [done|].
        intros (f' & o & Hf' & Ho & _ & Heq)%Hkeys.
        apply ownerKey_inj in Heq as [_ ->];
          [done|done|by eapply ownersForFile_noColon].
      * rewrite decide_False; [lia|]. intros [Hin Hseen]. apply Hn.
        split; [done|]. intros Hdone. apply Hseen, Hkeys. by exists f, l.
Qed.

End owners_credit.

Lemma creditOwners_scoreOf minimatch prAuthor weights rules files t l :
  scorable prAuthor l →
  noColon l →
  (∀ r o, r ∈ rules → o ∈ owners r → noColon o) →
  scoreOf (creditOwners minimatch prAuthor weights rules files t) l
  = scoreOf t l
    + Z.max 0 (codeowners weights)
      * Z.of_nat (size (ownedFiles minimatch rules files l)).
Proof.
  intros Hl Hc Hrules.
  unfold creditOwners. destruct (0 <? codeowners weights) eqn:Hw.
  - apply Z.ltb_lt in Hw. rewrite Z.max_r by lia.
    case_bool_decide as Hr; cbn [andb negb].
    + subst rules. unfold ownedFiles.
      replace (filter _ _) with (∅ : gset string);
        [rewrite size_empty; lia|].
      symmetry. apply set_eq. intros x. rewrite elem_of_filter. simpl.
      split; [by intros [?%elem_of_nil _]|by intros ?%elem_of_empty].
    + apply (creditOwners_files minimatch prAuthor weights rules l Hl Hc
               Hrules t files [] (t, ∅)).
      * intros key. split; [by intros ?%elem_of_empty|].
         by intros (f & o & ?%elem_of_nil & _).
      * cbn [fst]. unfold ownedFiles. simpl.
         replace (filter _ _) with (∅ : gset string);
           [rewrite size_empty; lia|].
         symmetry. apply set_eq. intros x. rewrite elem_of_filter.
         split; [by intros [_ ?%elem_of_empty]|by intros ?%elem_of_empty].
  - apply Z.ltb_ge in Hw. rewrite Z.max_l by lia. simpl. lia.
Qed.

(** X17. The ownership signal credits a login that can be scored with the
    ownership weight once for every distinct changed file it owns: a file
    listed twice or an owner named twice counts once.  Names are taken to be
    free of colons, as logins and team names are, so that the keys
    [owner::file] of the code tell the pairs apart.  With a weight of 0 or
    without rules nothing is credited. *)
Theorem owners_credited_once_per_file
    (minimatch : string → string → bool) (prAuthor : option string)
    (weights : Weights) (rules : list Rule) (files : list string) (t : Tally)
    (l : string) :
  scorable prAuthor l →
  noColon l →
  (∀ r o, r ∈ rules → o ∈ owners r → noColon o) →
  scoreOf (creditOwners minimatch prAuthor weights rules files t) l
  = scoreOf t l
    + Z.max 0 (codeowners weights)
      * Z.of_nat (size (ownedFiles minimatch rules files l))
  ∧ (codeowners weights ≤ 0 ∨ rules = [] →
     creditOwners minimatch prAuthor weights rules files t = t).
Proof.
  intros Hl Hc Hrules. split; [by apply creditOwners_scoreOf|].
  unfold creditOwners. intros [Hw| ->].
  - by rewrite (proj2 (Z.ltb_ge 0 (codeowners weights)) Hw).
  - by rewrite andb_false_r.
Qed.

Lemma owners_credited_once_per_file_witness :
  scoreOf (creditOwners literalMatch None defaultWeights
             [{| pattern := "/a.js"; owners := ["alice"; "alice"]; teams := [] |}]
             ["a.js"; "b.js"; "a.js"] emptyTally) "alice"
  = 0 + Z.max 0 (codeowners defaultWeights)
        * Z.of_nat (size (ownedFiles literalMatch
                            [{| pattern := "/a.js"; owners := ["alice"; "alice"];
                                teams := [] |}]
                            ["a.js"; "b.js"; "a.js"] "alice")).
Proof.
  apply (owners_credited_once_per_file literalMatch None defaultWeights
           [{| pattern := "/a.js"; owners := ["alice"; "alice"]; teams := [] |}]
           ["a.js"; "b.js"; "a.js"] emptyTally "alice").
  - split; [vm_compute; reflexivity|discriminate].
  - reflexivity.
  - intros r o Hr. apply list_elem_of_singleton in Hr as ->.
    intros Ho. repeat (apply elem_of_cons in Ho as [->|Ho]; [reflexivity|]).
    by apply elem_of_nil in Ho.
Defined.

Example owners_credit_example :
  scoreOf (creditOwners literalMatch None defaultWeights
             [{| pattern := "/a.js"; owners := ["alice"; "alice"]; teams := [] |}]
             ["a.js"; "b.js"; "a.js"] emptyTally) "alice" = 4.
Proof. vm_compute. reflexivity. Qed.

(** ** The score as a sum of signals *)

Section signal_sum.
Variable minimatch : string → string → bool.
Variable prAuthor : option string.
Variable l : string.
Hypothesis l_scorable : scorable prAuthor l.

Lemma foldl_creditAuthors_scoreOf weights fileAuthors t :
  scoreOf (foldl (creditAuthors prAuthor weights) t fileAuthors) l
  = scoreOf t l + commitTotal weights fileAuthors l.
Proof.
  revert t. induction fileAuthors as [|fa fas IH]; intros t.
  - simpl. lia.
  - cbn [foldl commitTotal foldr]. rewrite IH, creditAuthors_scoreOf by done.
    fold (commitTotal weights fas l). lia.
Qed.

Lemma creditCrossRepo_scoreOf cross t :
  NoDup (mkeys cross) →
  scoreOf (creditCrossRepo prAuthor cross t) l = scoreOf t l + crossTotal cross l.
Proof.
  unfold creditCrossRepo, crossTotal. revert t.
  induction cross as [|[k n] cross IH]; intros t Hnd.
  - simpl. lia.
  - apply NoDup_cons in Hnd as [Hk Hnd]. cbn [foldl mget fst snd].
    rewrite IH by done. destruct (decide (k = l)) as [->|Hne].
    + rewrite add_scoreOf_same by done.
      destruct (mget cross l) as [n'|] eqn:Hl; [|lia].
      exfalso. apply Hk, elem_of_mkeys. by eexists.
    + by rewrite add_scoreOf_other.
Qed.

Lemma timezoneBonus_nonneg avg off : 0 ≤ timezoneBonus avg off.
Proof. unfold timezoneBonus. cbv zeta. repeat case_match; lia. Qed.

Lemma creditTimezone_scoreOf tz t :
  (∀ d avg, tz = Some d → avgHours d = Some avg → NoDup (mkeys avg)) →
  scoreOf (creditTimezone prAuthor tz t) l = scoreOf t l + timezoneTotal tz l.
Proof.
  unfold creditTimezone, timezoneTotal. destruct tz as [d|]; [|intros _; lia].
  destruct (preferredOffset d) as [off|]; [|intros _; lia].
  intros Hnd. destruct (avgHours d) as [avg|] eqn:Havg; [|simpl; lia].
  specialize (Hnd d avg eq_refl Havg).
  change (default [] (Some avg)) with avg. clear Havg. revert t.
  induction avg as [|[k h] avg IH]; intros t.
  - simpl. lia.
  - apply NoDup_cons in Hnd as [Hk Hnd]. cbn [foldl mget fst snd].
    rewrite IH by done. pose proof (timezoneBonus_nonneg h off) as Hb.
    destruct (decide (k = l)) as [->|Hne].
    + destruct (mget avg l) as [h'|] eqn:Hl;
        [exfalso; apply Hk, elem_of_mkeys; by eexists|].
      destruct (0 <? timezoneBonus h off) eqn:Hpos.
      * rewrite add_scoreOf_same by done. lia.
      * apply Z.ltb_ge in Hpos. lia.
    + destruct (0 <? timezoneBonus h off); [|done].
      by rewrite add_scoreOf_other.
Qed.

End signal_sum.

(** X18. The score that [rankCandidates] gives a login that can be scored
    is the sum of its five signals (commits by position over all paths,
    the ownership weight for every distinct file it owns, the latency
    bonus, at most 5 for commits on other repositories, the timezone
    bonus), to which the required-reviewer step adds 10 when the sum is 0
    and 5 otherwise, and 5 more for every further mention in the list.
    The maps hold each login once, as the analysis builds them, and names
    are free of colons. *)
Theorem score_is_sum_of_signals
    (minimatch : string → string → bool) (prAuthor : option string)
    (fileAuthors : list FileAuthors) (rules : list Rule) (files : list string)
    (latencyMap : jsmap Q) (weights : Weights) (cross : jsmap Z)
    (tz : option TimezoneData) (required : list string) (l : string) :
  let t := tally minimatch prAuthor fileAuthors rules files latencyMap weights
             cross tz required in
  let total := requiredTotal
                 (signalsTotal minimatch fileAuthors rules files latencyMap
                    weights cross tz l)
                 (countOf l required) in
  scorable prAuthor l →
  noColon l →
  (∀ r o, r ∈ rules → o ∈ owners r → noColon o) →
  0 < commitHistory weights →
  NoDup (mkeys latencyMap) →
  NoDup (mkeys cross) →
  (∀ k v, (k, v) ∈ cross → 1 ≤ v) →
  (∀ d avg, tz = Some d → avgHours d = Some avg → NoDup (mkeys avg)) →
  scoreOf t l = total
  ∧ (∀ r, r ∈ rankCandidates minimatch prAuthor fileAuthors rules files
                latencyMap weights cross tz required →
          login r = l → score r = total)
  ∧ (0 < total →
     ∃ r, r ∈ rankCandidates minimatch prAuthor fileAuthors rules files
                latencyMap weights cross tz required
          ∧ login r = l ∧ score r = total).
Proof.
  intros t total Hl Hc Hrules Hw Hlat Hcross Hpos Htz.
  assert (scoreOf (tallySignals minimatch prAuthor fileAuthors rules files
                     latencyMap weights cross tz) l
          = signalsTotal minimatch fileAuthors rules files latencyMap weights
              cross tz l) as Hsig.
  { unfold tallySignals, signalsTotal.
    rewrite creditTimezone_scoreOf, creditCrossRepo_scoreOf,
      creditLatency_scoreOf by done.
    rewrite creditOwners_scoreOf, foldl_creditAuthors_scoreOf by done.
    unfold ownerTotal, latencyTotal. cbn. lia. }
  assert (0 ≤ scoreOf (tallySignals minimatch prAuthor fileAuthors rules files
                         latencyMap weights cross tz) l) as Hnn.
  { unfold scoreOf.
    destruct (mget (scores (tallySignals _ _ _ _ _ _ _ _ _)) l) as [v|] eqn:Hv;
      [|done].
    apply (tally_values_pos minimatch prAuthor weights cross Hw Hpos
             fileAuthors rules files latencyMap tz [] l v) in Hv.
    simpl. lia. }
  assert (scoreOf t l = total) as Htotal.
  { unfold t, tally. rewrite creditRequired_scoreOf by done. by rewrite Hsig. }
  split; [done|]. split.
  - intros r Hr <-. by apply rankCandidates_elem_of in Hr as (_ & -> & _).
  - intros Htpos.
    assert (l ∈ mkeys (scores t)) as Hk.
    { apply elem_of_mkeys. unfold scoreOf in Htotal.
      destruct (mget (scores t) l); [by eexists|simpl in Htotal; lia]. }
    apply rankCandidates_candidate in Hk as (r & Hr & Hlr & Hs & _).
    exists r. split; [done|]. split; [done|]. by rewrite Hs.
Qed.

Lemma score_is_sum_of_signals_witness :
  scoreOf (tally literalMatch (Some "author")
             [{| path := "a.js"; authors := ["alice"; "bob"] |}]
             [{| pattern := "/a.js"; owners := ["alice"]; teams := [] |}]
             ["a.js"] [("alice", 2%Q)] defaultWeights [("alice", 7)]
             (Some {| preferredOffset := Some 5; avgHours := Some [("alice", 9)] |})
             ["alice"; "bob"]) "alice"
  = 26.
Proof.
  destruct (score_is_sum_of_signals literalMatch (Some "author")
             [{| path := "a.js"; authors := ["alice"; "bob"] |}]
             [{| pattern := "/a.js"; owners := ["alice"]; teams := [] |}]
             ["a.js"] [("alice", 2%Q)] defaultWeights [("alice", 7)]
             (Some {| preferredOffset := Some 5; avgHours := Some [("alice", 9)] |})
             ["alice"; "bob"] "alice") as [H _].
  - split; [vm_compute; reflexivity|discriminate].
  - reflexivity.
  - intros r o Hr. apply list_elem_of_singleton in Hr as ->.
    intros Ho. apply list_elem_of_singleton in Ho as ->. reflexivity.
  - reflexivity.
  - apply NoDup_singleton.
  - apply NoDup_singleton.
  - intros k v [[= -> ->]|?%elem_of_nil]%elem_of_cons; [lia|done].
  - intros d avg [= <-] [= <-]. apply NoDup_singleton.
  - rewrite H. vm_compute. reflexivity.
Defined.

(** ** The preferred timezone *)









(** ** The reasons of a candidate *)

Lemma signalReason_nonempty x : signalReason x → x ≠ EmptyString.
Proof.
  intros [Hin|[m ->]]; [|done].
  intros ->. revert Hin. by eapply bool_decide_eq_false_1.
Qed.

Section reasons_facts.
Variable minimatch : string → string → bool.
Variable prAuthor : option string.

Lemma tally_reasons_inv fileAuthors rules files latencyMap weights cross tz
    required k :
  let t := tally minimatch prAuthor fileAuthors rules files latencyMap weights
             cross tz required in
  (k ∈ mkeys (scores t) → reasonsFor t k ≠ []) ∧ NoDup (reasonsFor t k).
Proof.
  cbv zeta. revert k. apply (tally_signal minimatch prAuthor weights cross
    (λ t, ∀ k, (k ∈ mkeys (scores t) → reasonsFor t k ≠ [])
               ∧ NoDup (reasonsFor t k))).
  - intros t l pts reason Ht Hsig k.
    destruct (decide (scorable prAuthor l)) as [Hl|Hl]; [|by rewrite add_skip].
    apply Signal_reason, signalReason_nonempty in Hsig.
    rewrite add_reasonsFor by done. destruct (decide (l = k)) as [->|Hne].
    + split; [|apply setAdd_NoDup, Ht].
      intros _ Hnil.
      assert (reason ∈ setAdd (reasonsFor t k) reason) as Hin
        by (apply setAdd_elem_of; by left).
      rewrite Hnil in Hin. by apply elem_of_nil in Hin.
    + split; [|apply Ht].
      intros [?|[-> _]]%add_keys; [by apply Ht|done].
  - intros k. split; [by intros ?%elem_of_nil|apply NoDup_nil_2].
Qed.

Lemma rankCandidates_reasons_inv fileAuthors rules files latencyMap weights
    cross tz required r :
  r ∈ rankCandidates minimatch prAuthor fileAuthors rules files latencyMap
        weights cross tz required →
  reasons r ≠ [] ∧ NoDup (reasons r).
Proof.
  intros Hr.
  destruct (rankCandidates_elem_of minimatch prAuthor fileAuthors rules files
              latencyMap weights cross tz required r Hr) as (Hk & _ & -> & _).
  destruct (tally_reasons_inv fileAuthors rules files latencyMap weights cross
              tz required (login r)) as [Hne Hnd].
  split; [by apply Hne|done].
Qed.

End reasons_facts.

(** X20. Every candidate of [rankCandidates], and every candidate of the
    final ranking, carries at least one reason and no reason twice; in the
    final ranking each reason is the reason of a signal or the reason of
    the flaky penalty, which is there exactly when the candidate is
    flaky. *)
Theorem candidates_carry_reasons
    (minimatch : string → string → bool) (api : Api) (repo : string) (now : Z)
    (prAuthor : option string) (changedFiles : list string) (config : Config) :
  (∀ fileAuthors rules files latencyMap weights cross tz required r,
     r ∈ rankCandidates minimatch prAuthor fileAuthors rules files latencyMap
           weights cross tz required →
     reasons r ≠ [] ∧ NoDup (reasons r) ∧ ∀ x, x ∈ reasons r → signalReason x)
  ∧ (∀ r, r ∈ finalRanking minimatch api repo now prAuthor changedFiles config →
       reasons r ≠ [] ∧ NoDup (reasons r)
       ∧ (∀ x, x ∈ reasons r → signalReason x ∨ x = "flaky reviewer")
       ∧ ("flaky reviewer" ∈ reasons r
          ↔ Str.toLowerCase (login r) ∈ flakyReviewersOf api now config)).
Proof.
  split.
  - intros fileAuthors rules files latencyMap weights cross tz required r Hr.
    destruct (rankCandidates_reasons_inv minimatch prAuthor fileAuthors rules
                files latencyMap weights cross tz required r Hr) as [? ?].
    split; [done|]. split; [done|]. intros x.
    by apply (rankCandidates_reasons minimatch prAuthor fileAuthors rules files
                latencyMap weights cross tz required r).
  - intros r Hr.
    destruct (finalRanking_from_base minimatch api repo now prAuthor changedFiles
                config r Hr) as (r0 & Hr0 & Hl & _ & _ & _ & _ & Hrs).
    unfold baseRanking in Hr0.
    destruct (rankCandidates_reasons_inv _ _ _ _ _ _ _ _ _ _ _ Hr0) as [Hne Hnd].
    pose proof (λ x, rankCandidates_reasons _ _ _ _ _ _ _ _ _ _ r0 x Hr0) as Hsig.
    assert ("flaky reviewer" ∉ reasons r0) as Hnf
      by (intros Hin%Hsig; by apply signalReason_not_flaky in Hin).
    rewrite Hrs, Hl. case_bool_decide as Hf.
    + split; [by destruct (reasons r0)|]. split.
      { apply NoDup_app. split; [done|]. split; [|apply NoDup_singleton].
        intros x Hx Hx'%list_elem_of_singleton. by subst x. }
      split.
      { intros x [?|Hx%list_elem_of_singleton]%elem_of_app;
          [left; by apply Hsig|by right]. }
      split; [done|]. intros _. apply elem_of_app. right. by left.
    + rewrite app_nil_r. split; [done|]. split; [done|]. split.
      { intros x Hx. left. by apply Hsig. }
      split; [done|done].
Qed.

Lemma candidates_carry_reasons_witness :
  NoDup ["recent commits"; "CODEOWNERS"; "timezone match"].
Proof.
  destruct (candidates_carry_reasons literalMatch fullApi "repo" 0
              (Some "author") ["src/api/users.ts"; "src/api/billing.ts"]
              fullConfig) as [_ H].
  destruct (H {| login := "alice"; score := 8;
                 reasons := ["recent commits"; "CODEOWNERS"; "timezone match"];
                 openReviews := Some 2 |}) as (_ & Hnd & _).
  - apply list_elem_of_lookup_2 with 0%nat. vm_compute. reflexivity.
  - exact Hnd.
Defined.

(** ** The average hour of a login *)

Lemma pushHour_get m c l :
  default [] (mget (pushHour m c) l) = default [] (mget m l) ++ hoursIn l [c].
Proof.
  unfold pushHour, hoursIn. cbn [omap list_omap].
  destruct (truthy (c_login c)) as [login|]; [|by rewrite app_nil_r].
  destruct (c_hour c) as [h|]; [|by rewrite app_nil_r].
  rewrite mget_mset. destruct (decide (login = l)) as [->|]; [done|].
  by rewrite app_nil_r.
Qed.

Lemma hoursIn_cons l c resp : hoursIn l (c :: resp) = hoursIn l [c] ++ hoursIn l resp.
Proof.
  unfold hoursIn. cbn [omap list_omap].
  by destruct (match truthy (c_login c), c_hour c with
               | Some login, Some h => if decide (login = l) then Some h else None
               | _, _ => None
               end).
Qed.

Lemma foldl_pushHour_get m resp l :
  default [] (mget (foldl pushHour m resp) l)
  = default [] (mget m l) ++ hoursIn l resp.
Proof.
  revert m. induction resp as [|c resp IH]; intros m.
  - by rewrite app_nil_r.
  - cbn [foldl]. rewrite IH, pushHour_get, (hoursIn_cons l c resp).
    by rewrite app_assoc.
Qed.

Lemma collect_hours_get api repo fileAuthors l :
  default [] (mget (foldl (λ avgHours fa,
                             match listCommits api repo (path fa) 10 with
                             | Some resp => foldl pushHour avgHours resp
                             | None => avgHours
                             end) [] fileAuthors) l)
  = hoursOf api repo fileAuthors l.
Proof.
  unfold hoursOf.
  assert (∀ m, default [] (mget (foldl (λ avgHours fa,
                             match listCommits api repo (path fa) 10 with
                             | Some resp => foldl pushHour avgHours resp
                             | None => avgHours
                             end) m fileAuthors) l)
               = default [] (mget m l)
                 ++ concat (map (λ fa, match listCommits api repo (path fa) 10 with
                                       | Some resp => hoursIn l resp
                                       | None => []
                                       end) fileAuthors)) as H.
  { induction fileAuthors as [|fa fas IH]; intros m.
    - by rewrite app_nil_r.
    - cbn [foldl map concat]. rewrite IH.
      destruct (listCommits api repo (path fa) 10) as [resp|].
      + by rewrite foldl_pushHour_get, app_assoc.
      + done. }
  apply (H []).
Qed.

Lemma foldl_mset_map {V W} (f : V → W) (lists : jsmap V) k :
  NoDup (mkeys lists) →
  mget (foldl (λ m e, mset m e.1 (f e.2)) [] lists) k = f <$> mget lists k.
Proof.
  intros Hnd.
  assert (∀ m, mget (foldl (λ m e, mset m e.1 (f e.2)) m lists) k
               = match mget lists k with
                 | Some v => Some (f v)
                 | None => mget m k
                 end) as H.
  { induction lists as [|[k' v] lists IH]; intros m; [done|].
    apply NoDup_cons in Hnd as [Hk Hnd]. cbn [foldl mget fst snd].
    rewrite IH by done. destruct (decide (k' = k)) as [->|Hne].
    - destruct (mget lists k) eqn:Hl;
        [exfalso; apply Hk, elem_of_mkeys; by eexists|].
      by rewrite mget_mset_eq.
    - destruct (mget lists k); [done|]. by rewrite mget_mset_ne. }
  rewrite H. by destruct (mget lists k).
Qed.

Lemma pushHour_nonempty m c :
  (NoDup (mkeys m) ∧ ∀ k hs, mget m k = Some hs → hs ≠ []) →
  NoDup (mkeys (pushHour m c))
  ∧ ∀ k hs, mget (pushHour m c) k = Some hs → hs ≠ [].
Proof.
  intros [Hnd Hm]. unfold pushHour.
  destruct (truthy (c_login c)) as [l|]; [|done].
  destruct (c_hour c) as [h|]; [|done].
  split; [by apply NoDup_mkeys_mset|].
  intros k hs. rewrite mget_mset. destruct (decide (l = k)) as [->|]; [|apply Hm].
  intros [= <-]. by destruct (default [] _).
Qed.

(** X21. The average hour of a login in the timezone data is the rounded
    mean of the hours of its dated commits on the paths of the commit
    history (ten commits a path at most, a path as often as it is listed,
    bots included); a login without such a commit has no entry. *)
Theorem timezone_average_is_mean
    (api : Api) (repo : string) (fileAuthors : list FileAuthors) (off : Z)
    (l : string) :
  ∃ avg, avgHours (collectTimezone api repo fileAuthors off) = Some avg
    ∧ mget avg l
      = match hoursOf api repo fileAuthors l with
        | [] => None
        | hours => Some (averageHour hours)
        end.
Proof.
  unfold collectTimezone. cbn [avgHours].
  pose proof (collect_hours_get api repo fileAuthors l) as Hget.
  set (lists := foldl _ [] fileAuthors) in *.
  assert (NoDup (mkeys lists) ∧ ∀ k hs, mget lists k = Some hs → hs ≠ [])
    as [Hnd Hlists].
  { unfold lists.
    apply (foldl_invariant
             (λ m : jsmap (list Z),
                NoDup (mkeys m) ∧ ∀ k hs, mget m k = Some hs → hs ≠ [])).
    - split; [apply NoDup_nil_2|done].
    - intros m fa _ Hm.
      destruct (listCommits api repo (path fa) 10) as [resp|]; [|done].
      apply (foldl_invariant
               (λ m : jsmap (list Z),
                  NoDup (mkeys m) ∧ ∀ k hs, mget m k = Some hs → hs ≠ []));
        [done|].
      intros m' c _ Hm'. by apply pushHour_nonempty. }
  eexists. split; [done|]. rewrite foldl_mset_map by done.
  destruct (mget lists l) as [hs|] eqn:Hl; simpl in Hget.
  - pose proof (Hlists l hs Hl) as Hne. rewrite <- Hget. by destruct hs.
  - by rewrite <- Hget.
Qed.

Example timezone_average_example :
  ∃ avg, avgHours (collectTimezone fullApi "repo"
                     [{| path := "src/api/users.ts"; authors := ["alice"] |}] 5)
         = Some avg
    ∧ mget avg "bob" = Some 22.
Proof. eexists. split; [reflexivity|]. vm_compute. reflexivity. Qed.
